(** * The asset build pipeline of Mathigon Studio ([build/assets.js])

    A shallow embedding of the orchestrator: the overlay resolver
    ([basename], [getAssetFiles]), the script, style, course, icon, polyfill
    and sitemap stages, the top-level driver [buildAssets] and the rebuild
    closures of watch mode.

    - A JavaScript string is the list of its code units, and the model
      covers the strings whose code units are below 256; on these the
      classes [\s] and [\w], the line terminators and [trim] are exact
      (the no-break space U+00A0 is white space).
    - The external tools (esbuild, sass, postcss, glob, the file system, the
      hash, the course parser) are the fields of an environment record
      [Env]: each is a function of its arguments that either answers or
      throws.
    - A build is a function from the state of the process [World] (the
      published icon path, the collected course URLs, the watch
      registrations, and the trace of what the build did) to a result and a
      new state.  A thrown exception or a rejected promise is the [Throw]
      result; the state reached before the throw is kept, as in JavaScript.
    - An asynchronous function comes twice.  As a computation [Async] it
      is the call awaited while nothing else runs, where [await] is
      sequencing: the rebuild closures and the properties of one call are
      stated on it.  As a [Task] (module [Tasks]) it is the call that is
      suspended at each of its awaits and gives back a [Promise]; the two
      agree ([alone_bundleScripts] and its siblings).
    - [buildAssets] runs on an event loop: a call that is not awaited is
      started and left pending, and each time [buildAssets] itself awaits,
      the pending functions take turns in the order that a schedule
      gives.  The schedule is a parameter, and the properties of a build
      hold for every schedule.
    - Elapsed times are not modelled. *)

From Stdlib Require Import List String Ascii Bool Arith Lia.
Import ListNotations.

(** ** JavaScript strings *)

Module JS.

Definition jstring := list ascii.

Definition str (s : string) : jstring := list_ascii_of_string s.

Fixpoint eqb (a b : jstring) : bool :=
  match a, b with
  | [], [] => true
  | x :: a', y :: b' => Ascii.eqb x y && eqb a' b'
  | _, _ => false
  end.

(** [stripPrefix p s] is [Some r] when [s = p ++ r]. *)
Fixpoint stripPrefix (p s : jstring) : option jstring :=
  match p, s with
  | [], _ => Some s
  | _ :: _, [] => None
  | x :: p', y :: s' => if Ascii.eqb x y then stripPrefix p' s' else None
  end.

(** [String.prototype.startsWith]. *)
Definition startsWith (p s : jstring) : bool :=
  match stripPrefix p s with Some _ => true | None => false end.

(** [String.prototype.endsWith]. *)
Definition endsWith (p s : jstring) : bool := startsWith (rev p) (rev s).

(** The first occurrence of [p] in [s]: the text before it and the text
    after it ([String.prototype.indexOf] with both slices). *)
Fixpoint splitFirst (p s : jstring) : option (jstring * jstring) :=
  match stripPrefix p s with
  | Some r => Some ([], r)
  | None =>
      match s with
      | [] => None
      | c :: s' =>
          match splitFirst p s' with
          | Some (a, b) => Some (c :: a, b)
          | None => None
          end
      end
  end.

(** [String.prototype.includes]. *)
Definition includes (p s : jstring) : bool :=
  match splitFirst p s with Some _ => true | None => false end.

(** ECMAScript GetSubstitution for a match without capture groups: in a
    replacement string [$$] is a dollar sign, [$&] the matched text,
    [$`] the text before the match and [$'] the text after it; any other
    use of [$] stands for itself. *)
Fixpoint getSubstitution (matched before after rep : jstring) : jstring :=
  match rep with
  | [] => []
  | c :: rep' =>
      if Ascii.eqb c "$" then
        match rep' with
        | d :: rep'' =>
            if Ascii.eqb d "$" then "$"%char :: getSubstitution matched before after rep''
            else if Ascii.eqb d "&" then matched ++ getSubstitution matched before after rep''
            else if Ascii.eqb d "`" then before ++ getSubstitution matched before after rep''
            else if Ascii.eqb d "'" then after ++ getSubstitution matched before after rep''
            else c :: getSubstitution matched before after rep'
        | [] => [c]
        end
      else c :: getSubstitution matched before after rep'
  end.

(** [s.replace(pat, rep)] with a string pattern (or a regular expression
    without the [g] flag that matches the literal [pat]): only the first
    occurrence is replaced. *)
Definition replace (pat rep s : jstring) : jstring :=
  match splitFirst pat s with
  | Some (a, b) => a ++ getSubstitution pat a b rep ++ b
  | None => s
  end.

(** [s.slice(0, n)]. *)
Definition slice0 (n : nat) (s : jstring) : jstring := firstn n s.

Fixpoint dropWhile (f : ascii -> bool) (s : jstring) : jstring :=
  match s with
  | [] => []
  | c :: s' => if f c then dropWhile f s' else s
  end.

Fixpoint takeWhile (f : ascii -> bool) (s : jstring) : jstring :=
  match s with
  | [] => []
  | c :: s' => if f c then c :: takeWhile f s' else []
  end.

(** The class [\s], which is also what [trim] strips, among the code
    units below 256: tab, line feed, vertical tab, form feed, carriage
    return, space and the no-break space U+00A0. *)
Definition isSpace (c : ascii) : bool :=
  let n := nat_of_ascii c in
  ((9 <=? n) && (n <=? 13)) || (n =? 32) || (n =? 160).

(** The class [\w]. *)
Definition isWord (c : ascii) : bool :=
  let n := nat_of_ascii c in
  ((48 <=? n) && (n <=? 57)) || ((65 <=? n) && (n <=? 90))
  || ((97 <=? n) && (n <=? 122)) || (n =? 95).

(** [String.prototype.trim]. *)
Definition trim (s : jstring) : jstring :=
  rev (dropWhile isSpace (rev (dropWhile isSpace s))).

(** [Array.prototype.join]. *)
Fixpoint join (sep : jstring) (l : list jstring) : jstring :=
  match l with
  | [] => []
  | [x] => x
  | x :: l' => x ++ sep ++ join sep l'
  end.

(** [s.split(c)] for a separator of one character; the result is never
    empty. *)
Fixpoint split (c : ascii) (s : jstring) : list jstring :=
  match s with
  | [] => [[]]
  | x :: s' =>
      if Ascii.eqb x c then [] :: split c s'
      else match split c s' with
           | seg :: segs => (x :: seg) :: segs
           | [] => [[x]]
           end
  end.

(** [Array.prototype.pop] on a fresh array: its last element. *)
Definition pop (l : list jstring) : jstring := last l [].

(** [String.prototype.repeat]. *)
Fixpoint repeat (s : jstring) (n : nat) : jstring :=
  match n with O => [] | S n' => s ++ repeat s n' end.

(** [Array.prototype.includes] on an array of strings. *)
Definition arrayIncludes (l : list jstring) (x : jstring) : bool :=
  existsb (eqb x) l.

End JS.

Import JS.

(** ** The [path] module of the runtime (POSIX flavour) *)

Module Path.

Definition isSlash (c : ascii) : bool := Ascii.eqb c "/".
Definition notSlash (c : ascii) : bool := negb (isSlash c).
Definition notDot (c : ascii) : bool := negb (Ascii.eqb c ".").

(** [path.sep]. *)
Definition sep : ascii := "/"%char.

(** [path.basename(p)]: trailing slashes are ignored, the result is the
    text after the last remaining slash. *)
Definition basename (p : jstring) : jstring :=
  rev (takeWhile notSlash (dropWhile isSlash (rev p))).

(** [path.basename(p, ext)]: the base name without [ext] when it ends in
    [ext] and is longer than it. *)
Definition basenameExt (p ext : jstring) : jstring :=
  let b := basename p in
  if endsWith ext b && negb (JS.eqb ext b)
  then firstn (List.length b - List.length ext) b else b.

(** [path.extname(p)]: from the last dot of the base name to its end;
    empty when there is no dot, when the only dot is the first character
    of the base name, and for the base name [..]. *)
Definition extname (p : jstring) : jstring :=
  let b := basename p in
  let r := rev b in
  let tail := takeWhile notDot r in
  match dropWhile notDot r with
  | [] => []
  | _ :: [] => []
  | _ :: _ :: _ => if JS.eqb b (str "..") then [] else "."%char :: rev tail
  end.

(** [path.dirname(p)]: the scan runs from the end of [p] down to its
    second character, skips trailing slashes and the base name and cuts at
    the slash before it. *)
Definition dirname (p : jstring) : jstring :=
  match p with
  | [] => str "."
  | c :: q =>
      match dropWhile notSlash (dropWhile isSlash (rev q)) with
      | [] => if isSlash c then str "/" else str "."
      | _ :: rest =>
          if isSlash c && (List.length rest =? 0) then str "//"
          else c :: rev rest
      end
  end.

(** The segment stack of [normalizeString]: empty and [.] segments are
    dropped, [..] removes the segment before it, or is kept when there is
    none to remove and the path is relative. *)
Fixpoint normalizeSegments (allowAboveRoot : bool) (acc : list jstring)
    (segs : list jstring) : list jstring :=
  match segs with
  | [] => rev acc
  | seg :: segs' =>
      if JS.eqb seg [] || JS.eqb seg (str ".")
      then normalizeSegments allowAboveRoot acc segs'
      else if JS.eqb seg (str "..") then
        match acc with
        | top :: acc' =>
            if JS.eqb top (str "..")
            then normalizeSegments allowAboveRoot (seg :: acc) segs'
            else normalizeSegments allowAboveRoot acc' segs'
        | [] =>
            if allowAboveRoot
            then normalizeSegments allowAboveRoot [seg] segs'
            else normalizeSegments allowAboveRoot [] segs'
        end
      else normalizeSegments allowAboveRoot (seg :: acc) segs'
  end.

(** [path.normalize]. *)
Definition normalize (p : jstring) : jstring :=
  match p with
  | [] => str "."
  | _ =>
      let isAbsolute := startsWith (str "/") p in
      let trailing := endsWith (str "/") p in
      let body := JS.join (str "/") (normalizeSegments (negb isAbsolute) [] (split sep p)) in
      match body with
      | [] => if isAbsolute then str "/" else if trailing then str "./" else str "."
      | _ =>
          let body' := if trailing then body ++ str "/" else body in
          if isAbsolute then "/"%char :: body' else body'
      end
  end.

(** [path.join(a, b)]: the non-empty arguments joined by a slash, then
    normalized. *)
Definition join (a b : jstring) : jstring :=
  match a, b with
  | [], [] => str "."
  | [], _ => normalize b
  | _, [] => normalize a
  | _, _ => normalize (a ++ "/"%char :: b)
  end.

Definition join3 (a b c : jstring) : jstring :=
  normalize (JS.join (str "/") (filter (fun s => negb (JS.eqb s [])) [a; b; c])).

Definition join4 (a b c d : jstring) : jstring :=
  normalize (JS.join (str "/") (filter (fun s => negb (JS.eqb s [])) [a; b; c; d])).

End Path.

(** ** Global replacements by regular expression *)

Module Regex.

(** [s.replace(re, ...)] for a regular expression with the [g] flag whose
    matches are never empty.  [matcher s] tells whether [re] matches at the
    start of [s], and if so the length of the match and its replacement;
    the scan resumes after each match. *)
Fixpoint replaceAll (matcher : jstring -> option (nat * jstring))
    (skip : nat) (s : jstring) : jstring :=
  match s with
  | [] => []
  | c :: s' =>
      match skip with
      | S k => replaceAll matcher k s'
      | O =>
          match matcher s with
          | Some (S n, rep) => rep ++ replaceAll matcher n s'
          | _ => c :: replaceAll matcher 0 s'
          end
      end
  end.

Definition dquote : ascii := ascii_of_nat 34.
Definition newline : ascii := ascii_of_nat 10.

Definition isQuote (c : ascii) : bool := Ascii.eqb c "'" || Ascii.eqb c dquote.

(** [/\/\*![\s\S]*?\*\//]: a comment opened by [/*!], up to the nearest
    [*/] after the opening. *)
Definition bangComment (s : jstring) : option (nat * jstring) :=
  match stripPrefix (str "/*!") s with
  | Some r =>
      match splitFirst (str "*/") r with
      | Some (a, _) => Some (3 + List.length a + 2, [])
      | None => None
      end
  | None => None
  end.

(** [/require\(['"]vue['"]\)/], replaced by [window.Vue]. *)
Definition requireVue (s : jstring) : option (nat * jstring) :=
  match stripPrefix (str "require(") s with
  | Some (q1 :: r1) =>
      if isQuote q1 then
        match stripPrefix (str "vue") r1 with
        | Some (q2 :: r2) =>
            if isQuote q2 then
              match stripPrefix (str ")") r2 with
              | Some _ => Some (14, str "window.Vue")
              | None => None
              end
            else None
        | _ => None
        end
      else None
  | _ => None
  end.

(** The class [[\w\s:]]. *)
Definition isKeyChar (c : ascii) : bool :=
  isWord c || isSpace c || Ascii.eqb c ":".

(** [/<<([\w\s:]+)>>/], replaced by the value of the callback on the
    captured key.  No character of the class is [>], so the greedy run of
    the key is the only candidate. *)
Definition localisationKey (callback : jstring -> jstring) (s : jstring)
    : option (nat * jstring) :=
  match stripPrefix (str "<<") s with
  | Some r =>
      let key := takeWhile isKeyChar r in
      match key, stripPrefix (str ">>") (dropWhile isKeyChar r) with
      | _ :: _, Some _ => Some (2 + List.length key + 2, callback key)
      | _, _ => None
      end
  | None => None
  end.

(** A line terminator among the code units below 256; [.] matches
    anything else. *)
Definition isLineTerminator (c : ascii) : bool :=
  Ascii.eqb c newline || Ascii.eqb c (ascii_of_nat 13).

(** [/\n\/\/# sourceMappingURL=.*\n/], replaced by a line feed. *)
Definition sourceMapLine (s : jstring) : option (nat * jstring) :=
  match stripPrefix (newline :: str "//# sourceMappingURL=") s with
  | Some r =>
      let body := takeWhile (fun c => negb (isLineTerminator c)) r in
      match stripPrefix [newline] (dropWhile (fun c => negb (isLineTerminator c)) r) with
      | Some _ => Some (1 + 21 + List.length body + 1, [newline])
      | None => None
      end
  | None => None
  end.

End Regex.

(** ** The environment of a build *)

(** What a call that may throw gives back. *)
Inductive Result (A : Type) : Type :=
| Ok (a : A)
| Throw (e : jstring).

Arguments Ok {A} a.
Arguments Throw {A} e.

(** [CONFIG] of [./utilities], read from the project's configuration. *)
Record Config : Type := {
  banner : jstring;
  domain : jstring;
  sitemap : list jstring
}.

(** The options of one [esbuild.build] call that vary between calls. *)
Record EsbuildRequest : Type := {
  entryPoint : jstring;
  defineENV : jstring;
  minifyFlag : bool;
  globalName : option jstring;
  pugTranslate : jstring -> jstring;
  metafile : bool;
  bannerJs : jstring
}.

(** [result.outputFiles[0].text] and [result.metafile?.inputs] (the keys). *)
Record EsbuildResult : Type := {
  outputText : jstring;
  metafileInputs : option (list jstring)
}.

(** [output.css] and [output.stats.includedFiles] of [sass.renderSync]. *)
Record SassResult : Type := {
  css : jstring;
  includedFiles : list jstring
}.

(** What [bundleMarkdown] reads of the value of [parseCourse]:
    [JSON.stringify(data.course)] when [data.course] is set, and
    [data.srcFile]. *)
Record CourseData : Type := {
  course : option jstring;
  srcFile : jstring
}.

(** The external collaborators of the pipeline.  Each is a function of its
    arguments: the file system and the tools do not change during one
    build. *)
Record Env : Type := {
  CONFIG : Config;
  STUDIO_ASSETS : jstring;
  PROJECT_ASSETS : jstring;
  CONTENT : jstring;
  OUTPUT : jstring;
  dirname__ : jstring;                      (* __dirname *)
  cwd : jstring;                            (* process.cwd() *)
  glob_sync : jstring -> jstring -> list jstring;   (* pattern, cwd *)
  findFiles : jstring -> jstring -> jstring -> list (jstring * jstring);
  readFile : jstring -> Result jstring;
  fsWrite : jstring -> jstring -> Result unit;      (* outcome of writeFile *)
  existsSync : jstring -> bool;
  textHash : jstring -> jstring;
  esbuild_build : EsbuildRequest -> Result EsbuildResult;
  sass_renderSync : jstring -> list jstring -> Result SassResult;
  postcss_process : bool -> bool -> jstring -> Result jstring; (* rtl, minify *)
  parseCourse : jstring -> jstring -> list jstring
                -> Result (option CourseData) * list jstring
}.

(** ** The state of the process *)

(** [options] of [bundleScripts]. *)
Record Options : Type := {
  locales : option (list jstring);
  env : option jstring;
  name : option jstring;
  translate : option (jstring -> jstring -> option jstring)
}.

Definition noOptions : Options :=
  {| locales := None; env := None; name := None; translate := None |}.

(** The closures handed to [watchFiles], one constructor per call site. *)
Inductive Rebuild : Type :=
| RebuildStyles (srcPath destPath : jstring) (minify : bool)
| RebuildScripts (srcPath destPath : jstring) (minify : bool) (options : Options)
| RebuildMarkdown (id locale : jstring) (allLocales : list jstring) (base : jstring).

Record Registration : Type := {
  files : list jstring;
  rebuildFn : Rebuild
}.

(** What a build does that can be seen from outside, oldest first. *)
Inductive Event : Type :=
| EWrite (dest text : jstring)        (* writeFile(dest, text) returned *)
| ESuccess (id : jstring)             (* success(id, ms) *)
| EError (id msg : jstring)           (* error(id)(e) *)
| EParse (dir locale : jstring)       (* parseCourse(dir, locale, ...) called *)
| EWriteCache.                        (* writeCache() *)

Record World : Type := {
  iconsPath : jstring;
  COURSE_URLS : list jstring;
  watching : list Registration;
  trace : list Event
}.

(** The state of a fresh process: [let iconsPath = '/icons.svg']. *)
Definition initialWorld : World :=
  {| iconsPath := str "/icons.svg"; COURSE_URLS := []; watching := []; trace := [] |}.

(** ** Asynchronous computations *)

Definition Async (A : Type) : Type := World -> Result A * World.

Definition ret {A} (a : A) : Async A := fun w => (Ok a, w).

Definition bind {A B} (m : Async A) (k : A -> Async B) : Async B :=
  fun w =>
    match m w with
    | (Ok a, w') => k a w'
    | (Throw e, w') => (Throw e, w')
    end.

Declare Scope async_scope.
Delimit Scope async_scope with async.
Notation "x <- m ;; k" := (bind m (fun x => k))
  (at level 61, m at next level, right associativity) : async_scope.
Notation "m ;; k" := (bind m (fun _ => k))
  (at level 61, right associativity) : async_scope.
Local Open Scope async_scope.

(** A synchronous call that may throw. *)
Definition lift {A} (r : Result A) : Async A := fun w => (r, w).

(** [promise.catch(handler)]. *)
Definition catch {A} (m : Async A) (handler : jstring -> Async A) : Async A :=
  fun w =>
    match m w with
    | (Ok a, w') => (Ok a, w')
    | (Throw e, w') => handler e w'
    end.

(** [for (const x of l) { await body(x) }]. *)
Fixpoint forEach {A} (l : list A) (body : A -> Async unit) : Async unit :=
  match l with
  | [] => ret tt
  | x :: l' => body x ;; forEach l' body
  end.

(** [l.map(f)] where [f] may throw. *)
Fixpoint mapM {A B} (f : A -> Async B) (l : list A) : Async (list B) :=
  match l with
  | [] => ret []
  | x :: l' => y <- f x ;; ys <- mapM f l' ;; ret (y :: ys)
  end.

Definition emit (e : Event) : Async unit :=
  fun w => (Ok tt, {| iconsPath := iconsPath w; COURSE_URLS := COURSE_URLS w;
                      watching := watching w; trace := trace w ++ [e] |}).

Definition getIconsPath : Async jstring := fun w => (Ok (iconsPath w), w).

Definition setIconsPath (p : jstring) : Async unit :=
  fun w => (Ok tt, {| iconsPath := p; COURSE_URLS := COURSE_URLS w;
                      watching := watching w; trace := trace w |}).

(** A [Set] keeps the first insertion of each value. *)
Fixpoint setAdd (urls : list jstring) (set : list jstring) : list jstring :=
  match urls with
  | [] => set
  | u :: urls' => setAdd urls' (if arrayIncludes set u then set else set ++ [u])
  end.

Definition addCourseUrls (urls : list jstring) : Async unit :=
  fun w => (Ok tt, {| iconsPath := iconsPath w; COURSE_URLS := setAdd urls (COURSE_URLS w);
                      watching := watching w; trace := trace w |}).

(** Modelled from the spec: [writeFile] of [./utilities] is missing;
    low-level file output, which fails or writes the file. *)
Definition writeFile (E : Env) (dest text : jstring) : Async unit :=
  lift (fsWrite E dest text) ;; emit (EWrite dest text).

(** Modelled from the spec: [success] of [./utilities] is missing; it
    reports the unit as built.  The elapsed time is not modelled. *)
Definition success (id : jstring) : Async unit := emit (ESuccess id).

(** Modelled from the spec: [error] of [./utilities] is missing; a failure
    is captured and logged with the unit's source identity, and nothing is
    thrown again. *)
Definition error (id : jstring) : jstring -> Async unit :=
  fun e => emit (EError id e).

(** Modelled from the spec: [watchFiles] of [./utilities] is missing; a
    call registers the dependency paths with their rebuild function, and
    registrations are never merged. *)
Definition watchFiles (fs : list jstring) (callback : Rebuild) : Async unit :=
  fun w => (Ok tt, {| iconsPath := iconsPath w; COURSE_URLS := COURSE_URLS w;
                      watching := watching w ++ [{| files := fs; rebuildFn := callback |}];
                      trace := trace w |}).

(** ** Tools *)

Record AssetFile : Type := {
  src : jstring;
  dest : jstring
}.

(** Get the basename of a path, but resolve /a/b/c/index.js to c.js. *)
Definition basename (p : jstring) : jstring :=
  let name := Path.basename p in
  let ext := Path.extname p in
  if startsWith (str "index.") name
  then pop (split Path.sep (Path.dirname p)) ++ ext
  else name.

(** The two root scans of [getAssetFiles], after [path.join] with the
    root. *)
Definition expandPattern (pattern : jstring) : jstring :=
  replace (str "*") (str "{*,*/index}") pattern.

Definition projectFilesOf (E : Env) (pattern : jstring) : list jstring :=
  map (fun c => Path.join (PROJECT_ASSETS E) c)
      (glob_sync E (expandPattern pattern) (PROJECT_ASSETS E)).

Definition studioFilesOf (E : Env) (pattern : jstring) : list jstring :=
  let projectFileNames := map basename (projectFilesOf E pattern) in
  filter (fun p => negb (arrayIncludes projectFileNames (basename p)))
         (map (fun c => Path.join (STUDIO_ASSETS E) c)
              (glob_sync E (expandPattern pattern) (STUDIO_ASSETS E))).

(** Select all files in the project or the core frontend/ directory. Note
    that the project may overwrite files with the same name. *)
Definition getAssetFiles (E : Env) (pattern : jstring) : list AssetFile :=
  map (fun s => {| src := s; dest := Path.join (OUTPUT E) (basename s) |})
      (studioFilesOf E pattern ++ projectFilesOf E pattern).

(** ** Styles *)

Definition getNodePaths (E : Env) (s : jstring) : list jstring :=
  filter (existsSync E)
         (map (fun i => Path.join3 s (JS.repeat (str "../") i) (str "node_modules"))
              [0; 1; 2; 3; 4; 5]).

Definition bannerComment (E : Env) : jstring :=
  str "/* " ++ banner (CONFIG E) ++ str ", generated by Mathigon Studio */".

Definition cssDest (destPath : jstring) : jstring :=
  if endsWith (str ".scss") destPath
  then replace (str ".scss") (str ".css") destPath else destPath.

Definition bundleStyles (E : Env) (srcPath destPath : jstring)
    (minify watch : bool) : Async unit :=
  let destPath := cssDest destPath in
  output <- lift (sass_renderSync E srcPath (getNodePaths E (Path.dirname srcPath))) ;;
  let fs := includedFiles output in
  let banner := bannerComment E ++ [Regex.newline] in
  forEach [false; true] (fun rtl =>
    transformed <- lift (postcss_process E rtl minify (css output)) ;;
    let dest := if rtl then replace (str ".css") (str ".rtl.css") destPath
                else destPath in
    writeFile E dest (banner ++ transformed)) ;;
  (if watch then watchFiles fs (RebuildStyles srcPath destPath minify)
   else ret tt) ;;
  success srcPath.

(** ** Scripts *)

(** [options.translate?.(locale, str) || str]: an absent callback, an
    absent entry and the empty string all fall back to the key. *)
Definition translated (options : Options) (locale key : jstring) : jstring :=
  match translate options with
  | Some f =>
      match f locale key with
      | Some (c :: t) => c :: t
      | _ => key
      end
  | None => key
  end.

Definition jsDest (destPath : jstring) : jstring :=
  if endsWith (str ".ts") destPath
  then replace (str ".ts") (str ".js") destPath else destPath.

(** The destination of one locale's bundle. *)
Definition localeDest (destPath locale : jstring) : jstring :=
  if JS.eqb locale (str "en") then destPath
  else replace (str ".js") (str "." ++ locale ++ str ".js") destPath.

(** The text written for one locale, from the text esbuild produced. *)
Definition scriptText (options : Options) (locale icons raw : jstring) : jstring :=
  let text :=
    replace (str "/icons.svg") icons                      (* Cache busting for icons *)
      (Regex.replaceAll Regex.requireVue 0                (* Fix imports *)
        (Regex.replaceAll Regex.bangComment 0             (* Remove comments *)
          (trim raw))) in
  (* Replace localisation strings. *)
  Regex.replaceAll (Regex.localisationKey (translated options locale)) 0 text.

Definition esbuildRequest (E : Env) (srcPath : jstring) (minify watch : bool)
    (options : Options) (locale : jstring) : EsbuildRequest :=
  {| entryPoint := srcPath;
     defineENV := match env options with Some (c :: e) => c :: e | _ => str "WEB" end;
     minifyFlag := minify;
     globalName := name options;
     pugTranslate := translated options locale;
     metafile := watch;
     bannerJs := bannerComment E |}.

Definition localesOf (options : Options) : list jstring :=
  match locales options with Some l => l | None => [str "en"] end.

(** The body of the loop over the locales; [inputs] is the variable the
    loop assigns. *)
Fixpoint bundleLocales (E : Env) (srcPath destPath : jstring) (minify watch : bool)
    (options : Options) (inputs : option (list jstring)) (ls : list jstring)
    : Async (option (list jstring)) :=
  match ls with
  | [] => ret inputs
  | locale :: ls' =>
      result <- lift (esbuild_build E (esbuildRequest E srcPath minify watch options locale)) ;;
      let inputs := metafileInputs result in
      icons <- getIconsPath ;;
      let output := scriptText options locale icons (outputText result) in
      writeFile E (localeDest destPath locale) output ;;
      bundleLocales E srcPath destPath minify watch options inputs ls'
  end.

Definition bundleScripts (E : Env) (srcPath destPath : jstring)
    (minify watch : bool) (options : Options) : Async unit :=
  let destPath := jsDest destPath in
  if endsWith (str ".d.ts") srcPath then ret tt   (* Skip declaration files *)
  else
    inputs <- bundleLocales E srcPath destPath minify watch options None
                (localesOf options) ;;
    (if watch then
       match inputs with
       | Some keys =>
           let fs := map (fun f => Path.join (cwd E) f)
                         (filter (fun f => negb (startsWith (str "node_modules") f)) keys) in
           watchFiles fs (RebuildScripts srcPath destPath minify options)
       | None => lift (Throw (str "TypeError: Cannot convert undefined or null to object"))
       end
     else ret tt) ;;
    success srcPath.

(** ** Markdown Courses *)

Definition courseLabel (id locale : jstring) : jstring :=
  str "course " ++ id ++ str " [" ++ locale ++ str "]".

(** Modelled from the spec: [parseCourse] and [COURSE_URLS] of [./markdown]
    are missing; the document transform extends the URL set with the URLs
    it reports, whether or not it then fails. *)
Definition parseCourseCall (E : Env) (dir locale : jstring) (allLocales : list jstring)
    : Async (option CourseData) :=
  emit (EParse dir locale) ;;
  addCourseUrls (snd (parseCourse E dir locale allLocales)) ;;
  lift (fst (parseCourse E dir locale allLocales)).

Definition bundleMarkdown (E : Env) (id locale : jstring) (allLocales : list jstring)
    (watch : bool) (base : jstring) : Async unit :=
  data <- parseCourseCall E (Path.join base id) locale allLocales ;;
  match data with
  | None => ret tt
  | Some data =>
      match course data with
      | Some json =>
          let dest := Path.join4 (OUTPUT E) (str "content") id
                        (str "data_" ++ locale ++ str ".json") in
          writeFile E dest json ;;
          emit EWriteCache ;;
          success (courseLabel id locale)
      | None => ret tt
      end ;;
      (if watch
       then watchFiles [srcFile data] (RebuildMarkdown id locale allLocales base)
       else ret tt)
  end.

(** ** Miscellaneous Files *)

Definition svgNamespace : jstring :=
  str " xmlns=" ++ Regex.dquote :: str "http://www.w3.org/2000/svg" ++ [Regex.dquote].

Definition spriteHeader : jstring :=
  str "<?xml version=" ++ Regex.dquote :: str "1.0" ++ Regex.dquote
  :: str " encoding=" ++ Regex.dquote :: str "UTF-8" ++ Regex.dquote
  :: str "?><!DOCTYPE svg PUBLIC " ++ Regex.dquote :: str "-//W3C//DTD SVG 1.1//EN"
  ++ Regex.dquote :: str " " ++ Regex.dquote
  :: str "http://www.w3.org/Graphics/SVG/1.1/DTD/svg11.dtd" ++ Regex.dquote
  :: str "><svg xmlns=" ++ Regex.dquote :: str "http://www.w3.org/2000/svg"
  ++ Regex.dquote :: str " xmlns:xlink=" ++ Regex.dquote
  :: str "http://www.w3.org/1999/xlink" ++ Regex.dquote :: str ">".

(** One icon of the sprite. *)
Definition iconSymbol (E : Env) (a : AssetFile) : Async jstring :=
  let id := Path.basenameExt (src a) (str ".svg") in
  content <- lift (readFile E (src a)) ;;
  ret (replace (str "</svg>") (str "</symbol>")
        (replace (str "<svg ")
                 (str "<symbol id=" ++ Regex.dquote :: id ++ Regex.dquote :: str " ")
          (replace svgNamespace [] content))).

Definition spriteOf (icons : list jstring) : jstring :=
  spriteHeader ++ JS.join [] icons ++ str "</svg>".

(** The cache-busted path of a sprite. *)
Definition hashedIconsPath (E : Env) (symbols : jstring) : jstring :=
  let hash := slice0 8 (textHash E symbols) in
  str "/icons." ++ hash ++ str ".svg".

Definition bundleIcons (E : Env) : Async unit :=
  icons <- mapM (iconSymbol E) (getAssetFiles E (str "assets/icons/*.svg")) ;;
  let symbols := spriteOf icons in
  setIconsPath (hashedIconsPath E symbols) ;;   (* Add cache bust *)
  writeFile E (Path.join (OUTPUT E) (str "icons.svg")) symbols ;;
  success (str "icons.svg").

Definition createPolyfill (E : Env) : Async unit :=
  let s := Path.join (dirname__ E) (str "../node_modules") in
  f1 <- lift (readFile E (s ++ str "/web-animations-js/web-animations.min.js")) ;;
  f2 <- lift (readFile E (s ++ str "/@webcomponents/custom-elements/custom-elements.min.js")) ;;
  let polyfill := Regex.replaceAll Regex.sourceMapLine 0
                    (JS.join [Regex.newline] [f1; f2]) in   (* No Sourcemaps *)
  writeFile E (Path.join (OUTPUT E) (str "polyfill.js")) polyfill.

Definition sitemapOptions : jstring :=
  str "<changefreq>weekly</changefreq><priority>1.0</priority>".

Definition sitemapEntry (E : Env) (url : jstring) : jstring :=
  str "<url><loc>https://" ++ domain (CONFIG E) ++ url ++ str "</loc>"
  ++ sitemapOptions ++ str "</url>".

(** The URLs of the sitemap, in the order of the document. *)
Definition sitemapUrls (E : Env) (courseUrls URLs : list jstring) : list jstring :=
  [str "/"] ++ courseUrls ++ sitemap (CONFIG E) ++ URLs.

Definition sitemapHeader : jstring :=
  str "<?xml version=" ++ Regex.dquote :: str "1.0" ++ Regex.dquote
  :: str " encoding=" ++ Regex.dquote :: str "UTF-8" ++ Regex.dquote
  :: str "?><urlset xmlns=" ++ Regex.dquote
  :: str "http://www.sitemaps.org/schemas/sitemap/0.9" ++ Regex.dquote :: str ">".

Definition sitemapDocument (E : Env) (courseUrls URLs : list jstring) : jstring :=
  let urls := map (sitemapEntry E) (sitemapUrls E courseUrls URLs) in
  sitemapHeader ++ JS.join [] urls ++ str "</urlset>".

Definition createSitemap (E : Env) (URLs : list jstring) : Async unit :=
  fun w =>
    writeFile E (Path.join (OUTPUT E) (str "sitemap.xml"))
              (sitemapDocument E (COURSE_URLS w) URLs) w.

(** ** Promises and the event loop *)

(** The promise of a call of an asynchronous function: settled with its
    result, or pending, with the rest of the function from the [await] at
    which it is suspended.  Resumed in a state, the rest runs to the next
    [await] or to the end of the function. *)
#[local] Unset Elimination Schemes.

Inductive Promise (A : Type) : Type :=
| Done (r : Result A)
| Pending (resume : World -> Promise A * World).

#[local] Set Elimination Schemes.

Arguments Done {A} r.
Arguments Pending {A} resume.

(** A call of an asynchronous function: it runs to its first [await] and
    gives back its promise. *)
Definition Task (A : Type) : Type := World -> Promise A * World.

(** Code without an [await]. *)
Definition now {A} (m : Async A) : Task A :=
  fun w => let (r, w') := m w in (Done r, w').

(** [await op(...)] for an operation of the environment: the function is
    suspended, and when it is resumed the operation has had its effect and
    gives its result or throws. *)
Definition await {A} (m : Async A) : Task A :=
  fun w => (Pending (now m), w).

Arguments now {A} m%_async.
Arguments await {A} m%_async.

(** What follows a promise inside its function. *)
Fixpoint andThen {A B} (p : Promise A) (f : A -> Task B) : Task B :=
  match p with
  | Done (Ok a) => f a
  | Done (Throw e) => fun w => (Done (Throw e), w)
  | Pending k =>
      fun w => (Pending (fun w1 => let (p', w1') := k w1 in andThen p' f w1'), w)
  end.

Definition tbind {A B} (t : Task A) (f : A -> Task B) : Task B :=
  fun w => let (p, w') := t w in andThen p f w'.

Definition tret {A} (a : A) : Task A := fun w => (Done (Ok a), w).

Declare Scope task_scope.
Delimit Scope task_scope with task.
Notation "x <- m ;; k" := (tbind m (fun x => k))
  (at level 61, m at next level, right associativity) : task_scope.
Notation "m ;; k" := (tbind m (fun _ => k))
  (at level 61, right associativity) : task_scope.

(** [promise.catch(handler)]: the handler is a job of its own, run after
    the promise is rejected. *)
Fixpoint caught {A} (p : Promise A) (handler : jstring -> Async A) : Promise A :=
  match p with
  | Done (Ok a) => Done (Ok a)
  | Done (Throw e) => Pending (now (handler e))
  | Pending k => Pending (fun w => let (p', w') := k w in (caught p' handler, w'))
  end.

Definition tcatch {A} (t : Task A) (handler : jstring -> Async A) : Task A :=
  fun w => let (p, w') := t w in (caught p handler, w').

(** [for (const x of l) { ... }] inside an asynchronous function. *)
Fixpoint tforEach {A} (l : list A) (body : A -> Task unit) : Task unit :=
  match l with
  | [] => tret tt
  | x :: l' => tbind (body x) (fun _ => tforEach l' body)
  end.

(** A pending function resumed again and again with nothing in between,
    to its end; and a call that is awaited while nothing else runs. *)
Fixpoint settle {A} (p : Promise A) : Async A :=
  match p with
  | Done r => lift r
  | Pending k => fun w => let (p', w') := k w in settle p' w'
  end.

Definition alone {A} (t : Task A) : Async A :=
  fun w => let (p, w') := t w in settle p w'.

(** Induction on what is left of a function. *)
Fixpoint Promise_ind {A} (P : Promise A -> Prop)
    (HDone : forall r, P (Done r))
    (HPending : forall k, (forall w, P (fst (k w))) -> P (Pending k))
    (p : Promise A) : P p :=
  match p with
  | Done r => HDone r
  | Pending k => HPending k (fun w => Promise_ind P HDone HPending (fst (k w)))
  end.

(** ** The build functions with their awaits

    The functions of the pipeline once more, now as calls that are
    suspended at each [await]; the definitions above are these calls
    awaited while nothing else runs. *)

Module Tasks.

Local Open Scope task_scope.

Definition bundleStyles (E : Env) (srcPath destPath : jstring)
    (minify watch : bool) : Task unit :=
  let destPath := cssDest destPath in
  output <- now (lift (sass_renderSync E srcPath (getNodePaths E (Path.dirname srcPath)))) ;;
  let fs := includedFiles output in
  let banner := bannerComment E ++ [Regex.newline] in
  tforEach [false; true] (fun rtl =>
    transformed <- await (lift (postcss_process E rtl minify (css output))) ;;
    let dest := if rtl then replace (str ".css") (str ".rtl.css") destPath
                else destPath in
    await (writeFile E dest (banner ++ transformed))) ;;
  now (if watch then watchFiles fs (RebuildStyles srcPath destPath minify)
       else ret tt) ;;
  now (success srcPath).

Fixpoint bundleLocales (E : Env) (srcPath destPath : jstring) (minify watch : bool)
    (options : Options) (inputs : option (list jstring)) (ls : list jstring)
    : Task (option (list jstring)) :=
  match ls with
  | [] => tret inputs
  | locale :: ls' =>
      result <- await (lift (esbuild_build E
                               (esbuildRequest E srcPath minify watch options locale))) ;;
      let inputs := metafileInputs result in
      icons <- now getIconsPath ;;
      let output := scriptText options locale icons (outputText result) in
      await (writeFile E (localeDest destPath locale) output) ;;
      bundleLocales E srcPath destPath minify watch options inputs ls'
  end.

Definition bundleScripts (E : Env) (srcPath destPath : jstring)
    (minify watch : bool) (options : Options) : Task unit :=
  let destPath := jsDest destPath in
  if endsWith (str ".d.ts") srcPath then tret tt   (* Skip declaration files *)
  else
    inputs <- bundleLocales E srcPath destPath minify watch options None
                (localesOf options) ;;
    now (if watch then
           match inputs with
           | Some keys =>
               let fs := map (fun f => Path.join (cwd E) f)
                             (filter (fun f => negb (startsWith (str "node_modules") f))
                                     keys) in
               watchFiles fs (RebuildScripts srcPath destPath minify options)
           | None => lift (Throw (str "TypeError: Cannot convert undefined or null to object"))
           end
         else ret tt) ;;
    now (success srcPath).

(** Modelled from the spec: [parseCourse] of [./markdown] is missing; the
    call is logged when it is made, and the URLs it reports are in the set
    when it returns. *)
Definition parseCourseCall (E : Env) (dir locale : jstring) (allLocales : list jstring)
    : Task (option CourseData) :=
  now (emit (EParse dir locale)) ;;
  await (addCourseUrls (snd (parseCourse E dir locale allLocales)) ;;
         lift (fst (parseCourse E dir locale allLocales))).

Definition bundleMarkdown (E : Env) (id locale : jstring) (allLocales : list jstring)
    (watch : bool) (base : jstring) : Task unit :=
  data <- parseCourseCall E (Path.join base id) locale allLocales ;;
  match data with
  | None => tret tt
  | Some data =>
      match course data with
      | Some json =>
          let dest := Path.join4 (OUTPUT E) (str "content") id
                        (str "data_" ++ locale ++ str ".json") in
          await (writeFile E dest json) ;;
          now (emit EWriteCache) ;;
          now (success (courseLabel id locale))
      | None => tret tt
      end ;;
      now (if watch
           then watchFiles [srcFile data] (RebuildMarkdown id locale allLocales base)
           else ret tt)
  end.

Definition bundleIcons (E : Env) : Task unit :=
  icons <- now (mapM (iconSymbol E) (getAssetFiles E (str "assets/icons/*.svg"))) ;;
  let symbols := spriteOf icons in
  now (setIconsPath (hashedIconsPath E symbols)) ;;   (* Add cache bust *)
  await (writeFile E (Path.join (OUTPUT E) (str "icons.svg")) symbols) ;;
  now (success (str "icons.svg")).

Definition createPolyfill (E : Env) : Task unit :=
  let s := Path.join (dirname__ E) (str "../node_modules") in
  f1 <- now (lift (readFile E (s ++ str "/web-animations-js/web-animations.min.js"))) ;;
  f2 <- now (lift (readFile E
                     (s ++ str "/@webcomponents/custom-elements/custom-elements.min.js"))) ;;
  let polyfill := Regex.replaceAll Regex.sourceMapLine 0
                    (JS.join [Regex.newline] [f1; f2]) in   (* No Sourcemaps *)
  await (writeFile E (Path.join (OUTPUT E) (str "polyfill.js")) polyfill).

Definition createSitemap (E : Env) (URLs : list jstring) : Task unit :=
  fun w =>
    await (writeFile E (Path.join (OUTPUT E) (str "sitemap.xml"))
                     (sitemapDocument E (COURSE_URLS w) URLs)) w.

End Tasks.

(** ** The event loop *)

(** The process while [buildAssets] runs: the promises of the calls made
    so far, oldest first, the state, and what is left of the schedule.
    The schedule says in which order the pending functions are resumed:
    one chunk of it is used each time [buildAssets] waits, and a chunk
    names, turn by turn, the promise whose function is resumed. *)
Record Loop : Type := {
  started : list (Promise unit);
  world : World;
  schedule : list (list nat)
}.

(** The code of [buildAssets] itself, between its awaits. *)
Definition Main (A : Type) : Type := Loop -> Result A * Loop.

Definition mret {A} (a : A) : Main A := fun s => (Ok a, s).

Definition mbind {A B} (m : Main A) (k : A -> Main B) : Main B :=
  fun s =>
    match m s with
    | (Ok a, s') => k a s'
    | (Throw e, s') => (Throw e, s')
    end.

Declare Scope main_scope.
Delimit Scope main_scope with main.
Notation "x <- m ;; k" := (mbind m (fun x => k))
  (at level 61, m at next level, right associativity) : main_scope.
Notation "m ;; k" := (mbind m (fun _ => k))
  (at level 61, right associativity) : main_scope.

Fixpoint mforEach {A} (l : list A) (body : A -> Main unit) : Main unit :=
  match l with
  | [] => mret tt
  | x :: l' => mbind (body x) (fun _ => mforEach l' body)
  end.

(** [l[i] = p]. *)
Fixpoint setNth {A} (i : nat) (p : A) (l : list A) : list A :=
  match l, i with
  | [], _ => []
  | _ :: l', O => p :: l'
  | x :: l', S j => x :: setNth j p l'
  end.

(** One turn of the loop: the function behind promise [i], if it is
    pending, is resumed and runs to its next [await] or to its end. *)
Definition turn (i : nat) (ps : list (Promise unit)) (w : World)
    : list (Promise unit) * World :=
  match nth_error ps i with
  | Some (Pending k) => let (p', w') := k w in (setNth i p' ps, w')
  | _ => (ps, w)
  end.

Fixpoint turns (chunk : list nat) (ps : list (Promise unit)) (w : World)
    : list (Promise unit) * World :=
  match chunk with
  | [] => (ps, w)
  | i :: chunk' => let (ps', w') := turn i ps w in turns chunk' ps' w'
  end.

(** The function behind promise [i] resumed until it has returned. *)
Definition finish (i : nat) (ps : list (Promise unit)) (w : World)
    : list (Promise unit) * World :=
  match nth_error ps i with
  | Some p => let (r, w') := settle p w in (setNth i (Done r) ps, w')
  | None => (ps, w)
  end.

(** The first of the promises [ns] that is rejected, with its reason. *)
Fixpoint rejection (ns : list nat) (ps : list (Promise unit)) : option jstring :=
  match ns with
  | [] => None
  | i :: ns' =>
      match nth_error ps i with
      | Some (Done (Throw e)) => Some e
      | _ => rejection ns' ps
      end
  end.

(** The functions behind the promises [todo] resumed each until it has
    returned, in the order of [todo] and as long as none of [ns] is
    rejected. *)
Fixpoint finishAll (ns todo : list nat) (ps : list (Promise unit)) (w : World)
    : list (Promise unit) * World :=
  match todo with
  | [] => (ps, w)
  | i :: todo' =>
      match rejection ns ps with
      | Some _ => (ps, w)
      | None => let (ps', w') := finish i ps w in finishAll ns todo' ps' w'
      end
  end.

(** A call of an asynchronous function by [buildAssets]: the function runs
    to its first [await]; the value is the place of its promise. *)
Definition start (t : Task unit) : Main nat :=
  fun s =>
    let (p, w') := t (world s) in
    (Ok (List.length (started s)),
     {| started := started s ++ [p]; world := w'; schedule := schedule s |}).

(** [await promise]: the pending functions take the turns of the next
    chunk of the schedule, then the function behind the promise takes the
    turns it still needs; a rejected promise throws. *)
Definition awaitPromise (i : nat) : Main unit :=
  fun s =>
    let (ps1, w1) := turns (hd [] (schedule s)) (started s) (world s) in
    let (ps2, w2) := finish i ps1 w1 in
    (match rejection [i] ps2 with Some e => Throw e | None => Ok tt end,
     {| started := ps2; world := w2; schedule := tl (schedule s) |}).

(** [await Promise.all(promises)]: the pending functions take the turns
    of the next chunk of the schedule, then those behind [promises] take
    the turns they still need, until all have returned or one is
    rejected, which throws. *)
Definition awaitAll (ns : list nat) : Main unit :=
  fun s =>
    let (ps1, w1) := turns (hd [] (schedule s)) (started s) (world s) in
    let (ps2, w2) := finishAll ns ns ps1 w1 in
    (match rejection ns ps2 with Some e => Throw e | None => Ok tt end,
     {| started := ps2; world := w2; schedule := tl (schedule s) |}).

Local Open Scope main_scope.

(** [await f(...)]. *)
Definition awaitNew (t : Task unit) : Main unit :=
  p <- start t ;; awaitPromise p.

(** [for (const x of l) promises.push(f(x))]: the promises pushed. *)
Fixpoint startEach {A} (l : list A) (f : A -> Task unit) : Main (list nat) :=
  match l with
  | [] => mret []
  | x :: l' => p <- start (f x) ;; ps <- startEach l' f ;; mret (p :: ps)
  end.

(** ** The driver *)

Definition stepFunctions : Options :=
  {| locales := None; env := None; name := Some (str "StepFunctions"); translate := None |}.

(** The loop over the top-level TypeScript files; its value is what it
    has pushed to [promises]. *)
Fixpoint topLevelScripts (E : Env) (minify watch : bool) (l : list AssetFile)
    : Main (list nat) :=
  match l with
  | [] => mret []
  | a :: l' =>
      if endsWith (str ".d.ts") (src a) then topLevelScripts E minify watch l'
      else
        p <- start (tcatch (Tasks.bundleScripts E (src a) (dest a) minify watch noOptions)
                           (error (src a))) ;;
        ps <- topLevelScripts E minify watch l' ;;
        mret (p :: ps)
  end.

(** The loop over the courses and, inside it, over the locales. *)
Definition courseStage (E : Env) (watch : bool) (courses ls : list jstring)
    : Main unit :=
  mforEach courses (fun id =>
    mforEach ls (fun locale =>
      awaitNew (tcatch (Tasks.bundleMarkdown E id locale ls watch (CONTENT E))
                       (error (courseLabel id locale))))).

Definition buildAssets (E : Env) (minify watch : bool) (ls : list jstring)
    : Main unit :=
  (* SVG Icons need to be built BEFORE TS files, so that iconsPath is set. *)
  awaitNew (tcatch (Tasks.bundleIcons E) (error (str "icons.svg"))) ;;
  (* Top-level TypeScript files *)
  scripts <- topLevelScripts E minify watch (getAssetFiles E (str "*.ts")) ;;
  (* what is pushed for the polyfill is the value of the [await], no promise *)
  awaitNew (tcatch (Tasks.createPolyfill E) (error (str "polyfill.js"))) ;;
  (* Top-level SCSS files *)
  styles <- startEach (getAssetFiles E (str "*.scss")) (fun a =>
    tcatch (Tasks.bundleStyles E (src a) (dest a) minify watch) (error (src a))) ;;
  (* Course TypeScript Files *)
  courseScripts <-
    startEach (findFiles E (str "!(shared|_*)/*.ts") (CONTENT E) (OUTPUT E ++ str "/content"))
      (fun a => tcatch (Tasks.bundleScripts E (fst a) (snd a) minify watch stepFunctions)
                       (error (fst a))) ;;
  (* Course SCSS Files *)
  courseStyles <-
    startEach (findFiles E (str "!(shared|_*)/*.scss") (CONTENT E) (OUTPUT E ++ str "/content"))
      (fun a => tcatch (Tasks.bundleStyles E (fst a) (snd a) minify watch) (error (fst a))) ;;
  awaitAll (scripts ++ styles ++ courseScripts ++ courseStyles) ;;
  (* Course Markdown and YAML files *)
  (* We run all course scripts in series, to avoid memory issues with large repositories. *)
  courseStage E watch (glob_sync E (str "!(shared|_*|*.*)") (CONTENT E)) ls ;;
  (* Generate the sitemap after all other assets have been compiled *)
  awaitNew (tcatch (Tasks.createSitemap E []) (error (str "sitemap.xml"))).

(** A call of [buildAssets] in a process where nothing else is pending:
    its result and the state when it returns. *)
Definition run {A} (m : Main A) (sched : list (list nat)) (w : World) : Result A * World :=
  let (r, s) := m {| started := []; world := w; schedule := sched |} in (r, world s).

Local Close Scope main_scope.

(** ** Watch mode *)

(** What a change event runs for one registration: its rebuild function. *)
Definition runRebuild (E : Env) (r : Rebuild) : Async unit :=
  match r with
  | RebuildStyles srcPath destPath minify =>
      bundleStyles E srcPath destPath minify false
  | RebuildScripts srcPath destPath minify options =>
      bundleScripts E srcPath destPath minify false options
  | RebuildMarkdown id locale allLocales base =>
      bundleMarkdown E id locale allLocales false base
  end.

(** ** Notions the properties are stated with *)

(** Equality of strings is decidable. *)
Definition jstring_dec : forall a b : jstring, {a = b} + {a <> b} :=
  list_eq_dec ascii_dec.

(** The state after one more event. *)
Definition logged (w : World) (e : Event) : World :=
  {| iconsPath := iconsPath w; COURSE_URLS := COURSE_URLS w;
     watching := watching w; trace := trace w ++ [e] |}.

(** The state with the same published values and nothing registered or
    traced yet. *)
Definition bare (w : World) : World :=
  {| iconsPath := iconsPath w; COURSE_URLS := COURSE_URLS w;
     watching := []; trace := [] |}.

(** The kind of an event and the file or unit it names. *)
Definition eventLabel (ev : Event) : jstring * jstring :=
  match ev with
  | EWrite d _ => (str "write", d)
  | ESuccess i => (str "success", i)
  | EError i _ => (str "error", i)
  | EParse d _ => (str "parse", d)
  | EWriteCache => (str "cache", [])
  end.

(** The destinations of the files written, oldest first. *)
Fixpoint writtenFiles (t : list Event) : list jstring :=
  match t with
  | [] => []
  | EWrite d _ :: t' => d :: writtenFiles t'
  | _ :: t' => writtenFiles t'
  end.

(** Whether an event is a call of the document transform. *)
Definition isParse (e : Event) : bool :=
  match e with EParse _ _ => true | _ => false end.

Definition notParse (e : Event) : bool := negb (isParse e).

(** Whether an event is not an error, or is an error logged under [id]. *)
Definition errorNamed (id : jstring) (ev : Event) : bool :=
  match ev with
  | EError i _ => JS.eqb i id
  | _ => true
  end.

(** *** The overlay resolver *)

(** The entries of the resolved list whose canonical name is [n]. *)
Definition entriesNamed (E : Env) (pattern n : jstring) : list AssetFile :=
  filter (fun a => JS.eqb (basename (src a)) n) (getAssetFiles E pattern).

(** The matches under the studio root, before the override filter. *)
Definition studioMatches (E : Env) (pattern : jstring) : list jstring :=
  map (fun c => Path.join (STUDIO_ASSETS E) c)
      (glob_sync E (expandPattern pattern) (STUDIO_ASSETS E)).

(** A text without a slash, and one without a dot. *)
Definition slashFree (s : jstring) : bool := forallb Path.notSlash s.
Definition dotFree (s : jstring) : bool := forallb Path.notDot s.

(** A prefix that a file name can follow: empty, or ending in a slash. *)
Definition directoryPrefix (pre : jstring) : bool :=
  match rev pre with
  | [] => true
  | c :: _ => Path.isSlash c
  end.

(** A path segment that [path.normalize] keeps as it is: not empty and
    neither [.] nor [..]. *)
Definition plainSegment (seg : jstring) : bool :=
  negb (JS.eqb seg [] || JS.eqb seg (str ".") || JS.eqb seg (str "..")).

(** A relative path in normal form, as [glob.sync] returns them, and an
    absolute one, as the roots are. *)
Definition cleanRelative (p : jstring) : bool :=
  forallb plainSegment (split Path.sep p).

Definition cleanAbsolute (p : jstring) : bool :=
  match p with
  | c :: q => Path.isSlash c && cleanRelative q
  | [] => false
  end.

(** *** Scripts *)



(** The naming rule read literally: [.locale] put immediately before the
    extension of the destination. *)
Definition suffixedBeforeExtension (destPath locale : jstring) : jstring :=
  let ext := Path.extname destPath in
  firstn (List.length destPath - List.length ext) destPath ++ str "." ++ locale ++ ext.

(** Options that ask for the given locales. *)
Definition forLocales (ls : list jstring) : Options :=
  {| locales := Some ls; env := None; name := None; translate := None |}.

(** *** The stages of a build and their events *)

(** The icon stage, awaited while nothing else runs (as [buildAssets]
    awaits it: no function is pending yet). *)
Definition iconStage (E : Env) : Async unit :=
  catch (bundleIcons E) (error (str "icons.svg")).

(** The unit-level tasks of the concurrent stages of [buildAssets]. *)
Inductive Unit : Type :=
| UScript (srcPath destPath : jstring) (options : Options)
| UPolyfill
| UStyle (srcPath destPath : jstring).

(** The identity a failure of the unit is logged under. *)
Definition unitId (u : Unit) : jstring :=
  match u with
  | UScript srcPath _ _ => srcPath
  | UPolyfill => str "polyfill.js"
  | UStyle srcPath _ => srcPath
  end.

Definition runUnit (E : Env) (minify watch : bool) (u : Unit) : Async unit :=
  match u with
  | UScript srcPath destPath options => bundleScripts E srcPath destPath minify watch options
  | UPolyfill => createPolyfill E
  | UStyle srcPath destPath => bundleStyles E srcPath destPath minify watch
  end.

(** The unit with its handler, [f(...).catch(error(id))], awaited while
    nothing else runs. *)
Definition guarded (E : Env) (minify watch : bool) (u : Unit) : Async unit :=
  catch (runUnit E minify watch u) (error (unitId u)).

(** The units started between the icon stage and [Promise.all], in the
    order in which they are started. *)
Definition concurrentUnits (E : Env) : list Unit :=
  map (fun a => UScript (src a) (dest a) noOptions)
      (filter (fun a => negb (endsWith (str ".d.ts") (src a)))
              (getAssetFiles E (str "*.ts")))
  ++ [UPolyfill]
  ++ map (fun a => UStyle (src a) (dest a)) (getAssetFiles E (str "*.scss"))
  ++ map (fun a => UScript (fst a) (snd a) stepFunctions)
         (findFiles E (str "!(shared|_*)/*.ts") (CONTENT E) (OUTPUT E ++ str "/content"))
  ++ map (fun a => UStyle (fst a) (snd a))
         (findFiles E (str "!(shared|_*)/*.scss") (CONTENT E) (OUTPUT E ++ str "/content")).

(** The events of a guarded unit that runs alone, from a state with the
    published values of [w] and an empty trace. *)
Definition unitEvents (E : Env) (minify watch : bool) (w : World) (u : Unit)
    : list Event :=
  trace (snd (guarded E minify watch u (bare w))).

(** The courses [buildAssets] enumerates. *)
Definition coursesOf (E : Env) : list jstring :=
  glob_sync E (str "!(shared|_*|*.*)") (CONTENT E).

(** The events of one course build: the call of the document transform,
    then what follows from its answer. *)
Definition courseEvents (E : Env) (id locale : jstring) (ls : list jstring)
    : list Event :=
  let dir := Path.join (CONTENT E) id in
  let dest := Path.join4 (OUTPUT E) (str "content") id
                (str "data_" ++ locale ++ str ".json") in
  EParse dir locale ::
  match fst (parseCourse E dir locale ls) with
  | Throw e => [EError (courseLabel id locale) e]
  | Ok None => []
  | Ok (Some data) =>
      match course data with
      | None => []
      | Some json =>
          match fsWrite E dest json with
          | Ok _ => [EWrite dest json; EWriteCache; ESuccess (courseLabel id locale)]
          | Throw e => [EError (courseLabel id locale) e]
          end
      end
  end.

(** The events of the whole course stage: course by course, and for each
    course locale by locale. *)
Definition courseStageEvents (E : Env) (courses ls : list jstring) : list Event :=
  List.concat (map (fun id => List.concat (map (fun l => courseEvents E id l ls) ls)) courses).

(** The calls of the document transform that the course stage makes, in
    order: for each course, for each locale. *)
Definition parseCalls (E : Env) (courses ls : list jstring) : list Event :=
  List.concat (map (fun id => map (fun l => EParse (Path.join (CONTENT E) id) l) ls)
                   courses).

(** The event of the sitemap stage when the course URLs are [urls]. *)
Definition sitemapEvent (E : Env) (urls : list jstring) : Event :=
  let dest := Path.join (OUTPUT E) (str "sitemap.xml") in
  match fsWrite E dest (sitemapDocument E urls []) with
  | Ok _ => EWrite dest (sitemapDocument E urls [])
  | Throw e => EError (str "sitemap.xml") e
  end.

(** *** What a computation leaves unchanged *)

(** A computation preserves [R] when [R] relates the state before it to the
    state after it, whatever its result. *)
Definition preserves (R : World -> World -> Prop) {A} (m : Async A) : Prop :=
  forall w, R w (snd (m w)).

(** Nothing at all changes. *)
Definition unchanged (w w' : World) : Prop := w' = w.

(** The registrations are the same after as before. *)
Definition sameWatching (w w' : World) : Prop := watching w' = watching w.

(** The published icon path is the same after as before. *)
Definition sameIcons (w w' : World) : Prop := iconsPath w' = iconsPath w.

(** The trace grows, and by no call of the document transform. *)
Definition quiet (w w' : World) : Prop :=
  exists added, trace w' = trace w ++ added /\ forallb notParse added = true.

(** A computation is local when its result and the values it publishes
    depend only on the published values it starts from, and when it only
    appends to the registrations and to the trace: run from any state, it
    adds what it adds when run from the bare state. *)
Definition local {A} (m : Async A) : Prop :=
  forall w,
    fst (m w) = fst (m (bare w))
    /\ bare (snd (m w)) = bare (snd (m (bare w)))
    /\ watching (snd (m w)) = watching w ++ watching (snd (m (bare w)))
    /\ trace (snd (m w)) = trace w ++ trace (snd (m (bare w))).

(** *** Promises and turns *)

(** [Q] holds of what is left of the function at every [await] at which
    it can be suspended. *)
Fixpoint hereditarily {A} (Q : Task A -> Prop) (p : Promise A) : Prop :=
  match p with
  | Done _ => True
  | Pending k => Q k /\ forall w, hereditarily Q (fst (k w))
  end.

(** Every turn of the function relates the state before it to the state
    after it by [R]. *)
Definition keeps (R : World -> World -> Prop) {A} (p : Promise A) : Prop :=
  hereditarily (fun k => forall w, R w (snd (k w))) p.

(** The published values stay and the trace grows. *)
Definition calm (w w' : World) : Prop :=
  bare w' = bare w /\ exists added, trace w' = trace w ++ added.

(** A function that can take its turns among others: no turn changes a
    published value, and what the function does from any of its awaits on
    depends only on the published values. *)
Definition tame {A} (p : Promise A) : Prop :=
  keeps calm p /\ hereditarily (fun k => local (alone k)) p.

(** The promise is never rejected. *)
Fixpoint resolves {A} (p : Promise A) : Prop :=
  match p with
  | Done (Ok _) => True
  | Done (Throw _) => False
  | Pending k => forall w, resolves (fst (k w))
  end.

(** The events that the function still adds, when it takes all its turns
    from the published values of [b]. *)
Definition remaining {A} (p : Promise A) (b : World) : list Event :=
  trace (snd (settle p (bare b))).

(** The events of a call awaited alone, from the published values of [b]. *)
Definition expected {A} (t : Task A) (b : World) : list Event :=
  trace (snd (alone t (bare b))).

Definition isDone {A} (p : Promise A) : bool :=
  match p with Done _ => true | Pending _ => false end.

(** [t] is a merge of the lists [ls]: it holds the elements of each list,
    in the order of that list, and nothing else. *)
Inductive Merge {A} : list (list A) -> list A -> Prop :=
| Merge_nil : forall ls, Forall (fun l => l = []) ls -> Merge ls []
| Merge_cons : forall ls1 x l ls2 t,
    Merge (ls1 ++ l :: ls2) t -> Merge (ls1 ++ (x :: l) :: ls2) (x :: t).

(** What has been added to the trace and what the pending functions still
    add make up, merged, the lists [EL]. *)
Definition accounted (EL : list (list Event)) (added : list Event)
    (ps : list (Promise unit)) (b : World) : Prop :=
  forall extra L,
    Merge (map (fun p => remaining p b) ps ++ extra) L -> Merge (EL ++ extra) (added ++ L).

(** The promises that are still pending are among those at the places [P]. *)
Definition pendingIn (P : list nat) (ps : list (Promise unit)) : Prop :=
  forall i p, nth_error ps i = Some p -> isDone p = true \/ In i P.

(** The state of the loop while functions take turns: every function is
    tame and its promise is never rejected, the published values are those
    of [b], and the trace is [t0] and what was added since. *)
Definition taking_turns (EL : list (list Event)) (t0 : list Event) (b : World)
    (P : list nat) (ps : list (Promise unit)) (w : World) : Prop :=
  Forall tame ps /\ Forall resolves ps /\ bare w = bare b /\ pendingIn P ps
  /\ exists added, trace w = t0 ++ added /\ accounted EL added ps b.

(** The task of a unit as [buildAssets] starts it: [f(...).catch(error(id))]. *)
Definition unitTask (E : Env) (minify watch : bool) (u : Unit) : Task unit :=
  tcatch match u with
         | UScript srcPath destPath options =>
             Tasks.bundleScripts E srcPath destPath minify watch options
         | UPolyfill => Tasks.createPolyfill E
         | UStyle srcPath destPath => Tasks.bundleStyles E srcPath destPath minify watch
         end
         (error (unitId u)).

(** The state of the loop as a whole. *)
Definition turning (EL : list (list Event)) (t0 : list Event) (b : World)
    (P : list nat) (s : Loop) : Prop :=
  taking_turns EL t0 b P (started s) (world s).

(** The code of [buildAssets] keeps [R]: from a loop in which every turn
    of every function keeps [R], it reaches a state that [R] relates to
    the one it started from, and every turn of every function of the
    loop, those it has started included, still keeps [R]. *)
Definition loopKeeps (R : World -> World -> Prop) {A} (m : Main A) : Prop :=
  forall s,
    Forall (keeps R) (started s) ->
    R (world s) (world (snd (m s))) /\ Forall (keeps R) (started (snd (m s))).

(** ** Sample projects *)

(** A small project to run the pipeline on: one script and one icon in the
    project root, every tool succeeds. *)
Module Sample.

Definition config : Config :=
  {| banner := str "Demo"; domain := str "example.org"; sitemap := [str "/about"] |}.

Definition project : jstring := str "/project/frontend".
Definition studio : jstring := str "/studio/frontend".

Definition glob (pattern root : jstring) : list jstring :=
  if JS.eqb pattern (str "{*,*/index}.ts") && JS.eqb root project then [str "app.ts"]
  else if JS.eqb pattern (str "assets/icons/{*,*/index}.svg") && JS.eqb root project
  then [str "assets/icons/star.svg"]
  else [].

(** The text esbuild returns for [app.ts]: it names the sprite twice. *)
Definition appBundle : jstring :=
  str "load('/icons.svg#star');load('/icons.svg#moon');".

Definition E : Env :=
  {| CONFIG := config;
     STUDIO_ASSETS := studio;
     PROJECT_ASSETS := project;
     CONTENT := str "/project/content";
     OUTPUT := str "/out";
     dirname__ := str "/studio/build";
     cwd := str "/project";
     glob_sync := glob;
     findFiles := fun _ _ _ => [];
     readFile := fun _ => Ok (str "<svg ><path/></svg>");
     fsWrite := fun _ _ => Ok tt;
     existsSync := fun _ => false;
     textHash := fun _ => str "0123456789abcdef";
     esbuild_build := fun _ => Ok {| outputText := appBundle; metafileInputs := None |};
     sass_renderSync := fun s _ => Ok {| css := str "a{}"; includedFiles := [s] |};
     postcss_process := fun _ _ c => Ok c;
     parseCourse := fun _ _ _ => (Ok None, []) |}.

End Sample.

(** An environment that differs from [E] in its configuration, in what is
    on disk, or in what a tool answers. *)
Definition variant (E : Env) (config : Config)
    (g : jstring -> jstring -> list jstring)
    (read : jstring -> Result jstring)
    (sass : jstring -> list jstring -> Result SassResult)
    (parse : jstring -> jstring -> list jstring -> Result (option CourseData) * list jstring)
    : Env :=
  {| CONFIG := config;
     STUDIO_ASSETS := STUDIO_ASSETS E;
     PROJECT_ASSETS := PROJECT_ASSETS E;
     CONTENT := CONTENT E;
     OUTPUT := OUTPUT E;
     dirname__ := dirname__ E;
     cwd := cwd E;
     glob_sync := g;
     findFiles := findFiles E;
     readFile := read;
     fsWrite := fsWrite E;
     existsSync := existsSync E;
     textHash := textHash E;
     esbuild_build := esbuild_build E;
     sass_renderSync := sass;
     postcss_process := postcss_process E;
     parseCourse := parse |}.

Definition withConfig (E : Env) (config : Config) : Env :=
  variant E config (glob_sync E) (readFile E) (sass_renderSync E) (parseCourse E).

Definition withGlob (E : Env) (g : jstring -> jstring -> list jstring) : Env :=
  variant E (CONFIG E) g (readFile E) (sass_renderSync E) (parseCourse E).

Definition withReadFile (E : Env) (read : jstring -> Result jstring) : Env :=
  variant E (CONFIG E) (glob_sync E) read (sass_renderSync E) (parseCourse E).

Definition withSass (E : Env) (sass : jstring -> list jstring -> Result SassResult) : Env :=
  variant E (CONFIG E) (glob_sync E) (readFile E) sass (parseCourse E).

(** The sample project after an import was added to [main.scss]: the
    stylesheet now pulls in a second file. *)
Module Edited.

Definition main : jstring := str "/project/frontend/main.scss".
Definition theme : jstring := str "/project/frontend/_theme.scss".

Definition E : Env :=
  withSass Sample.E (fun s _ => Ok {| css := str "a{}"; includedFiles := [s; theme] |}).

End Edited.

(** The sample project with an icon that cannot be read. *)
Module Unreadable.

Definition E : Env := withReadFile Sample.E (fun _ => Throw (str "ENOENT")).

End Unreadable.

(** The sample project with the root path also listed in the configured
    sitemap URLs. *)
Module RootListed.

Definition E : Env :=
  withConfig Sample.E
    {| banner := str "Demo"; domain := str "example.org"; sitemap := [str "/"] |}.

End RootListed.

(** Two roots that both have a [sidebar] script, the project as a
    directory with an index file and the studio as a flat file. *)
Module Overlay.

Definition glob (pattern root : jstring) : list jstring :=
  if JS.eqb pattern (str "{*,*/index}.ts") then
    if JS.eqb root Sample.project then [str "app.ts"; str "sidebar/index.ts"]
    else if JS.eqb root Sample.studio then [str "course.ts"; str "sidebar.ts"]
    else []
  else [].

Definition E : Env := withGlob Sample.E glob.

End Overlay.

(** A project root that has [foo] both as a flat file and as a directory
    with an index file, over a studio root with the flat file. *)
Module TwoForms.

Definition glob (pattern root : jstring) : list jstring :=
  if JS.eqb pattern (str "{*,*/index}.ts") then
    if JS.eqb root Sample.project then [str "foo.ts"; str "foo/index.ts"]
    else if JS.eqb root Sample.studio then [str "foo.ts"]
    else []
  else [].

Definition E : Env := withGlob Sample.E glob.

End TwoForms.

(** A project root with the directory [index] holding an index file, over
    a studio root with the flat file [index.ts]. *)
Module IndexNamed.

Definition glob (pattern root : jstring) : list jstring :=
  if JS.eqb pattern (str "{*,*/index}.ts") then
    if JS.eqb root Sample.project then [str "index/index.ts"]
    else if JS.eqb root Sample.studio then [str "index.ts"]
    else []
  else [].

Definition E : Env := withGlob Sample.E glob.

End IndexNamed.

(** A project where the stylesheet does not compile and the course does
    not parse, while the script, the icons and the polyfill build. *)
Module Failing.

Definition glob (pattern root : jstring) : list jstring :=
  if JS.eqb pattern (str "{*,*/index}.scss") && JS.eqb root Sample.project
  then [str "main.scss"]
  else if JS.eqb pattern (str "!(shared|_*|*.*)") then [str "algebra"]
  else Sample.glob pattern root.

Definition E : Env :=
  variant Sample.E Sample.config glob (readFile Sample.E)
    (fun _ _ => Throw (str "Undefined variable"))
    (fun _ _ _ => (Throw (str "YAMLException"), [])).

End Failing.

(** ** Further notions: styles, scripts, polyfill *)

(** The last step of [scriptText]: "Replace localisation strings." *)
Definition localise (options : Options) (locale text : jstring) : jstring :=
  Regex.replaceAll (Regex.localisationKey (translated options locale)) 0 text.

(** The destination of the mirrored stylesheet. *)
Definition rtlDest (destPath : jstring) : jstring :=
  replace (str ".css") (str ".rtl.css") destPath.

(** The registration a stylesheet build makes in watch mode. *)
Definition styleRegistration (srcPath destPath : jstring) (minify : bool)
    (output : SassResult) : Registration :=
  {| files := includedFiles output;
     rebuildFn := RebuildStyles srcPath (cssDest destPath) minify |}.

(** The files a script build watches, from the keys of [metafile.inputs]. *)
Definition watchedInputs (E : Env) (keys : list jstring) : list jstring :=
  map (fun f => Path.join (cwd E) f)
      (filter (fun f => negb (startsWith (str "node_modules") f)) keys).

(** The registration a script build makes in watch mode. *)
Definition scriptRegistration (E : Env) (srcPath destPath : jstring) (minify : bool)
    (options : Options) (keys : list jstring) : Registration :=
  {| files := watchedInputs E keys;
     rebuildFn := RebuildScripts srcPath (jsDest destPath) minify options |}.


(** The comment that names a source map. *)
Definition sourceMapComment (url : jstring) : jstring :=
  Regex.newline :: str "//# sourceMappingURL=" ++ url.

(** A text of one line. *)
Definition oneLine (s : jstring) : bool :=
  forallb (fun c => negb (Regex.isLineTerminator c)) s.

(** The two files [createPolyfill] reads. *)
Definition polyfillSource1 (E : Env) : jstring :=
  Path.join (dirname__ E) (str "../node_modules")
  ++ str "/web-animations-js/web-animations.min.js".

Definition polyfillSource2 (E : Env) : jstring :=
  Path.join (dirname__ E) (str "../node_modules")
  ++ str "/@webcomponents/custom-elements/custom-elements.min.js".

(** The state with other registrations and another trace. *)
Definition withLogs (w : World) (regs : list Registration) (t : list Event) : World :=
  {| iconsPath := iconsPath w; COURSE_URLS := COURSE_URLS w;
     watching := regs; trace := t |}.

(** The state with another published icon path. *)
Definition withIcons (w : World) (p : jstring) : World :=
  {| iconsPath := p; COURSE_URLS := COURSE_URLS w;
     watching := watching w; trace := trace w |}.

(** ** Safe-area variables *)

Definition SAFE_AREA_VARS : list jstring :=
  [str "safe-area-inset-top"; str "safe-area-inset-bottom";
   str "safe-area-inset-left"; str "safe-area-inset-right"].

(** The alternation of the four names: the rest after the first name that
    the text starts with. *)
Fixpoint stripAny (names : list jstring) (s : jstring) : option jstring :=
  match names with
  | [] => None
  | n :: names' =>
      match stripPrefix n s with
      | Some r => Some r
      | None => stripAny names' s
      end
  end.

Definition notParen (c : ascii) : bool := negb (Ascii.eqb c ")").

(** [SAFE_AREA_EXPR] at the start of [s], with the callback
    [(_, param, value) => value || '0'].  After the name, white space, an
    optional comma and white space are passed over; the value is all that
    follows up to the closing parenthesis, which has to be there. *)
Definition safeAreaExpr (s : jstring) : option (nat * jstring) :=
  match stripPrefix (str "env(") s with
  | Some r0 =>
      match stripAny SAFE_AREA_VARS (dropWhile isSpace r0) with
      | Some r1 =>
          let r2 := dropWhile isSpace r1 in
          let r3 := match r2 with
                    | c :: t => if Ascii.eqb c "," then t else r2
                    | [] => r2
                    end in
          let r4 := dropWhile isSpace r3 in
          let value := takeWhile notParen r4 in
          match dropWhile notParen r4 with
          | _ :: rest =>
              Some (List.length s - List.length rest,
                    match value with [] => str "0" | _ => value end)
          | [] => None
          end
      | None => None
      end
  | None => None
  end.

(** [safeAreaCSS.Declaration(decl)], as a function of [decl.value]: the
    value of the declaration cloned before [decl], if one is. *)
Definition safeAreaDeclaration (value : jstring) : option jstring :=
  let v1 := Regex.replaceAll safeAreaExpr 0 value in
  if JS.eqb v1 value then None else Some v1.

(** The text of a stylesheet file: the banner line, then the CSS. *)
Definition styleFile (E : Env) (transformed : jstring) : jstring :=
  (bannerComment E ++ [Regex.newline]) ++ transformed.

(** A project whose polyfill sources are one line each, with a source-map
    comment at the end. *)
Module Minified.

Definition read (p : jstring) : Result jstring :=
  if JS.eqb p (polyfillSource1 Sample.E)
  then Ok (str "animate()" ++ sourceMapComment (str "web-animations.min.js.map"))
  else if JS.eqb p (polyfillSource2 Sample.E)
  then Ok (str "define()" ++ sourceMapComment (str "custom-elements.min.js.map"))
  else Throw (str "ENOENT").

Definition E : Env := withReadFile Sample.E read.

End Minified.

(** An environment that differs from [E] in what esbuild and postcss
    answer and in which writes succeed. *)
Definition variantTools (E : Env)
    (esbuild : EsbuildRequest -> Result EsbuildResult)
    (postcss : bool -> bool -> jstring -> Result jstring)
    (write : jstring -> jstring -> Result unit) : Env :=
  {| CONFIG := CONFIG E;
     STUDIO_ASSETS := STUDIO_ASSETS E;
     PROJECT_ASSETS := PROJECT_ASSETS E;
     CONTENT := CONTENT E;
     OUTPUT := OUTPUT E;
     dirname__ := dirname__ E;
     cwd := cwd E;
     glob_sync := glob_sync E;
     findFiles := findFiles E;
     readFile := readFile E;
     fsWrite := write;
     existsSync := existsSync E;
     textHash := textHash E;
     esbuild_build := esbuild;
     sass_renderSync := sass_renderSync E;
     postcss_process := postcss;
     parseCourse := parseCourse E |}.

(** The sample project with a mirroring pass that fails. *)
Module RtlFails.

Definition E : Env :=
  variantTools Sample.E (esbuild_build Sample.E)
    (fun rtl _ c => if rtl then Throw (str "rtlcss: unexpected token") else Ok c)
    (fsWrite Sample.E).

End RtlFails.

(** The sample project on a disk that cannot be written. *)
Module ReadOnly.

Definition E : Env :=
  variantTools Sample.E (esbuild_build Sample.E) (postcss_process Sample.E)
    (fun _ _ => Throw (str "EROFS")).

End ReadOnly.

(** The sample project with an esbuild that reports its inputs and fails
    for German. *)
Module Watched.

Definition esbuild (r : EsbuildRequest) : Result EsbuildResult :=
  if JS.eqb (pugTranslate r (str "locale")) (str "de") then Throw (str "Build failed")
  else Ok {| outputText := str "run('" ++ pugTranslate r (str "locale") ++ str "');";
             metafileInputs :=
               if metafile r
               then Some [str "frontend/app.ts"; str "node_modules/vue/dist/vue.js";
                          str "frontend/" ++ pugTranslate r (str "locale") ++ str ".yaml"]
               else None |}.

(** The translation of the key [locale] is the locale itself. *)
Definition options (ls : list jstring) : Options :=
  {| locales := Some ls; env := None; name := None;
     translate := Some (fun locale key =>
                          if JS.eqb key (str "locale") then Some locale else None) |}.

Definition E : Env :=
  variantTools Sample.E esbuild (postcss_process Sample.E) (fsWrite Sample.E).

End Watched.



(** The sample project with an icon that declares the SVG namespace. *)
Module Namespaced.

Definition star : jstring :=
  str "<svg" ++ svgNamespace ++ str " viewBox=" ++ Regex.dquote :: str "0 0 24 24"
  ++ Regex.dquote :: str "><path d=" ++ Regex.dquote :: str "M0 0" ++ Regex.dquote
  :: str "/>" ++ str "</svg>".

Definition E : Env := withReadFile Sample.E (fun _ => Ok star).

End Namespaced.

(** A value that the expression captures as it stands: it holds no closing
    parenthesis and starts neither with white space nor with a comma. *)
Definition plainValue (v : jstring) : bool :=
  forallb notParen v
  && match v with
     | c :: _ => negb (isSpace c) && negb (Ascii.eqb c ",")
     | [] => true
     end.

(** The text [env(name, v)] with the white space [sp1], [sp2] and [sp3]
    around the name and after the comma, which may be left out. *)
Definition envCall (sp1 name sp2 : jstring) (comma : bool) (sp3 v : jstring) : jstring :=
  str "env(" ++ sp1 ++ name ++ sp2 ++ (if comma then str "," else []) ++ sp3 ++ v
  ++ str ")".

(** The sample project with a course that is parsed to data without a
    course object. *)
Module Draft.

Definition data : CourseData :=
  {| course := None; srcFile := str "/project/content/algebra/content.md" |}.

Definition E : Env :=
  variant Sample.E Sample.config Sample.glob (readFile Sample.E)
    (sass_renderSync Sample.E) (fun _ _ _ => (Ok (Some data), [])).

End Draft.

(** * Properties *)

(** ** Strings *)

Lemma eqb_refl (a : jstring) : JS.eqb a a = true.
Proof.
  induction a as [|c a IH]; simpl; [reflexivity|].
  now rewrite Ascii.eqb_refl, IH.
Qed.

Lemma eqb_eq (a b : jstring) : JS.eqb a b = true <-> a = b.
Proof.
  split; [|intros ->; apply eqb_refl].
  revert b; induction a as [|c a IH]; intros [|d b]; simpl; try discriminate; auto.
  intros H; apply andb_true_iff in H as [Hc Hab].
  apply Ascii.eqb_eq in Hc; subst; f_equal; auto.
Qed.

Lemma eqb_neq (a b : jstring) : JS.eqb a b = false <-> a <> b.
Proof.
  split.
  - intros H Heq; apply eqb_eq in Heq; congruence.
  - intros H; destruct (JS.eqb a b) eqn:Heq; [apply eqb_eq in Heq; contradiction|reflexivity].
Qed.

Lemma stripPrefix_app (p r : jstring) : stripPrefix p (p ++ r) = Some r.
Proof.
  induction p as [|c p IH]; simpl; [now destruct r|].
  now rewrite Ascii.eqb_refl.
Qed.

Lemma stripPrefix_Some (p s r : jstring) : stripPrefix p s = Some r -> s = p ++ r.
Proof.
  revert s; induction p as [|c p IH]; intros s; simpl.
  - destruct s; intros [= <-]; reflexivity.
  - destruct s as [|d s]; [discriminate|].
    destruct (Ascii.eqb c d) eqn:Hcd; [|discriminate].
    apply Ascii.eqb_eq in Hcd; subst; intros H; f_equal; auto.
Qed.

Lemma splitFirst_Some (p s a b : jstring) :
  splitFirst p s = Some (a, b) -> s = a ++ p ++ b.
Proof.
  revert a; induction s as [|c s IH]; intros a; simpl.
  - destruct (stripPrefix p []) eqn:Hp; [|discriminate].
    intros [= <- <-]; now apply stripPrefix_Some in Hp.
  - destruct (stripPrefix p (c :: s)) eqn:Hp.
    + intros [= <- <-]; now apply stripPrefix_Some in Hp.
    + destruct (splitFirst p s) as [[a' b']|]; [|discriminate].
      intros [= <- <-]; simpl; f_equal; auto.
Qed.

(** A replacement text without a dollar sign is inserted as it is. *)
Lemma getSubstitution_plain (m a b rep : jstring) :
  ~ In "$"%char rep -> getSubstitution m a b rep = rep.
Proof.
  induction rep as [|c rep IH]; simpl; [reflexivity|]; intros H.
  destruct (Ascii.eqb c "$") eqn:Hc.
  - apply Ascii.eqb_eq in Hc; subst; tauto.
  - f_equal; apply IH; tauto.
Qed.


(** ** What a computation leaves unchanged *)

Section Preservation.

(** [R w w'] relates the state before a computation to the state after
    it; it is a preorder. *)
Variable R : World -> World -> Prop.
Hypothesis R_refl : forall w, R w w.
Hypothesis R_trans : forall w1 w2 w3, R w1 w2 -> R w2 w3 -> R w1 w3.

Lemma preserves_ret {A} (a : A) : preserves R (ret a).
Proof. intros w; apply R_refl. Qed.

Lemma preserves_lift {A} (r : Result A) : preserves R (lift r).
Proof. intros w; apply R_refl. Qed.

Lemma preserves_bind {A B} (m : Async A) (k : A -> Async B) :
  preserves R m -> (forall a, preserves R (k a)) -> preserves R (bind m k).
Proof.
  intros Hm Hk w; unfold bind.
  specialize (Hm w); destruct (m w) as [[a|e] w1]; simpl in *; [|assumption].
  eapply R_trans; [eassumption|apply Hk].
Qed.

Lemma preserves_catch {A} (m : Async A) (h : jstring -> Async A) :
  preserves R m -> (forall e, preserves R (h e)) -> preserves R (catch m h).
Proof.
  intros Hm Hh w; unfold catch.
  specialize (Hm w); destruct (m w) as [[a|e] w1]; simpl in *; [assumption|].
  eapply R_trans; [eassumption|apply Hh].
Qed.

Lemma preserves_forEach {A} (l : list A) (body : A -> Async unit) :
  (forall x, In x l -> preserves R (body x)) -> preserves R (forEach l body).
Proof.
  induction l as [|x l IH]; intros H; simpl.
  - apply preserves_ret.
  - apply preserves_bind; [apply H; now left|].
    intros _; apply IH; intros y Hy; apply H; now right.
Qed.

Lemma preserves_mapM {A B} (f : A -> Async B) (l : list A) :
  (forall x, preserves R (f x)) -> preserves R (mapM f l).
Proof.
  intros H; induction l as [|x l IH]; simpl.
  - apply preserves_ret.
  - apply preserves_bind; [apply H|]; intros y.
    apply preserves_bind; [apply IH|]; intros ys; apply preserves_ret.
Qed.

End Preservation.

Lemma sameWatching_trans w1 w2 w3 :
  sameWatching w1 w2 -> sameWatching w2 w3 -> sameWatching w1 w3.
Proof. unfold sameWatching; congruence. Qed.

Lemma sameIcons_trans w1 w2 w3 : sameIcons w1 w2 -> sameIcons w2 w3 -> sameIcons w1 w3.
Proof. unfold sameIcons; congruence. Qed.

Lemma sameWatching_refl w : sameWatching w w.
Proof. reflexivity. Qed.

Lemma sameIcons_refl w : sameIcons w w.
Proof. reflexivity. Qed.

Create HintDb frame.

#[export] Hint Resolve sameWatching_refl sameWatching_trans sameIcons_refl
  sameIcons_trans : frame.

(** Composite computations are taken apart down to the primitives, which
    change one field each. *)
Ltac frame_step :=
  match goal with
  | |- forall _, _ => intro
  | |- preserves _ (ret _) => apply preserves_ret
  | |- preserves _ (lift _) => apply preserves_lift
  | |- preserves _ (bind _ _) => apply preserves_bind
  | |- preserves _ (catch _ _) => apply preserves_catch
  | |- preserves _ (forEach _ _) => apply preserves_forEach
  | |- preserves _ (mapM _ _) => apply preserves_mapM
  | |- preserves _ (if ?b then _ else _) => destruct b
  | |- preserves _ (match ?x with Some _ => _ | None => _ end) => destruct x
  end; eauto with frame.

Ltac frame := repeat frame_step; try (intros ?; reflexivity).

Lemma bundleStyles_unwatched E srcPath destPath minify :
  preserves sameWatching (bundleStyles E srcPath destPath minify false).
Proof. unfold bundleStyles, success, writeFile; frame. Qed.

Lemma bundleLocales_sameWatching E srcPath destPath minify watch options inputs ls :
  preserves sameWatching (bundleLocales E srcPath destPath minify watch options inputs ls).
Proof.
  revert inputs; induction ls as [|l ls IH]; intros inputs; simpl.
  - frame.
  - unfold writeFile; frame.
Qed.

Lemma bundleScripts_unwatched E srcPath destPath minify options :
  preserves sameWatching (bundleScripts E srcPath destPath minify false options).
Proof.
  unfold bundleScripts, success.
  pose proof (bundleLocales_sameWatching E srcPath (jsDest destPath) minify false options).
  frame.
Qed.

Lemma bundleMarkdown_unwatched E id locale allLocales base :
  preserves sameWatching (bundleMarkdown E id locale allLocales false base).
Proof. unfold bundleMarkdown, parseCourseCall, success, writeFile; frame. Qed.

(** ** Watch mode: what a rebuild registers *)

(** The dependency set that the first build registered for [main.scss] is
    still the registered one after a rebuild that computed a larger set:
    the rebuild does not register the new set. *)
Lemma rebuild_keeps_first_dependencies :
  let out := str "/out/main.scss" in
  let w1 := snd (bundleStyles Sample.E Edited.main out false true initialWorld) in
  let w2 := snd (runRebuild Edited.E (RebuildStyles Edited.main (cssDest out) false) w1) in
  map rebuildFn (watching w1) = [RebuildStyles Edited.main (cssDest out) false]
  /\ sass_renderSync Edited.E Edited.main []
     = Ok {| css := str "a{}"; includedFiles := [Edited.main; Edited.theme] |}
  /\ map files (watching w2) = [[Edited.main]]
  /\ map files (watching w2) <> [[Edited.main; Edited.theme]].
Proof. vm_compute; repeat split; discriminate. Qed.

(** C3, as the code has it: a rebuild started by a change event runs the
    unit's build function with watching switched off, so it registers
    nothing: the rebuilt unit keeps the registration of its first build, and
    the registrations of every other unit are unchanged. *)
Theorem rebuild_registers_nothing (E : Env) (r : Rebuild) (w : World) :
  watching (snd (runRebuild E r w)) = watching w.
Proof.
  destruct r; simpl.
  - apply bundleStyles_unwatched.
  - apply bundleScripts_unwatched.
  - apply bundleMarkdown_unwatched.
Qed.

(** ** The sitemap *)

Lemma join_nil_concat (l : list jstring) : JS.join [] l = List.concat l.
Proof.
  induction l as [|x [|y l] IH]; simpl in *; [reflexivity| now rewrite app_nil_r |].
  now rewrite IH.
Qed.

(** With the root path among the configured URLs the sitemap lists the
    root twice: URLs that several sources share are not merged. *)
Lemma sitemap_repeats_shared_url :
  sitemapUrls RootListed.E [] [] = [str "/"; str "/"]
  /\ ~ NoDup (sitemapUrls RootListed.E [] [])
  /\ count_occ jstring_dec (sitemapUrls RootListed.E [] []) (str "/") = 2
  /\ sitemapDocument RootListed.E [] []
     = sitemapHeader ++ sitemapEntry RootListed.E (str "/")
       ++ sitemapEntry RootListed.E (str "/") ++ str "</urlset>".
Proof.
  split; [reflexivity|]. split; [|split; reflexivity].
  intros H; inversion H as [|x l Hin _]; subst.
  apply Hin; now left.
Qed.

(** C7, as the code has it: the sitemap is one URL-set document whose
    entries are, in this order, the root path, the course URLs collected so
    far, the configured URLs and the caller's URLs, one entry per listed URL
    (a URL listed by several sources, or several times by one, has as many
    entries), each entry with the same change frequency and priority. *)
Theorem sitemap_lists_every_source (E : Env) (URLs : list jstring) (w : World) :
  sitemapDocument E (COURSE_URLS w) URLs
  = sitemapHeader
    ++ List.concat (map (sitemapEntry E)
                   (str "/" :: COURSE_URLS w ++ sitemap (CONFIG E) ++ URLs))
    ++ str "</urlset>"
  /\ (forall u,
        sitemapEntry E u
        = str "<url><loc>https://" ++ domain (CONFIG E) ++ u ++ str "</loc>"
          ++ str "<changefreq>weekly</changefreq><priority>1.0</priority>" ++ str "</url>")
  /\ (forall u,
        In u (sitemapUrls E (COURSE_URLS w) URLs)
        <-> u = str "/" \/ In u (COURSE_URLS w) \/ In u (sitemap (CONFIG E)) \/ In u URLs)
  /\ (forall u,
        count_occ jstring_dec (sitemapUrls E (COURSE_URLS w) URLs) u
        = count_occ jstring_dec [str "/"] u
          + count_occ jstring_dec (COURSE_URLS w) u
          + count_occ jstring_dec (sitemap (CONFIG E)) u
          + count_occ jstring_dec URLs u)
  /\ snd (createSitemap E URLs w)
     = match fsWrite E (Path.join (OUTPUT E) (str "sitemap.xml"))
                     (sitemapDocument E (COURSE_URLS w) URLs) with
       | Ok _ => logged w (EWrite (Path.join (OUTPUT E) (str "sitemap.xml"))
                                  (sitemapDocument E (COURSE_URLS w) URLs))
       | Throw _ => w
       end.
Proof.
  split; [|split; [|split; [|split]]].
  - unfold sitemapDocument; now rewrite join_nil_concat.
  - reflexivity.
  - intros u; unfold sitemapUrls; rewrite !in_app_iff; simpl.
    split; [intros [[H|[]]|H]; auto | intros [H|H]; auto].
  - intros u; unfold sitemapUrls; rewrite !count_occ_app; lia.
  - unfold createSitemap, writeFile, bind, lift, emit.
    now destruct (fsWrite E _ _) as [[]|e].
Qed.

(** ** The overlay resolver *)

Lemma arrayIncludes_In (l : list jstring) (x : jstring) :
  arrayIncludes l x = true <-> In x l.
Proof.
  unfold arrayIncludes; rewrite existsb_exists; split.
  - intros (y & Hy & Heq); apply eqb_eq in Heq; now subst.
  - intros H; exists x; split; [assumption|apply eqb_refl].
Qed.

Lemma filter_none {A} (f : A -> bool) (l : list A) :
  (forall x, In x l -> f x = false) -> filter f l = [].
Proof.
  induction l as [|x l IH]; intros H; simpl; [reflexivity|].
  rewrite (H x) by now left. apply IH; intros y Hy; apply H; now right.
Qed.

Lemma map_filter_src (f : jstring -> bool) (mk : jstring -> AssetFile) (l : list jstring) :
  (forall s, src (mk s) = s) ->
  map src (filter (fun a => f (src a)) (map mk l)) = filter f l.
Proof.
  intros Hmk; induction l as [|s l IH]; simpl; [reflexivity|].
  rewrite Hmk; destruct (f s); simpl; now rewrite ?Hmk, IH.
Qed.

(** A studio file that survives the filter has a canonical name that no
    project file has. *)
Lemma studioFilesOf_not_overridden E pattern p :
  In p (studioFilesOf E pattern) ->
  In p (studioMatches E pattern)
  /\ ~ In (basename p) (map basename (projectFilesOf E pattern)).
Proof.
  unfold studioFilesOf; rewrite filter_In; intros [Hin Hf]; split; [assumption|].
  intros H; apply arrayIncludes_In in H; rewrite H in Hf; discriminate.
Qed.

(** A project root with both forms of [foo] yields two entries for the
    canonical name [foo.ts], although the studio root has it as well. *)
Lemma two_entries_for_one_name :
  In (str "foo.ts") (map basename (projectFilesOf TwoForms.E (str "*.ts")))
  /\ In (str "foo.ts") (map basename (studioMatches TwoForms.E (str "*.ts")))
  /\ map src (entriesNamed TwoForms.E (str "*.ts") (str "foo.ts"))
     = [str "/project/frontend/foo.ts"; str "/project/frontend/foo/index.ts"]
  /\ List.length (entriesNamed TwoForms.E (str "*.ts") (str "foo.ts")) <> 1.
Proof. vm_compute; repeat split; auto; discriminate. Qed.

(** C2, as the code has it: when the project root has a file with a
    canonical name, the resolved list has no entry of that name from the
    studio root, whatever the studio root holds; its entries of that name
    are the project root's matches of that name, in their order and one
    entry for each match: at least one, and exactly one when the project
    root has one match of that name; every destination is the canonical
    name under the output root; and the list is the studio matches that are
    not overridden, in their order, followed by all project matches. *)
Theorem project_files_override_studio_files (E : Env) (pattern n : jstring) :
  In n (map basename (projectFilesOf E pattern)) ->
  map src (entriesNamed E pattern n)
  = filter (fun p => JS.eqb (basename p) n) (projectFilesOf E pattern)
  /\ List.length (entriesNamed E pattern n)
     = List.length (filter (fun p => JS.eqb (basename p) n) (projectFilesOf E pattern))
  /\ 1 <= List.length (entriesNamed E pattern n)
  /\ (forall p, In p (studioFilesOf E pattern) -> basename p <> n)
  /\ (List.length (filter (fun p => JS.eqb (basename p) n) (projectFilesOf E pattern)) = 1 ->
      exists p, map src (entriesNamed E pattern n) = [p] /\ In p (projectFilesOf E pattern))
  /\ map src (getAssetFiles E pattern)
     = filter (fun p => negb (arrayIncludes (map basename (projectFilesOf E pattern))
                                            (basename p)))
              (studioMatches E pattern)
       ++ projectFilesOf E pattern
  /\ (forall a, In a (getAssetFiles E pattern) ->
                dest a = Path.join (OUTPUT E) (basename (src a))).
Proof.
  intros Hn.
  assert (Hstudio : forall p, In p (studioFilesOf E pattern) -> basename p <> n).
  { intros p Hp Heq; apply studioFilesOf_not_overridden in Hp as [_ Hp].
    apply Hp; now rewrite Heq. }
  assert (Hentries : map src (entriesNamed E pattern n)
                     = filter (fun p => JS.eqb (basename p) n) (projectFilesOf E pattern)).
  { unfold entriesNamed, getAssetFiles.
    rewrite (map_filter_src (fun p => JS.eqb (basename p) n)) by reflexivity.
    rewrite filter_app, filter_none; [reflexivity|].
    intros p Hp; apply eqb_neq; auto. }
  assert (Hcount : List.length (entriesNamed E pattern n)
                   = List.length (filter (fun p => JS.eqb (basename p) n)
                                         (projectFilesOf E pattern)))
    by (rewrite <- Hentries; symmetry; apply length_map).
  split; [exact Hentries|]. split; [exact Hcount|]. split.
  { rewrite Hcount.
    apply in_map_iff in Hn as (p & Hp & Hin).
    assert (Hf : In p (filter (fun p => JS.eqb (basename p) n) (projectFilesOf E pattern)))
      by (apply filter_In; split; [assumption|]; apply eqb_eq; exact Hp).
    destruct (filter _ (projectFilesOf E pattern)); [destruct Hf|simpl; lia]. }
  split; [exact Hstudio|]. split; [|split].
  - intros Hone; rewrite Hentries.
    destruct (filter _ (projectFilesOf E pattern)) as [|p [|q l]] eqn:Hf;
      try discriminate.
    exists p; split; [reflexivity|].
    assert (Hp : In p (filter (fun p => JS.eqb (basename p) n) (projectFilesOf E pattern)))
      by (rewrite Hf; now left).
    now apply filter_In in Hp.
  - unfold getAssetFiles; rewrite map_map; simpl; now rewrite map_id.
  - unfold getAssetFiles; intros a Ha; apply in_map_iff in Ha as (s & <- & _); reflexivity.
Qed.

Lemma project_files_override_studio_files_witness :
  In (str "sidebar.ts") (map basename (projectFilesOf Overlay.E (str "*.ts")))
  /\ map src (entriesNamed Overlay.E (str "*.ts") (str "sidebar.ts"))
     = [str "/project/frontend/sidebar/index.ts"]
  /\ map src (getAssetFiles Overlay.E (str "*.ts"))
     = [str "/studio/frontend/course.ts"; str "/project/frontend/app.ts";
        str "/project/frontend/sidebar/index.ts"].
Proof.
  assert (H : In (str "sidebar.ts") (map basename (projectFilesOf Overlay.E (str "*.ts"))))
    by (vm_compute; auto).
  split; [exact H|].
  destruct (project_files_override_studio_files Overlay.E (str "*.ts") (str "sidebar.ts") H)
    as (H1 & _ & _ & _ & _ & H2 & _).
  split; [rewrite H1 | rewrite H2]; reflexivity.
Defined.

(** ** Canonical names *)

Lemma takeWhile_app_stop (f : ascii -> bool) (l1 l2 : jstring) :
  forallb f l1 = true ->
  match l2 with [] => true | c :: _ => negb (f c) end = true ->
  takeWhile f (l1 ++ l2) = l1.
Proof.
  intros H1 H2; induction l1 as [|c l1 IH]; simpl in *.
  - destruct l2 as [|c l2]; [reflexivity|].
    simpl; now destruct (f c).
  - apply andb_true_iff in H1 as [Hc H1]; rewrite Hc; f_equal; auto.
Qed.

Lemma dropWhile_app_stop (f : ascii -> bool) (l1 l2 : jstring) :
  forallb f l1 = true ->
  match l2 with [] => true | c :: _ => negb (f c) end = true ->
  dropWhile f (l1 ++ l2) = l2.
Proof.
  intros H1 H2; induction l1 as [|c l1 IH]; simpl in *.
  - destruct l2 as [|c l2]; [reflexivity|].
    simpl; now destruct (f c).
  - apply andb_true_iff in H1 as [Hc H1]; rewrite Hc; auto.
Qed.

Lemma forallb_rev {A} (f : A -> bool) (l : list A) : forallb f (rev l) = forallb f l.
Proof.
  induction l as [|x l IH]; simpl; [reflexivity|].
  rewrite forallb_app, IH; simpl; rewrite andb_true_r; apply andb_comm.
Qed.

(** Trailing slashes are skipped only when there are some. *)
Lemma dropWhile_isSlash_name (name rest : jstring) :
  name <> [] -> slashFree name = true ->
  dropWhile Path.isSlash (rev name ++ rest) = rev name ++ rest.
Proof.
  intros Hne Hsf.
  destruct (rev name) as [|c r] eqn:Hr.
  - apply (f_equal (@rev ascii)) in Hr; rewrite rev_involutive in Hr; now subst.
  - assert (H : forallb Path.notSlash (rev name) = true)
      by (rewrite forallb_rev; exact Hsf).
    rewrite Hr in H; simpl in H; apply andb_true_iff in H as [Hc _].
    simpl; unfold Path.notSlash in Hc; now destruct (Path.isSlash c).
Qed.

Lemma directoryPrefix_rev (pre : jstring) :
  directoryPrefix pre = true ->
  match rev pre with [] => true | c :: _ => negb (Path.notSlash c) end = true.
Proof.
  unfold directoryPrefix, Path.notSlash; destruct (rev pre) as [|c r]; [reflexivity|].
  intros ->; reflexivity.
Qed.

(** The base name of a file name that follows a directory prefix. *)
Lemma path_basename_file (pre name : jstring) :
  directoryPrefix pre = true -> name <> [] -> slashFree name = true ->
  Path.basename (pre ++ name) = name.
Proof.
  intros Hpre Hne Hsf; unfold Path.basename.
  rewrite rev_app_distr, dropWhile_isSlash_name by assumption.
  rewrite takeWhile_app_stop.
  - apply rev_involutive.
  - rewrite forallb_rev; exact Hsf.
  - now apply directoryPrefix_rev.
Qed.

Lemma path_extname_file (pre name : jstring) :
  directoryPrefix pre = true -> name <> [] -> slashFree name = true ->
  Path.extname (pre ++ name) = Path.extname name.
Proof.
  intros Hpre Hne Hsf; unfold Path.extname.
  rewrite path_basename_file by assumption.
  now rewrite (path_basename_file [] name eq_refl Hne Hsf : Path.basename name = name).
Qed.

(** The directory of a file in a named directory. *)
Lemma path_dirname_file (dir name : jstring) :
  dir <> [] -> dir <> str "/" -> name <> [] -> slashFree name = true ->
  Path.dirname (dir ++ "/"%char :: name) = dir.
Proof.
  intros Hd Hroot Hne Hsf.
  destruct dir as [|c d]; [contradiction|]; simpl.
  rewrite rev_app_distr; simpl; rewrite <- app_assoc; simpl.
  rewrite dropWhile_isSlash_name by assumption.
  rewrite dropWhile_app_stop; [|rewrite forallb_rev; exact Hsf|reflexivity].
  rewrite rev_involutive, length_rev.
  destruct (Path.isSlash c) eqn:Hc; simpl; [|reflexivity].
  destruct d as [|c' d]; simpl; [|reflexivity].
  exfalso; apply Hroot.
  unfold Path.isSlash in Hc; apply Ascii.eqb_eq in Hc; now subst.
Qed.

Lemma split_nonempty (c : ascii) (s : jstring) : split c s <> [].
Proof.
  destruct s as [|x s]; simpl; [discriminate|].
  destruct (Ascii.eqb x c); [discriminate|].
  destruct (split c s); discriminate.
Qed.

Lemma split_plain (c : ascii) (s : jstring) :
  forallb (fun x => negb (Ascii.eqb x c)) s = true -> split c s = [s].
Proof.
  induction s as [|x s IH]; simpl; [reflexivity|].
  intros H; apply andb_true_iff in H as [Hx Hs].
  destruct (Ascii.eqb x c); [discriminate|].
  now rewrite IH.
Qed.

Lemma last_cons_nonempty {A} (x : A) (l : list A) (d : A) :
  l <> [] -> last (x :: l) d = last l d.
Proof. destruct l; [contradiction|reflexivity]. Qed.

(** After a separator, the last segment is the last segment of the rest. *)
Lemma split_after_separator (c : ascii) (d s : jstring) :
  exists seg segs,
    split c (d ++ c :: s) = seg :: segs /\ segs <> [] /\ last segs [] = pop (split c s).
Proof.
  induction d as [|x d (seg & segs & Heq & Hne & Hlast)]; simpl.
  - rewrite Ascii.eqb_refl; exists [], (split c s); repeat split.
    apply split_nonempty.
  - rewrite Heq; destruct (Ascii.eqb x c).
    + exists [], (seg :: segs); repeat split; [discriminate|].
      now rewrite last_cons_nonempty.
    + exists (x :: seg), segs; repeat split; assumption.
Qed.

Lemma pop_split_directory (pre foo : jstring) :
  directoryPrefix pre = true -> slashFree foo = true ->
  pop (split Path.sep (pre ++ foo)) = foo.
Proof.
  intros Hpre Hsf.
  assert (Hfoo : split Path.sep foo = [foo]) by (apply split_plain; exact Hsf).
  unfold directoryPrefix in Hpre.
  destruct (rev pre) as [|c r] eqn:Hr.
  - apply (f_equal (@rev ascii)) in Hr; rewrite rev_involutive in Hr; subst; simpl.
    now rewrite Hfoo.
  - apply (f_equal (@rev ascii)) in Hr; rewrite rev_involutive in Hr; subst pre; simpl.
    unfold Path.isSlash in Hpre; apply Ascii.eqb_eq in Hpre; subst c.
    rewrite <- app_assoc; simpl.
    destruct (split_after_separator Path.sep (rev r) foo) as (seg & segs & Heq & Hne & Hl).
    unfold pop at 1; unfold Path.sep in Heq |- *; rewrite Heq.
    rewrite last_cons_nonempty by assumption.
    rewrite Hl; fold Path.sep; now rewrite Hfoo.
Qed.

(** Splitting at the separator and joining again gives the path back. *)
Lemma join_split (c : ascii) (s : jstring) : JS.join [c] (split c s) = s.
Proof.
  induction s as [|x s IH]; simpl; [reflexivity|].
  destruct (Ascii.eqb x c) eqn:Hx.
  - apply Ascii.eqb_eq in Hx; subst x.
    pose proof (split_nonempty c s) as Hne.
    destruct (split c s) as [|seg segs]; [contradiction|].
    simpl in *; now rewrite IH.
  - destruct (split c s) as [|seg [|seg' segs]]; simpl in *; now rewrite <- IH.
Qed.

Lemma split_app_separator (c : ascii) (a b : jstring) :
  split c (a ++ c :: b) = split c a ++ split c b.
Proof.
  induction a as [|x a IH]; simpl.
  - now rewrite Ascii.eqb_refl.
  - rewrite IH; destruct (Ascii.eqb x c); [reflexivity|].
    pose proof (split_nonempty c a) as Hne.
    destruct (split c a) as [|seg segs]; [contradiction|reflexivity].
Qed.

Lemma normalizeSegments_plain (allow : bool) (segs acc : list jstring) :
  forallb plainSegment segs = true ->
  Path.normalizeSegments allow acc segs = rev acc ++ segs.
Proof.
  revert acc; induction segs as [|seg segs IH]; intros acc H.
  - simpl; now rewrite app_nil_r.
  - cbn [forallb] in H; apply andb_true_iff in H as [Hseg Hsegs].
    unfold plainSegment in Hseg; apply negb_true_iff in Hseg.
    apply orb_false_iff in Hseg as [Hseg Hdd].
    cbn [Path.normalizeSegments]; rewrite Hseg, Hdd.
    rewrite IH by assumption; simpl; now rewrite <- app_assoc.
Qed.

(** A clean relative path is not empty and does not end in a slash. *)
Lemma cleanRelative_shape (q : jstring) :
  cleanRelative q = true -> q <> [] /\ endsWith (str "/") (q) = false.
Proof.
  unfold cleanRelative; intros H; split.
  - intros ->; discriminate.
  - unfold endsWith, startsWith; change (rev (str "/")) with ["/"%char].
    destruct (rev q) as [|c r] eqn:Hr; [reflexivity|].
    cbn [stripPrefix].
    destruct (Ascii.eqb "/" c) eqn:Hc; [|reflexivity].
    apply Ascii.eqb_eq in Hc; subst c.
    apply (f_equal (@rev ascii)) in Hr; rewrite rev_involutive in Hr; simpl in Hr.
    subst q; rewrite split_app_separator, forallb_app in H.
    apply andb_true_iff in H as [_ H]; discriminate.
Qed.

(** [path.normalize] leaves a clean absolute path as it is. *)
Lemma normalize_clean (p : jstring) : cleanAbsolute p = true -> Path.normalize p = p.
Proof.
  destruct p as [|c q]; [discriminate|].
  intros H; cbn [cleanAbsolute] in H; apply andb_true_iff in H as [Hc Hq].
  unfold Path.isSlash in Hc; apply Ascii.eqb_eq in Hc; subst c.
  destruct (cleanRelative_shape q Hq) as [Hne Hend].
  unfold Path.normalize; cbv beta iota zeta.
  change (startsWith (str "/") ("/"%char :: q)) with true.
  assert (Htrail : endsWith (str "/") ("/"%char :: q) = false).
  { unfold endsWith, startsWith in Hend |- *.
    change (rev (str "/")) with ["/"%char] in Hend |- *.
    cbn [rev]; destruct (rev q) as [|x r] eqn:Hr.
    - apply (f_equal (@rev ascii)) in Hr; rewrite rev_involutive in Hr; now subst.
    - cbn [app stripPrefix] in Hend |- *.
      now destruct (Ascii.eqb "/" x). }
  rewrite Htrail; simpl negb.
  change (split Path.sep ("/"%char :: q)) with ([] :: split Path.sep q).
  simpl Path.normalizeSegments.
  rewrite normalizeSegments_plain by exact Hq; simpl rev; simpl app.
  change (str "/") with [Path.sep]; rewrite join_split.
  destruct q; [contradiction|reflexivity].
Qed.

(** [path.join] of a clean root and a clean relative path puts a slash
    between them. *)
Lemma path_join_clean (root c : jstring) :
  cleanAbsolute root = true -> cleanRelative c = true ->
  Path.join root c = root ++ "/"%char :: c.
Proof.
  intros Hroot Hc.
  destruct (cleanRelative_shape c Hc) as [Hne _].
  destruct root as [|x r]; [discriminate|].
  destruct c as [|y c']; [contradiction|].
  unfold Path.join; apply normalize_clean.
  simpl in Hroot |- *; apply andb_true_iff in Hroot as [Hx Hr]; rewrite Hx; simpl.
  unfold cleanRelative in *.
  change (r ++ "/"%char :: y :: c') with (r ++ Path.sep :: y :: c').
  rewrite split_app_separator, forallb_app, Hr; exact Hc.
Qed.

Lemma directoryPrefix_slash (d : jstring) : directoryPrefix (d ++ str "/") = true.
Proof. unfold directoryPrefix; now rewrite rev_app_distr. Qed.

Lemma slashFree_app (a b : jstring) :
  slashFree (a ++ b) = slashFree a && slashFree b.
Proof. apply forallb_app. Qed.

(** The parent directory of an index file and its name. *)
Lemma index_file_directory (pre foo name : jstring) :
  directoryPrefix pre = true -> foo <> [] -> slashFree foo = true ->
  name <> [] -> slashFree name = true ->
  Path.basename (pre ++ foo ++ "/"%char :: name) = name
  /\ pop (split Path.sep (Path.dirname (pre ++ foo ++ "/"%char :: name))) = foo.
Proof.
  intros Hpre Hfoo Hsf Hname Hsn; split.
  - replace (pre ++ foo ++ "/"%char :: name) with ((pre ++ foo ++ str "/") ++ name)
      by (now rewrite <- !app_assoc).
    apply path_basename_file; try assumption.
    rewrite app_assoc; apply directoryPrefix_slash.
  - rewrite app_assoc, path_dirname_file; try assumption.
    + now apply pop_split_directory.
    + destruct pre; [assumption|discriminate].
    + intros Heq. destruct pre as [|c pre]; simpl in Heq.
      * subst foo; discriminate.
      * injection Heq as _ Heq; apply app_eq_nil in Heq as [_ Heq]; contradiction.
Qed.

(** The extension of a file name with a stem and a simple extension. *)
Lemma path_extname_simple (stem x : jstring) :
  stem <> [] -> x <> [] -> slashFree (stem ++ "."%char :: x) = true -> dotFree x = true ->
  Path.extname (stem ++ "."%char :: x) = "."%char :: x.
Proof.
  intros Hstem Hx Hsf Hdot; unfold Path.extname.
  rewrite (path_basename_file [] (stem ++ "."%char :: x) eq_refl
             : _ -> _ -> Path.basename (stem ++ "."%char :: x) = _)
    by (try assumption; now destruct stem).
  rewrite rev_app_distr; simpl; rewrite <- app_assoc; simpl.
  rewrite takeWhile_app_stop, dropWhile_app_stop;
    try reflexivity; try (rewrite forallb_rev; exact Hdot).
  destruct (rev stem) as [|c r] eqn:Hr.
  - apply (f_equal (@rev ascii)) in Hr; rewrite rev_involutive in Hr; now subst.
  - rewrite rev_involutive.
    destruct (JS.eqb (stem ++ "."%char :: x) _) eqn:Heq; [|reflexivity].
    apply eqb_eq in Heq; apply (f_equal (@List.length ascii)) in Heq.
    rewrite length_app in Heq; simpl in Heq.
    destruct stem; [contradiction|]; destruct x; [contradiction|]; simpl in Heq; lia.
Qed.

(** The canonical name of an index file in the directory [foo]. *)
Lemma basename_index_file (pre foo rest : jstring) :
  directoryPrefix pre = true -> foo <> [] -> slashFree foo = true ->
  slashFree rest = true ->
  basename (pre ++ foo ++ str "/index." ++ rest)
  = foo ++ Path.extname (pre ++ foo ++ str "/index." ++ rest)
  /\ pop (split Path.sep (Path.dirname (pre ++ foo ++ str "/index." ++ rest))) = foo.
Proof.
  intros Hpre Hfoo Hsf Hrest; unfold basename.
  destruct (index_file_directory pre foo (str "index." ++ rest)) as [Hb Hd];
    try assumption; try discriminate.
  change (pre ++ foo ++ str "/index." ++ rest)
    with (pre ++ foo ++ "/"%char :: (str "index." ++ rest)).
  rewrite Hb, Hd; unfold startsWith.
  now rewrite stripPrefix_app.
Qed.

Lemma extname_index_file (pre foo x : jstring) :
  x <> [] -> slashFree x = true -> dotFree x = true ->
  Path.extname (pre ++ foo ++ str "/index." ++ x) = str "." ++ x.
Proof.
  intros Hx Hsx Hdx.
  replace (pre ++ foo ++ str "/index." ++ x)
    with ((pre ++ foo ++ str "/") ++ (str "index" ++ "."%char :: x))
    by (now rewrite <- !app_assoc).
  rewrite path_extname_file.
  - apply path_extname_simple; try assumption; discriminate.
  - rewrite app_assoc; apply directoryPrefix_slash.
  - discriminate.
  - exact Hsx.
Qed.

(** The canonical names of [foo/index.x] and of [foo.x]. *)
Lemma basename_index_simple (pre foo x : jstring) :
  directoryPrefix pre = true -> foo <> [] -> slashFree foo = true ->
  x <> [] -> slashFree x = true -> dotFree x = true ->
  basename (pre ++ foo ++ str "/index." ++ x) = foo ++ str "." ++ x.
Proof.
  intros Hpre Hfoo Hsf Hx Hsx Hdx.
  destruct (basename_index_file pre foo x) as [-> _]; try assumption.
  now rewrite extname_index_file.
Qed.

Lemma basename_flat_file (pre foo x : jstring) :
  directoryPrefix pre = true -> foo <> [] -> slashFree foo = true ->
  slashFree x = true -> startsWith (str "index.") (foo ++ str "." ++ x) = false ->
  basename (pre ++ foo ++ str "." ++ x) = foo ++ str "." ++ x.
Proof.
  intros Hpre Hfoo Hsf Hsx Hflat; unfold basename.
  rewrite path_basename_file; try assumption.
  - now rewrite Hflat.
  - now destruct foo.
  - rewrite !slashFree_app, Hsf, Hsx; reflexivity.
Qed.

(** Of two files with one canonical name, the one under the studio root is
    filtered out. *)
Lemma same_name_overrides E pattern p s :
  basename p = basename s ->
  In p (projectFilesOf E pattern) -> ~ In s (studioFilesOf E pattern).
Proof.
  intros Heq Hin Hst; apply studioFilesOf_not_overridden in Hst as [_ Hst].
  apply Hst; rewrite <- Heq; now apply in_map.
Qed.

Lemma cleanRelative_index (foo x : jstring) :
  plainSegment foo = true -> slashFree foo = true -> slashFree x = true ->
  cleanRelative (foo ++ str "/index." ++ x) = true.
Proof.
  intros Hplain Hsf Hsx; unfold cleanRelative.
  change (foo ++ str "/index." ++ x) with (foo ++ Path.sep :: (str "index." ++ x)).
  rewrite split_app_separator, !split_plain; [|exact Hsx|exact Hsf].
  simpl; now rewrite Hplain.
Qed.

Lemma cleanRelative_flat (foo x : jstring) :
  foo <> [] -> x <> [] -> slashFree foo = true -> slashFree x = true ->
  cleanRelative (foo ++ str "." ++ x) = true.
Proof.
  intros Hfoo Hx Hsf Hsx; unfold cleanRelative.
  rewrite split_plain by (rewrite !slashFree_app, Hsf, Hsx; reflexivity).
  simpl; rewrite andb_true_r; unfold plainSegment.
  apply negb_true_iff, orb_false_iff; split; [apply orb_false_iff; split|];
    apply eqb_neq; intros Heq; apply (f_equal (@List.length ascii)) in Heq;
    rewrite !length_app in Heq; simpl in Heq;
    destruct foo; [contradiction| |contradiction| |contradiction|];
    destruct x; try contradiction; simpl in Heq; lia.
Qed.

(** The flat file [index.ts] of the studio root is itself an index file and
    is named after the root directory, so it does not have the canonical
    name of [index/index.ts] in the project root, and both are kept. *)
Lemma flat_index_file_named_after_root :
  basename (str "/project/frontend/index/index.ts") = str "index.ts"
  /\ basename (str "/studio/frontend/index.ts") = str "frontend.ts"
  /\ In (str "/project/frontend/index/index.ts") (projectFilesOf IndexNamed.E (str "*.ts"))
  /\ In (str "/studio/frontend/index.ts") (studioFilesOf IndexNamed.E (str "*.ts"))
  /\ map src (getAssetFiles IndexNamed.E (str "*.ts"))
     = [str "/studio/frontend/index.ts"; str "/project/frontend/index/index.ts"].
Proof. vm_compute; repeat split; auto. Qed.

(** C8, as the code has it: for a path that ends in an index file
    ([index.] and any rest) in a named directory [foo], the canonical name
    is the name of that directory followed by the extension of the file.
    With a simple extension [x] that is [foo.x]; and when [foo.x] is not
    itself the name of an index file, the flat file [foo.x] has the same
    canonical name, so that when the project root has one of the two the
    override filter removes the other from the studio files; with roots in
    normal form this is so for the files as [glob.sync] lists them under
    the roots. *)
Theorem index_file_named_after_directory
    (E : Env) (pattern pre pre' foo rest x : jstring) :
  directoryPrefix pre = true ->
  foo <> [] -> slashFree foo = true ->
  slashFree rest = true ->
  basename (pre ++ foo ++ str "/index." ++ rest)
    = foo ++ Path.extname (pre ++ foo ++ str "/index." ++ rest)
  /\ pop (split Path.sep (Path.dirname (pre ++ foo ++ str "/index." ++ rest))) = foo
  /\ (x <> [] -> slashFree x = true -> dotFree x = true ->
      let indexFile := pre ++ foo ++ str "/index." ++ x in
      Path.extname indexFile = str "." ++ x
      /\ basename indexFile = foo ++ str "." ++ x
      /\ (directoryPrefix pre' = true ->
          startsWith (str "index.") (foo ++ str "." ++ x) = false ->
          let flatFile := pre' ++ foo ++ str "." ++ x in
          basename flatFile = foo ++ str "." ++ x
          /\ (In indexFile (projectFilesOf E pattern) ->
              ~ In flatFile (studioFilesOf E pattern))
          /\ (In flatFile (projectFilesOf E pattern) ->
              ~ In indexFile (studioFilesOf E pattern))
          /\ (cleanAbsolute (PROJECT_ASSETS E) = true ->
              cleanAbsolute (STUDIO_ASSETS E) = true ->
              plainSegment foo = true ->
              (In (foo ++ str "/index." ++ x)
                  (glob_sync E (expandPattern pattern) (PROJECT_ASSETS E)) ->
               ~ In (STUDIO_ASSETS E ++ str "/" ++ foo ++ str "." ++ x)
                    (studioFilesOf E pattern))
              /\ (In (foo ++ str "." ++ x)
                     (glob_sync E (expandPattern pattern) (PROJECT_ASSETS E)) ->
                  ~ In (STUDIO_ASSETS E ++ str "/" ++ foo ++ str "/index." ++ x)
                       (studioFilesOf E pattern))))).
Proof.
  intros Hpre Hfoo Hsf Hrest.
  split; [now apply basename_index_file|].
  split; [now apply (basename_index_file pre foo rest)|].
  intros Hx Hsx Hdx indexFile.
  assert (Hindex : forall d, directoryPrefix d = true ->
            basename (d ++ foo ++ str "/index." ++ x) = foo ++ str "." ++ x)
    by (intros d Hd; now apply basename_index_simple).
  split; [now apply extname_index_file|].
  split; [now apply Hindex|].
  intros Hpre' Hflat flatFile.
  assert (Hflatname : forall d, directoryPrefix d = true ->
            basename (d ++ foo ++ str "." ++ x) = foo ++ str "." ++ x)
    by (intros d Hd; now apply basename_flat_file).
  split; [now apply Hflatname|].
  split; [|split].
  - apply same_name_overrides; unfold indexFile, flatFile.
    now rewrite Hindex, Hflatname.
  - apply same_name_overrides; unfold indexFile, flatFile.
    now rewrite Hindex, Hflatname.
  - intros Hproject Hstudio Hplain.
    assert (Hci : cleanRelative (foo ++ str "/index." ++ x) = true)
      by now apply cleanRelative_index.
    assert (Hcf : cleanRelative (foo ++ str "." ++ x) = true)
      by now apply cleanRelative_flat.
    split; intros Hin.
    + apply (same_name_overrides E pattern
               ((PROJECT_ASSETS E ++ str "/") ++ foo ++ str "/index." ++ x)).
      * rewrite Hindex by apply directoryPrefix_slash.
        rewrite (app_assoc (STUDIO_ASSETS E) (str "/")).
        rewrite Hflatname by apply directoryPrefix_slash; reflexivity.
      * unfold projectFilesOf; apply in_map_iff.
        exists (foo ++ str "/index." ++ x); split; [|exact Hin].
        rewrite path_join_clean by assumption; now rewrite <- app_assoc.
    + apply (same_name_overrides E pattern
               ((PROJECT_ASSETS E ++ str "/") ++ foo ++ str "." ++ x)).
      * rewrite Hflatname by apply directoryPrefix_slash.
        rewrite (app_assoc (STUDIO_ASSETS E) (str "/")).
        rewrite Hindex by apply directoryPrefix_slash; reflexivity.
      * unfold projectFilesOf; apply in_map_iff.
        exists (foo ++ str "." ++ x); split; [|exact Hin].
        rewrite path_join_clean by assumption; now rewrite <- app_assoc.
Qed.

Lemma index_file_named_after_directory_witness :
  basename (str "/project/frontend/sidebar/index.ts") = str "sidebar.ts"
  /\ basename (str "/studio/frontend/sidebar.ts") = str "sidebar.ts"
  /\ In (str "sidebar/index.ts")
        (glob_sync Overlay.E (expandPattern (str "*.ts")) (PROJECT_ASSETS Overlay.E))
  /\ In (str "/studio/frontend/sidebar.ts") (studioMatches Overlay.E (str "*.ts"))
  /\ ~ In (str "/studio/frontend/sidebar.ts") (studioFilesOf Overlay.E (str "*.ts")).
Proof.
  assert (Hin : In (str "sidebar/index.ts")
                   (glob_sync Overlay.E (expandPattern (str "*.ts"))
                              (PROJECT_ASSETS Overlay.E))) by (vm_compute; auto).
  destruct (index_file_named_after_directory Overlay.E (str "*.ts")
              (str "/project/frontend/") (str "/studio/frontend/")
              (str "sidebar") (str "ts") (str "ts"))
    as (_ & _ & Hsimple); try reflexivity; try discriminate.
  destruct Hsimple as (_ & H1 & Hflat); try reflexivity; try discriminate.
  destruct Hflat as (H2 & _ & _ & H3); try reflexivity.
  destruct H3 as [H3 _]; try reflexivity.
  split; [exact H1|]. split; [exact H2|]. split; [exact Hin|].
  split; [vm_compute; auto|exact (H3 Hin)].
Defined.

(** ** Locale fan-out *)





Lemma writtenFiles_app (t1 t2 : list Event) :
  writtenFiles (t1 ++ t2) = writtenFiles t1 ++ writtenFiles t2.
Proof.
  induction t1 as [|e t1 IH]; simpl; [reflexivity|].
  destruct e; simpl; now rewrite ?IH.
Qed.


(** C4 fails on this input: with the destination [/www/site.js/app.ts]
    and the locales [en] and [fr], the call succeeds and writes two files,
    but the French bundle goes to [/www/site.fr.js/app.js], under another
    directory, and not to [/www/site.js/app.fr.js], the destination with
    [.fr] immediately before its extension: the locale is put before the
    first [.js] of the whole path. *)
Lemma locale_suffix_goes_to_first_js :
  let w := snd (bundleScripts Sample.E (str "/project/frontend/app.ts")
                  (str "/www/site.js/app.ts") false false
                  (forLocales [str "en"; str "fr"]) initialWorld) in
  fst (bundleScripts Sample.E (str "/project/frontend/app.ts")
         (str "/www/site.js/app.ts") false false
         (forLocales [str "en"; str "fr"]) initialWorld) = Ok tt
  /\ writtenFiles (trace w) = [str "/www/site.js/app.js"; str "/www/site.fr.js/app.js"]
  /\ suffixedBeforeExtension (str "/www/site.js/app.js") (str "fr")
     = str "/www/site.js/app.fr.js"
  /\ writtenFiles (trace w)
     <> [str "/www/site.js/app.js";
         suffixedBeforeExtension (str "/www/site.js/app.js") (str "fr")].
Proof. vm_compute; repeat split; discriminate. Qed.


(** ** The course stage *)

Lemma guarded_course_trace E id locale ls watch w :
  exists w',
    catch (bundleMarkdown E id locale ls watch (CONTENT E)) (error (courseLabel id locale)) w
    = (Ok tt, w')
    /\ trace w' = trace w ++ courseEvents E id locale ls
    /\ iconsPath w' = iconsPath w.
Proof.
  unfold catch, bundleMarkdown, parseCourseCall, courseEvents, error.
  unfold bind, emit, addCourseUrls, lift, writeFile, success, watchFiles; simpl.
  destruct (fst (parseCourse E _ locale ls)) as [[data|]|e]; simpl.
  - destruct (course data) as [json|]; simpl.
    + unfold bind, lift, emit; simpl.
      destruct (fsWrite E _ json) as [[]|e]; simpl.
      * destruct watch; simpl; eexists; repeat split; simpl;
          now rewrite <- !app_assoc.
      * eexists; repeat split; simpl; now rewrite <- !app_assoc.
    + destruct watch; simpl; eexists; repeat split.
  - eexists; repeat split.
  - eexists; repeat split; simpl; now rewrite <- !app_assoc.
Qed.

Lemma guarded_sitemap_trace E w :
  exists w',
    catch (createSitemap E []) (error (str "sitemap.xml")) w = (Ok tt, w')
    /\ trace w' = trace w ++ [sitemapEvent E (COURSE_URLS w)].
Proof.
  unfold catch, createSitemap, writeFile, error, sitemapEvent, bind, lift, emit.
  destruct (fsWrite E _ _) as [[]|e]; eexists; split; reflexivity.
Qed.

(** ** Computations do not read what they log *)

Lemma local_ret {A} (a : A) : local (ret a).
Proof. intros w; simpl; now rewrite !app_nil_r. Qed.

Lemma local_lift {A} (r : Result A) : local (lift r).
Proof. intros w; simpl; now rewrite !app_nil_r. Qed.

Lemma local_emit e : local (emit e).
Proof. intros w; simpl; now rewrite !app_nil_r. Qed.

Lemma local_getIconsPath : local getIconsPath.
Proof. intros w; simpl; now rewrite !app_nil_r. Qed.

Lemma local_setIconsPath p : local (setIconsPath p).
Proof. intros w; simpl; now rewrite !app_nil_r. Qed.

Lemma local_addCourseUrls urls : local (addCourseUrls urls).
Proof. intros w; simpl; now rewrite !app_nil_r. Qed.

Lemma local_watchFiles fs r : local (watchFiles fs r).
Proof. intros w; simpl; now rewrite !app_nil_r. Qed.

Lemma local_bind {A B} (m : Async A) (k : A -> Async B) :
  local m -> (forall a, local (k a)) -> local (bind m k).
Proof.
  intros Hm Hk w; unfold bind.
  destruct (Hm w) as (Hr & Hb & Hw & Ht).
  destruct (m w) as [r w1], (m (bare w)) as [r0 w0]; simpl in *; subst r0.
  destruct r as [a|e]; simpl; [|auto].
  destruct (Hk a w1) as (Hr1 & Hb1 & Hw1 & Ht1).
  destruct (Hk a w0) as (Hr0 & Hb0 & Hw0 & Ht0).
  rewrite Hb in *; simpl in *.
  repeat split.
  - congruence.
  - congruence.
  - rewrite Hw1, Hw0, Hw; now rewrite <- app_assoc.
  - rewrite Ht1, Ht0, Ht; now rewrite <- app_assoc.
Qed.

Lemma local_catch {A} (m : Async A) (h : jstring -> Async A) :
  local m -> (forall e, local (h e)) -> local (catch m h).
Proof.
  intros Hm Hh w; unfold catch.
  destruct (Hm w) as (Hr & Hb & Hw & Ht).
  destruct (m w) as [r w1], (m (bare w)) as [r0 w0]; simpl in *; subst r0.
  destruct r as [a|e]; simpl; [auto|].
  destruct (Hh e w1) as (Hr1 & Hb1 & Hw1 & Ht1).
  destruct (Hh e w0) as (Hr0 & Hb0 & Hw0 & Ht0).
  rewrite Hb in *; simpl in *.
  repeat split.
  - congruence.
  - congruence.
  - rewrite Hw1, Hw0, Hw; now rewrite <- app_assoc.
  - rewrite Ht1, Ht0, Ht; now rewrite <- app_assoc.
Qed.

Lemma local_forEach {A} (l : list A) (body : A -> Async unit) :
  (forall x, local (body x)) -> local (forEach l body).
Proof.
  intros H; induction l as [|x l IH]; simpl.
  - apply local_ret.
  - apply local_bind; [apply H|intros _; exact IH].
Qed.

Lemma local_mapM {A B} (f : A -> Async B) (l : list A) :
  (forall x, local (f x)) -> local (mapM f l).
Proof.
  intros H; induction l as [|x l IH]; simpl.
  - apply local_ret.
  - apply local_bind; [apply H|]; intros y.
    apply local_bind; [exact IH|]; intros ys; apply local_ret.
Qed.

Create HintDb locality.

#[export] Hint Resolve local_ret local_lift local_emit local_getIconsPath
  local_setIconsPath local_addCourseUrls local_watchFiles : locality.

Ltac local_step :=
  match goal with
  | |- forall _, _ => intro
  | |- local (bind _ _) => apply local_bind
  | |- local (catch _ _) => apply local_catch
  | |- local (forEach _ _) => apply local_forEach
  | |- local (mapM _ _) => apply local_mapM
  | |- local (if ?b then _ else _) => destruct b
  | |- local (match ?x with Some _ => _ | None => _ end) => destruct x
  | |- local _ => solve [eauto with locality]
  end.

Ltac locality := repeat local_step.

Lemma local_writeFile E d t : local (writeFile E d t).
Proof. unfold writeFile; locality. Qed.

Lemma local_success id : local (success id).
Proof. apply local_emit. Qed.

Lemma local_error id e : local (error id e).
Proof. apply local_emit. Qed.

#[export] Hint Resolve local_writeFile local_success local_error : locality.

Lemma local_bundleStyles E srcPath destPath minify watch :
  local (bundleStyles E srcPath destPath minify watch).
Proof. unfold bundleStyles; locality. Qed.

Lemma local_bundleLocales E srcPath destPath minify watch options inputs ls :
  local (bundleLocales E srcPath destPath minify watch options inputs ls).
Proof. revert inputs; induction ls as [|l ls IH]; intros inputs; simpl; locality. Qed.

#[export] Hint Resolve local_bundleLocales : locality.

Lemma local_bundleScripts E srcPath destPath minify watch options :
  local (bundleScripts E srcPath destPath minify watch options).
Proof. unfold bundleScripts; locality. Qed.

Lemma local_createPolyfill E : local (createPolyfill E).
Proof. unfold createPolyfill; locality. Qed.

Lemma local_iconSymbol E a : local (iconSymbol E a).
Proof. unfold iconSymbol; locality. Qed.

#[export] Hint Resolve local_iconSymbol : locality.

Lemma local_iconStage E : local (iconStage E).
Proof. unfold iconStage, bundleIcons; locality. Qed.

(** ** The icon stage *)

Lemma iconStage_trace E w :
  exists w',
    iconStage E w = (Ok tt, w')
    /\ trace w' = trace w ++ trace (snd (iconStage E (bare w))).
Proof.
  destruct (local_iconStage E w) as (_ & _ & _ & Ht).
  assert (Hok : fst (iconStage E w) = Ok tt).
  { unfold iconStage, catch, error, emit.
    now destruct (bundleIcons E w) as [[[]|e] w1]. }
  destruct (iconStage E w) as [r w1]; simpl in *; subst r.
  exists w1; split; [reflexivity|assumption].
Qed.

(** ** Promises *)

Lemma alone_now {A} (m : Async A) w : alone (now m) w = m w.
Proof. unfold alone, now; destruct (m w) as [r w1]; reflexivity. Qed.

Lemma alone_await {A} (m : Async A) w : alone (await m) w = m w.
Proof. unfold alone, await; simpl; unfold now; destruct (m w) as [r w1]; reflexivity. Qed.

Lemma alone_tret {A} (a : A) w : alone (tret a) w = ret a w.
Proof. reflexivity. Qed.

(** A function that goes on after a promise has, awaited alone, the
    effect of the two in sequence. *)
Lemma settle_andThen {A B} (f : A -> Task B) (p : Promise A) : forall w,
  alone (andThen p f) w = bind (settle p) (fun a => alone (f a)) w.
Proof.
  induction p as [r|k IH] using Promise_ind; intros w.
  - destruct r as [a|e]; reflexivity.
  - unfold alone, bind; simpl.
    specialize (IH w); unfold alone, bind in IH.
    destruct (k w) as [p' w']; simpl in IH; apply IH.
Qed.

Lemma alone_tbind {A B} (t : Task A) (f : A -> Task B) w :
  alone (tbind t f) w = bind (alone t) (fun a => alone (f a)) w.
Proof.
  unfold tbind.
  assert (H : alone (fun w => let (p, w') := t w in andThen p f w') w
              = (let (p, w') := t w in alone (andThen p f) w'))
    by (unfold alone; destruct (t w) as [p w']; reflexivity).
  rewrite H; unfold bind at 1, alone at 2.
  destruct (t w) as [p w']; apply settle_andThen.
Qed.

Lemma settle_caught {A} (h : jstring -> Async A) (p : Promise A) : forall w,
  settle (caught p h) w = catch (settle p) h w.
Proof.
  induction p as [r|k IH] using Promise_ind; intros w.
  - destruct r as [a|e]; [reflexivity|].
    simpl; unfold catch, lift, now; destruct (h e w) as [r w1]; reflexivity.
  - simpl; unfold catch in *; simpl.
    specialize (IH w); destruct (k w) as [p' w']; apply IH.
Qed.

Lemma alone_tcatch {A} (t : Task A) (h : jstring -> Async A) w :
  alone (tcatch t h) w = catch (alone t) h w.
Proof.
  unfold alone, tcatch, catch.
  destruct (t w) as [p w']; apply settle_caught.
Qed.

Lemma bind_ext {A B} (m m' : Async A) (k k' : A -> Async B) w :
  m w = m' w -> (forall a v, k a v = k' a v) -> bind m k w = bind m' k' w.
Proof.
  intros Hm Hk; unfold bind; rewrite Hm.
  destruct (m' w) as [[a|e] w1]; [apply Hk|reflexivity].
Qed.

Lemma alone_tforEach {A} (l : list A) (body : A -> Task unit) : forall w,
  alone (tforEach l body) w = forEach l (fun x => alone (body x)) w.
Proof.
  induction l as [|x l IH]; intros w; [reflexivity|].
  simpl; rewrite alone_tbind; apply bind_ext; [reflexivity|intros _ v; apply IH].
Qed.

Lemma forEach_pointwise {A} (f g : A -> Async unit) (l : list A) :
  (forall x w, f x w = g x w) -> forall w, forEach l f w = forEach l g w.
Proof.
  intros H; induction l as [|x l IH]; intros w; simpl; [reflexivity|].
  apply bind_ext; [apply H|intros _ v; apply IH].
Qed.

(** The steps by which a call awaited alone is read as the sequence of its
    parts. *)
Ltac sequential :=
  repeat first
    [ reflexivity
    | rewrite alone_now
    | rewrite alone_await
    | rewrite alone_tret
    | rewrite alone_tbind; apply bind_ext; [|intros ? ?]
    | rewrite alone_tforEach; apply forEach_pointwise; intros ? ? ].

(** *** The build functions awaited alone *)

Lemma alone_bundleStyles E srcPath destPath minify watch w :
  alone (Tasks.bundleStyles E srcPath destPath minify watch) w
  = bundleStyles E srcPath destPath minify watch w.
Proof. unfold Tasks.bundleStyles, bundleStyles; sequential. Qed.

Lemma alone_bundleLocales E srcPath destPath minify watch options : forall ls inputs w,
  alone (Tasks.bundleLocales E srcPath destPath minify watch options inputs ls) w
  = bundleLocales E srcPath destPath minify watch options inputs ls w.
Proof.
  induction ls as [|l ls IH]; intros inputs w; [reflexivity|].
  simpl; sequential; apply IH.
Qed.

Lemma alone_bundleScripts E srcPath destPath minify watch options w :
  alone (Tasks.bundleScripts E srcPath destPath minify watch options) w
  = bundleScripts E srcPath destPath minify watch options w.
Proof.
  unfold Tasks.bundleScripts, bundleScripts.
  destruct (endsWith (str ".d.ts") srcPath); [reflexivity|].
  rewrite alone_tbind; apply bind_ext; [apply alone_bundleLocales|intros inputs v].
  sequential.
Qed.

Lemma alone_bundleMarkdown E id locale allLocales watch base w :
  alone (Tasks.bundleMarkdown E id locale allLocales watch base) w
  = bundleMarkdown E id locale allLocales watch base w.
Proof.
  unfold Tasks.bundleMarkdown, bundleMarkdown, Tasks.parseCourseCall, parseCourseCall.
  rewrite alone_tbind; apply bind_ext.
  - sequential.
  - intros [data|] v; [|reflexivity].
    destruct (course data) as [json|]; sequential.
Qed.

Lemma alone_bundleIcons E w : alone (Tasks.bundleIcons E) w = bundleIcons E w.
Proof. unfold Tasks.bundleIcons, bundleIcons; sequential. Qed.

Lemma alone_createPolyfill E w : alone (Tasks.createPolyfill E) w = createPolyfill E w.
Proof. unfold Tasks.createPolyfill, createPolyfill; sequential. Qed.

Lemma alone_createSitemap E URLs w :
  alone (Tasks.createSitemap E URLs) w = createSitemap E URLs w.
Proof.
  unfold Tasks.createSitemap, createSitemap.
  change (alone (fun w0 => await (writeFile E (Path.join (OUTPUT E) (str "sitemap.xml"))
                                    (sitemapDocument E (COURSE_URLS w0) URLs)) w0) w)
    with (alone (await (writeFile E (Path.join (OUTPUT E) (str "sitemap.xml"))
                          (sitemapDocument E (COURSE_URLS w) URLs))) w).
  apply alone_await.
Qed.

(** ** What every turn keeps *)

Section Keeping.

Variable R : World -> World -> Prop.
Hypothesis R_refl : forall w, R w w.
Hypothesis R_trans : forall w1 w2 w3, R w1 w2 -> R w2 w3 -> R w1 w3.

Lemma keeps_now {A} (m : Async A) : preserves R m -> keeps R (Pending (now m)).
Proof.
  intros H; split.
  - intros w; specialize (H w); unfold now; destruct (m w); exact H.
  - intros w; unfold now; destruct (m w); exact I.
Qed.

Lemma keeps_await {A} (m : Async A) : preserves R m -> keeps R (Pending (await m)).
Proof.
  intros H; split; [intros w; apply R_refl|].
  intros w; now apply keeps_now.
Qed.

Lemma keeps_tret {A} (a : A) : keeps R (Pending (tret a)).
Proof. split; [intros w; apply R_refl|intros w; exact I]. Qed.

Lemma keeps_andThen {A B} (f : A -> Task B) (p : Promise A) :
  keeps R p -> (forall a, keeps R (Pending (f a))) ->
  forall w, R w (snd (andThen p f w)) /\ keeps R (fst (andThen p f w)).
Proof.
  intros Hp Hf; induction p as [r|k IH] using Promise_ind; intros w.
  - destruct r as [a|e]; simpl.
    + destruct (Hf a) as [H1 H2]; split; [apply H1|apply H2].
    + split; [apply R_refl|exact I].
  - destruct Hp as [Hk Hrest]; simpl; split; [apply R_refl|].
    split.
    + intros w1; specialize (IH w1 (Hrest w1)); specialize (Hk w1).
      destruct (k w1) as [p' w1']; simpl in *.
      eapply R_trans; [exact Hk|apply IH].
    + intros w1; specialize (IH w1 (Hrest w1)).
      destruct (k w1) as [p' w1']; simpl in *; apply IH.
Qed.

Lemma keeps_tbind {A B} (t : Task A) (f : A -> Task B) :
  keeps R (Pending t) -> (forall a, keeps R (Pending (f a))) ->
  keeps R (Pending (tbind t f)).
Proof.
  intros [Ht Hrest] Hf; split; intros w; unfold tbind;
    specialize (Ht w); specialize (Hrest w);
    destruct (t w) as [p w']; simpl in *;
    destruct (keeps_andThen f p Hrest Hf w') as [H1 H2]; [|exact H2].
  eapply R_trans; eassumption.
Qed.

Lemma keeps_caught {A} (h : jstring -> Async A) (p : Promise A) :
  keeps R p -> (forall e, preserves R (h e)) -> keeps R (caught p h).
Proof.
  intros Hp Hh; induction p as [r|k IH] using Promise_ind.
  - destruct r as [a|e]; [exact I|]; simpl; now apply keeps_now.
  - destruct Hp as [Hk Hrest]; simpl; split.
    + intros w; specialize (Hk w); destruct (k w); exact Hk.
    + intros w; specialize (IH w (Hrest w)); destruct (k w); exact IH.
Qed.

Lemma keeps_tcatch {A} (t : Task A) (h : jstring -> Async A) :
  keeps R (Pending t) -> (forall e, preserves R (h e)) -> keeps R (Pending (tcatch t h)).
Proof.
  intros [Ht Hrest] Hh; split; intros w; unfold tcatch;
    specialize (Ht w); specialize (Hrest w); destruct (t w) as [p w']; simpl in *.
  - exact Ht.
  - now apply keeps_caught.
Qed.

Lemma keeps_tforEach {A} (l : list A) (body : A -> Task unit) :
  (forall x, keeps R (Pending (body x))) -> keeps R (Pending (tforEach l body)).
Proof.
  intros H; induction l as [|x l IH]; simpl.
  - apply keeps_tret.
  - apply keeps_tbind; [apply H|intros _; exact IH].
Qed.

Lemma keeps_settle {A} (p : Promise A) : keeps R p -> forall w, R w (snd (settle p w)).
Proof.
  induction p as [r|k IH] using Promise_ind; intros Hp w; [apply R_refl|].
  destruct Hp as [Hk Hrest]; simpl.
  specialize (IH w (Hrest w)); specialize (Hk w).
  destruct (k w) as [p' w']; simpl in *.
  eapply R_trans; [exact Hk|apply IH].
Qed.

End Keeping.

(** ** Functions that do not read what they log *)

Lemma local_pointwise {A} (m m' : Async A) :
  (forall w, m w = m' w) -> local m' -> local m.
Proof. intros H Hm w; rewrite !H; apply Hm. Qed.

Lemma local_settle {A} (p : Promise A) :
  hereditarily (fun k => local (alone k)) p -> local (settle p).
Proof. destruct p as [r|k]; [intros _; apply local_lift|intros [H _]; exact H]. Qed.

Lemma hlocal_now {A} (m : Async A) :
  local m -> hereditarily (fun k => local (alone k)) (Pending (now m)).
Proof.
  intros H; split.
  - apply (local_pointwise _ m); [apply alone_now|exact H].
  - intros w; unfold now; destruct (m w); exact I.
Qed.

Lemma hlocal_await {A} (m : Async A) :
  local m -> hereditarily (fun k => local (alone k)) (Pending (await m)).
Proof.
  intros H; split.
  - apply (local_pointwise _ m); [apply alone_await|exact H].
  - intros w; now apply hlocal_now.
Qed.

Lemma hlocal_tret {A} (a : A) : hereditarily (fun k => local (alone k)) (Pending (tret a)).
Proof. split; [apply local_ret|intros w; exact I]. Qed.

Lemma hlocal_andThen {A B} (f : A -> Task B) (p : Promise A) :
  hereditarily (fun k => local (alone k)) p ->
  (forall a, hereditarily (fun k => local (alone k)) (Pending (f a))) ->
  forall w, hereditarily (fun k => local (alone k)) (fst (andThen p f w)).
Proof.
  intros Hp Hf; induction p as [r|k IH] using Promise_ind; intros w.
  - destruct r as [a|e]; simpl; [apply (Hf a)|exact I].
  - destruct Hp as [Hk Hrest]; simpl; split.
    + apply (local_pointwise _ (bind (alone k) (fun a => alone (f a)))).
      * intros w1; unfold alone at 1, bind, alone at 1.
        pose proof (settle_andThen f (fst (k w1)) (snd (k w1))) as H.
        unfold alone at 1, bind in H.
        destruct (k w1) as [p' w1']; exact H.
      * apply local_bind; [exact Hk|intros a; apply (Hf a)].
    + intros w1; specialize (IH w1 (Hrest w1)).
      destruct (k w1) as [p' w1']; apply IH.
Qed.

Lemma hlocal_tbind {A B} (t : Task A) (f : A -> Task B) :
  hereditarily (fun k => local (alone k)) (Pending t) ->
  (forall a, hereditarily (fun k => local (alone k)) (Pending (f a))) ->
  hereditarily (fun k => local (alone k)) (Pending (tbind t f)).
Proof.
  intros [Ht Hrest] Hf; split.
  - apply (local_pointwise _ (bind (alone t) (fun a => alone (f a)))).
    + intros w; apply alone_tbind.
    + apply local_bind; [exact Ht|intros a; apply (Hf a)].
  - intros w; unfold tbind; specialize (Hrest w).
    destruct (t w) as [p w']; now apply hlocal_andThen.
Qed.

Lemma hlocal_caught {A} (h : jstring -> Async A) (p : Promise A) :
  hereditarily (fun k => local (alone k)) p -> (forall e, local (h e)) ->
  hereditarily (fun k => local (alone k)) (caught p h).
Proof.
  intros Hp Hh; induction p as [r|k IH] using Promise_ind.
  - destruct r as [a|e]; [exact I|]; simpl; now apply hlocal_now.
  - destruct Hp as [Hk Hrest]; simpl; split.
    + apply (local_pointwise _ (catch (alone k) h)); [|now apply local_catch].
      intros w; unfold alone, catch.
      destruct (k w) as [p' w']; apply settle_caught.
    + intros w; specialize (IH w (Hrest w)); destruct (k w); exact IH.
Qed.

Lemma hlocal_tcatch {A} (t : Task A) (h : jstring -> Async A) :
  hereditarily (fun k => local (alone k)) (Pending t) -> (forall e, local (h e)) ->
  hereditarily (fun k => local (alone k)) (Pending (tcatch t h)).
Proof.
  intros [Ht Hrest] Hh; split.
  - apply (local_pointwise _ (catch (alone t) h)); [|now apply local_catch].
    intros w; apply alone_tcatch.
  - intros w; unfold tcatch; specialize (Hrest w).
    destruct (t w) as [p w']; now apply hlocal_caught.
Qed.

Lemma hlocal_tforEach {A} (l : list A) (body : A -> Task unit) :
  (forall x, hereditarily (fun k => local (alone k)) (Pending (body x))) ->
  hereditarily (fun k => local (alone k)) (Pending (tforEach l body)).
Proof.
  intros H; induction l as [|x l IH]; simpl.
  - apply hlocal_tret.
  - apply hlocal_tbind; [apply H|intros _; exact IH].
Qed.

(** ** Promises that are never rejected *)

Lemma resolves_caught (h : jstring -> Async unit) (p : Promise unit) :
  (forall e w, fst (h e w) = Ok tt) -> resolves (caught p h).
Proof.
  intros Hh; induction p as [r|k IH] using Promise_ind.
  - destruct r as [a|e]; [exact I|].
    simpl; intros w; unfold now; specialize (Hh e w).
    destruct (h e w) as [r w']; simpl in *; now subst r.
  - simpl; intros w; specialize (IH w); destruct (k w); exact IH.
Qed.

Lemma resolves_tcatch (t : Task unit) (h : jstring -> Async unit) :
  (forall e w, fst (h e w) = Ok tt) -> forall w, resolves (fst (tcatch t h w)).
Proof.
  intros Hh w; unfold tcatch; destruct (t w) as [p w']; now apply resolves_caught.
Qed.

Lemma resolves_settle (p : Promise unit) :
  resolves p -> forall w, fst (settle p w) = Ok tt.
Proof.
  induction p as [r|k IH] using Promise_ind; intros Hp w.
  - destruct r as [[]|e]; [reflexivity|destruct Hp].
  - simpl in *; specialize (IH w (Hp w)); destruct (k w) as [p' w']; apply IH.
Qed.

Lemma resolves_step (k : World -> Promise unit * World) w :
  resolves (Pending k) -> resolves (fst (k w)).
Proof. intros H; apply H. Qed.

(** ** Merges *)

Lemma Merge_app_at {A} (xs : list A) (ls1 : list (list A)) (l : list A) ls2 t :
  Merge (ls1 ++ l :: ls2) t -> Merge (ls1 ++ (xs ++ l) :: ls2) (xs ++ t).
Proof.
  intros H; induction xs as [|x xs IH]; [exact H|].
  simpl; now constructor.
Qed.

(** The lists one after the other are one of their merges. *)
Lemma Merge_concat {A} (ls : list (list A)) : Merge ls (List.concat ls).
Proof.
  induction ls as [|l ls IH]; [constructor; constructor|].
  simpl; rewrite <- (app_nil_r l) at 1.
  apply (Merge_app_at l [] [] ls).
  clear l; induction IH as [ls H|ls1 x l ls2 t _ IH'].
  - constructor; constructor; [reflexivity|exact H].
  - apply (Merge_cons ([] :: ls1)); exact IH'.
Qed.

Lemma Merge_In {A} (ls : list (list A)) (t : list A) :
  Merge ls t -> forall l x, In l ls -> In x l -> In x t.
Proof.
  induction 1 as [ls H|ls1 y l0 ls2 t _ IH]; intros l x Hl Hx.
  - rewrite Forall_forall in H; rewrite (H l Hl) in Hx; destruct Hx.
  - apply in_app_iff in Hl as [Hl|[<-|Hl]].
    + right; apply (IH l x); [|exact Hx]; apply in_app_iff; now left.
    + destruct Hx as [->|Hx]; [now left|].
      right; apply (IH l0 x); [|exact Hx]; apply in_app_iff; right; now left.
    + right; apply (IH l x); [|exact Hx]; apply in_app_iff; right; now right.
Qed.

Lemma Merge_In_inv {A} (ls : list (list A)) (t : list A) :
  Merge ls t -> forall x, In x t -> exists l, In l ls /\ In x l.
Proof.
  induction 1 as [ls H|ls1 y l0 ls2 t _ IH]; intros x Hx; [destruct Hx|].
  destruct Hx as [<-|Hx].
  - exists (y :: l0); split; [apply in_app_iff; right|]; now left.
  - destruct (IH x Hx) as (l & Hl & Hxl).
    apply in_app_iff in Hl as [Hl|[<-|Hl]].
    + exists l; split; [apply in_app_iff; now left|exact Hxl].
    + exists (y :: l0); split; [apply in_app_iff; right; now left|now right].
    + exists l; split; [apply in_app_iff; right; now right|exact Hxl].
Qed.

Lemma Merge_forallb {A} (f : A -> bool) (ls : list (list A)) (t : list A) :
  Merge ls t -> (forall l, In l ls -> forallb f l = true) -> forallb f t = true.
Proof.
  intros HM H; apply forallb_forall; intros x Hx.
  destruct (Merge_In_inv ls t HM x Hx) as (l & Hl & Hxl).
  specialize (H l Hl); rewrite forallb_forall in H; now apply H.
Qed.

(** An empty list plays no part in a merge. *)
Lemma Merge_drop_nil {A} (ls' : list (list A)) (t : list A) :
  Merge ls' t -> forall ls, ls' = [] :: ls -> Merge ls t.
Proof.
  induction 1 as [ls' H|ls1 x l ls2 t _ IH]; intros ls Heq.
  - subst; constructor; now inversion H.
  - destruct ls1 as [|l1 ls1]; [discriminate|].
    injection Heq as -> <-.
    constructor; apply IH; reflexivity.
Qed.

Lemma Merge_filter {A} (f : A -> bool) (ls : list (list A)) (t : list A) :
  Merge ls t -> Merge (map (filter f) ls) (filter f t).
Proof.
  induction 1 as [ls H|ls1 x l ls2 t _ IH].
  - constructor; rewrite Forall_forall in *; intros l Hl.
    apply in_map_iff in Hl as (l' & <- & Hl'); now rewrite (H l' Hl').
  - rewrite map_app in *; simpl in *.
    destruct (f x); [now constructor|exact IH].
Qed.

(** ** Lists of promises *)

Lemma nth_error_setNth_same {A} (l : list A) : forall i p,
  i < List.length l -> nth_error (setNth i p l) i = Some p.
Proof.
  induction l as [|x l IH]; intros [|i] p H; simpl in *; try lia; [reflexivity|].
  apply IH; lia.
Qed.

Lemma nth_error_setNth_other {A} (l : list A) : forall i j p,
  i <> j -> nth_error (setNth i p l) j = nth_error l j.
Proof.
  induction l as [|x l IH]; intros [|i] [|j] p H; simpl; try reflexivity; try congruence.
  apply IH; congruence.
Qed.

Lemma length_setNth {A} (l : list A) : forall i p,
  List.length (setNth i p l) = List.length l.
Proof. induction l as [|x l IH]; intros [|i] p; simpl; auto. Qed.

(** The list around the place [i]. *)
Lemma setNth_split {A} (l : list A) : forall i x,
  nth_error l i = Some x ->
  exists l1 l2, l = l1 ++ x :: l2 /\ forall p, setNth i p l = l1 ++ p :: l2.
Proof.
  induction l as [|y l IH]; intros [|i] x H; simpl in H; try discriminate.
  - injection H as ->; exists [], l; split; reflexivity.
  - destruct (IH i x H) as (l1 & l2 & -> & Hset).
    exists (y :: l1), l2; split; [reflexivity|].
    intros p; simpl; now rewrite Hset.
Qed.

Lemma Forall_setNth {A} (P : A -> Prop) (l : list A) i p :
  Forall P l -> P p -> Forall P (setNth i p l).
Proof.
  intros Hl Hp; revert i; induction Hl as [|x l Hx Hl IH]; intros [|i]; simpl;
    constructor; auto.
Qed.

Lemma setNth_app_last {A} (l : list A) (x p : A) :
  setNth (List.length l) p (l ++ [x]) = l ++ [p].
Proof. induction l as [|y l IH]; simpl; [reflexivity|now rewrite IH]. Qed.

(** ** Functions that take turns *)

Lemma remaining_bare {A} (p : Promise A) (w b : World) :
  bare w = bare b -> remaining p w = remaining p b.
Proof. unfold remaining; now intros ->. Qed.

(** One turn of a tame function: the published values stay, the events of
    the turn are the first of those that the function had still to add. *)
Lemma tame_turn {A} (k : World -> Promise A * World) (w : World) :
  tame (Pending k) ->
  bare (snd (k w)) = bare w
  /\ tame (fst (k w))
  /\ exists evs,
       trace (snd (k w)) = trace w ++ evs
       /\ remaining (Pending k) w = evs ++ remaining (fst (k w)) w.
Proof.
  intros [[Hcalm Hkeeps] [Hlocal Hrest]].
  destruct (Hcalm w) as [Hbare (evs & Hevs)].
  split; [exact Hbare|]. split; [split; [apply Hkeeps|apply Hrest]|].
  exists evs; split; [exact Hevs|].
  destruct (Hlocal w) as (_ & _ & _ & Ht).
  pose proof (local_settle _ (Hrest w) (snd (k w))) as (_ & _ & _ & Ht').
  unfold remaining; simpl settle.
  change (let (p', w') := k (bare w) in settle p' w') with (alone k (bare w)).
  assert (Hsame : alone k w = settle (fst (k w)) (snd (k w)))
    by (unfold alone; now destruct (k w)).
  rewrite Hsame, Ht', Hevs, Hbare, <- app_assoc in Ht.
  now apply app_inv_head in Ht.
Qed.

Lemma tame_settle {A} (p : Promise A) (w : World) :
  tame p ->
  bare (snd (settle p w)) = bare w
  /\ trace (snd (settle p w)) = trace w ++ remaining p w.
Proof.
  intros [Hkeeps Hlocal]; split.
  - assert (Hrefl : forall v, calm v v)
      by (intros v; split; [reflexivity|exists []; now rewrite app_nil_r]).
    assert (Htrans : forall w1 w2 w3, calm w1 w2 -> calm w2 w3 -> calm w1 w3).
    { intros w1 w2 w3 [H1 (a1 & Ha1)] [H2 (a2 & Ha2)]; split; [congruence|].
      exists (a1 ++ a2); now rewrite Ha2, Ha1, app_assoc. }
    apply (keeps_settle calm Hrefl Htrans p Hkeeps w).
  - apply (local_settle _ Hlocal w).
Qed.

Lemma tame_Done {A} (r : Result A) : tame (Done r).
Proof. split; exact I. Qed.

Lemma remaining_Done {A} (r : Result A) b : remaining (Done r) b = [].
Proof. reflexivity. Qed.

Lemma resolves_rejection (ns : list nat) (ps : list (Promise unit)) :
  Forall resolves ps -> rejection ns ps = None.
Proof.
  intros H; induction ns as [|i ns IH]; [reflexivity|]; simpl.
  destruct (nth_error ps i) as [[[[]|e]|k]|] eqn:Hi; try exact IH.
  apply nth_error_In in Hi; rewrite Forall_forall in H; destruct (H _ Hi).
Qed.

Lemma pendingIn_incl (P P' : list nat) ps :
  pendingIn P ps -> (forall i, In i P -> In i P') -> pendingIn P' ps.
Proof. intros H Hincl i p Hi; destruct (H i p Hi); auto. Qed.

Lemma taking_turns_incl EL t0 b P P' ps w :
  taking_turns EL t0 b P ps w -> (forall i, In i P -> In i P') ->
  taking_turns EL t0 b P' ps w.
Proof.
  intros (H1 & H2 & H3 & H4 & H5) Hincl; repeat split; try assumption.
  now apply (pendingIn_incl P).
Qed.

Lemma taking_turns_turn EL t0 b P ps w i :
  taking_turns EL t0 b P ps w ->
  taking_turns EL t0 b P (fst (turn i ps w)) (snd (turn i ps w)).
Proof.
  intros (Htame & Hres & Hbare & Hpend & added & Ht & Hacc); unfold turn.
  destruct (nth_error ps i) as [[r|k]|] eqn:Hi;
    try (repeat split; try assumption; exists added; now split).
  assert (Hk : tame (Pending k))
    by (rewrite Forall_forall in Htame; apply Htame; eapply nth_error_In; eassumption).
  assert (Hr : resolves (Pending k))
    by (rewrite Forall_forall in Hres; apply Hres; eapply nth_error_In; eassumption).
  destruct (tame_turn k w Hk) as (Hb & Hk' & evs & Hevs & Hrem).
  destruct (setNth_split ps i _ Hi) as (ps1 & ps2 & -> & Hset).
  destruct (k w) as [p' w'] eqn:Hkw; simpl in *.
  rewrite Hset; repeat split.
  - apply Forall_app in Htame as [T1 T2]; inversion T2; subst.
    apply Forall_app; split; [assumption|constructor; assumption].
  - apply Forall_app in Hres as [R1 R2]; inversion R2; subst.
    apply Forall_app; split; [assumption|constructor; [|assumption]].
    specialize (Hr w); now rewrite Hkw in Hr.
  - congruence.
  - intros j p Hj.
    destruct (Nat.eq_dec j i) as [->|Hne].
    + right. destruct (Hpend i (Pending k) Hi) as [H|H]; [discriminate|exact H].
    + apply (Hpend j p); rewrite <- Hj.
      rewrite <- (Hset p'), <- (Hset (Pending k)).
      rewrite !nth_error_setNth_other by congruence; reflexivity.
  - exists (added ++ evs); split; [now rewrite Hevs, Ht, app_assoc|].
    intros extra L HM.
    rewrite map_app in HM; simpl in HM; rewrite <- app_assoc in HM; simpl in HM.
    apply (Merge_app_at evs) in HM.
    rewrite (remaining_bare (Pending k) w b Hbare),
            (remaining_bare p' w b Hbare) in Hrem.
    rewrite <- Hrem in HM.
    rewrite <- app_assoc; apply Hacc.
    rewrite map_app; simpl; rewrite <- app_assoc; exact HM.
Qed.

Lemma taking_turns_turns EL t0 b P chunk : forall ps w,
  taking_turns EL t0 b P ps w ->
  taking_turns EL t0 b P (fst (turns chunk ps w)) (snd (turns chunk ps w)).
Proof.
  induction chunk as [|i chunk IH]; intros ps w H; [exact H|].
  simpl; pose proof (taking_turns_turn EL t0 b P ps w i H) as H1.
  destruct (turn i ps w) as [ps' w']; apply IH, H1.
Qed.

(** A function that takes all the turns it still needs. *)
Lemma taking_turns_finish EL t0 b P ps w i :
  taking_turns EL t0 b P ps w ->
  taking_turns EL t0 b P (fst (finish i ps w)) (snd (finish i ps w))
  /\ forall p, nth_error (fst (finish i ps w)) i = Some p -> isDone p = true.
Proof.
  intros (Htame & Hres & Hbare & Hpend & added & Ht & Hacc); unfold finish.
  destruct (nth_error ps i) as [p|] eqn:Hi.
  2:{ simpl; split; [|intros p Hp; congruence].
      repeat split; try assumption; exists added; now split. }
  assert (Hp : tame p)
    by (rewrite Forall_forall in Htame; apply Htame; eapply nth_error_In; eassumption).
  assert (Hr : resolves p)
    by (rewrite Forall_forall in Hres; apply Hres; eapply nth_error_In; eassumption).
  destruct (tame_settle p w Hp) as [Hb Hevs].
  pose proof (resolves_settle p Hr w) as Hok.
  destruct (setNth_split ps i _ Hi) as (ps1 & ps2 & -> & Hset).
  assert (Hlen : i < List.length (ps1 ++ p :: ps2))
    by (apply nth_error_Some; congruence).
  destruct (settle p w) as [r w'] eqn:Hs; simpl in *; subst r.
  split.
  2:{ intros q Hq; rewrite nth_error_setNth_same in Hq by exact Hlen.
      now injection Hq as <-. }
  rewrite Hset; repeat split.
  - apply Forall_app in Htame as [T1 T2]; inversion T2; subst.
    apply Forall_app; split; [assumption|constructor; [apply tame_Done|assumption]].
  - apply Forall_app in Hres as [R1 R2]; inversion R2; subst.
    apply Forall_app; split; [assumption|constructor; [exact I|assumption]].
  - congruence.
  - intros j q Hj.
    destruct (Nat.eq_dec j i) as [->|Hne].
    + left; rewrite <- (Hset (Done (Ok tt))) in Hj.
      rewrite nth_error_setNth_same in Hj by exact Hlen.
      now injection Hj as <-.
    + apply (Hpend j q); rewrite <- Hj.
      rewrite <- (Hset (Done (Ok tt))), <- (Hset p).
      rewrite !nth_error_setNth_other by congruence; reflexivity.
  - exists (added ++ remaining p w); split; [now rewrite Hevs, Ht, app_assoc|].
    intros extra L HM.
    rewrite map_app in HM; simpl in HM; rewrite <- app_assoc in HM; simpl in HM.
    rewrite remaining_Done in HM.
    apply (Merge_app_at (remaining p w)) in HM; rewrite app_nil_r in HM.
    rewrite (remaining_bare p w b Hbare) in *.
    rewrite <- app_assoc; apply Hacc.
    rewrite map_app; simpl; rewrite <- app_assoc; exact HM.
Qed.

Lemma taking_turns_finishAll EL t0 b ns todo : forall P ps w,
  taking_turns EL t0 b (todo ++ P) ps w ->
  taking_turns EL t0 b P (fst (finishAll ns todo ps w)) (snd (finishAll ns todo ps w)).
Proof.
  induction todo as [|i todo IH]; intros P ps w H; [exact H|].
  simpl; rewrite resolves_rejection by apply H.
  destruct (taking_turns_finish EL t0 b _ ps w i H) as [H1 Hdone].
  destruct (finish i ps w) as [ps' w']; simpl in *.
  apply IH.
  destruct H1 as (T & R & B & Hpend & Hadded); repeat split; try assumption.
  intros j q Hj; destruct (Hpend j q Hj) as [Hd|[<-|Hin]];
    [now left|left; now apply Hdone|now right].
Qed.

(** When nothing is pending any more, what was added is a merge of the
    lists. *)
Lemma taking_turns_idle EL t0 b ps w :
  taking_turns EL t0 b [] ps w ->
  Forall (fun p => isDone p = true) ps
  /\ bare w = bare b
  /\ exists added, trace w = t0 ++ added /\ Merge EL added.
Proof.
  intros (Htame & Hres & Hbare & Hpend & added & Ht & Hacc).
  assert (Hdone : Forall (fun p => isDone p = true) ps).
  { apply Forall_forall; intros p Hp; apply In_nth_error in Hp as (i & Hi).
    destruct (Hpend i p Hi) as [H|[]]; exact H. }
  split; [exact Hdone|]. split; [exact Hbare|].
  exists added; split; [exact Ht|].
  specialize (Hacc [] []); rewrite !app_nil_r in Hacc; apply Hacc.
  constructor; apply Forall_forall; intros l Hl.
  apply in_map_iff in Hl as (p & <- & Hp).
  rewrite Forall_forall in Hdone; specialize (Hdone p Hp).
  destruct p; [reflexivity|discriminate].
Qed.

(** A loop in which nothing is pending. *)
Lemma idle_taking_turns ps w :
  Forall (fun p => isDone p = true) ps -> Forall resolves ps ->
  taking_turns (map (fun _ => []) ps) (trace w) w [] ps w.
Proof.
  intros Hdone Hres; repeat split.
  - apply Forall_forall; intros p Hp; rewrite Forall_forall in Hdone.
    specialize (Hdone p Hp); destruct p; [apply tame_Done|discriminate].
  - exact Hres.
  - intros i p Hi; left; rewrite Forall_forall in Hdone.
    apply Hdone; eapply nth_error_In; eassumption.
  - exists []; split; [now rewrite app_nil_r|].
    intros extra L HM; simpl.
    assert (Heq : map (fun p : Promise unit => remaining p w) ps
                  = map (fun _ => []) ps).
    { apply map_ext_in; intros p Hp; rewrite Forall_forall in Hdone.
      specialize (Hdone p Hp); destruct p; [reflexivity|discriminate]. }
    now rewrite <- Heq.
Qed.

(** A call made while functions take turns. *)
Lemma taking_turns_start EL t0 b P ps w (t : Task unit) :
  taking_turns EL t0 b P ps w ->
  tame (Pending t) -> (forall v, resolves (fst (t v))) ->
  taking_turns (EL ++ [expected t b]) t0 b (P ++ [List.length ps])
    (ps ++ [fst (t w)]) (snd (t w)).
Proof.
  intros (Htame & Hres & Hbare & Hpend & added & Ht & Hacc) Htask Hrt.
  destruct (tame_turn t w Htask) as (Hb & Hp & evs & Hevs & Hrem).
  repeat split.
  - apply Forall_app; split; [assumption|constructor; [assumption|constructor]].
  - apply Forall_app; split; [assumption|constructor; [apply Hrt|constructor]].
  - congruence.
  - intros j q Hj.
    destruct (Nat.lt_ge_cases j (List.length ps)) as [Hlt|Hge].
    + rewrite nth_error_app1 in Hj by exact Hlt.
      destruct (Hpend j q Hj) as [H|H]; [now left|right; apply in_app_iff; now left].
    + right; apply in_app_iff; right.
      assert (Hjlen : j < List.length (ps ++ [fst (t w)]))
        by (apply nth_error_Some; congruence).
      rewrite length_app in Hjlen; simpl in Hjlen; left; lia.
  - exists (added ++ evs); split; [now rewrite Hevs, Ht, app_assoc|].
    intros extra L HM.
    rewrite map_app in HM; simpl in HM; rewrite <- app_assoc in HM; simpl in HM.
    apply (Merge_app_at evs) in HM.
    rewrite (remaining_bare _ w b Hbare), (remaining_bare _ w b Hbare) in Hrem.
    rewrite <- Hrem in HM.
    change (remaining (Pending t) b) with (expected t b) in HM.
    rewrite <- !app_assoc; simpl; apply Hacc; exact HM.
Qed.

(** ** The code of [buildAssets] between its awaits *)

Lemma start_turning EL t0 b P s (t : Task unit) :
  turning EL t0 b P s ->
  tame (Pending t) -> (forall v, resolves (fst (t v))) ->
  exists s',
    start t s = (Ok (List.length (started s)), s')
    /\ turning (EL ++ [expected t b]) t0 b (P ++ [List.length (started s)]) s'
    /\ schedule s' = schedule s.
Proof.
  intros H Ht Hr; unfold start.
  pose proof (taking_turns_start EL t0 b P _ _ t H Ht Hr) as H'.
  destruct (t (world s)) as [p w']; eexists; split; [reflexivity|].
  split; [exact H'|reflexivity].
Qed.

Lemma awaitPromise_turning EL t0 b P P' s n :
  turning EL t0 b P s ->
  (forall j, In j P -> j = n \/ In j P') ->
  exists s',
    awaitPromise n s = (Ok tt, s')
    /\ turning EL t0 b P' s'
    /\ schedule s' = tl (schedule s).
Proof.
  intros H Hincl; unfold awaitPromise.
  pose proof (taking_turns_turns EL t0 b P (hd [] (schedule s)) _ _ H) as H1.
  destruct (turns _ (started s) (world s)) as [ps1 w1]; simpl in H1.
  destruct (taking_turns_finish EL t0 b P ps1 w1 n H1) as [H2 Hdone].
  destruct (finish n ps1 w1) as [ps2 w2]; cbn [fst snd] in *.
  rewrite (resolves_rejection [n] ps2) by apply H2.
  eexists; split; [reflexivity|]. split; [|reflexivity].
  unfold turning; simpl.
  destruct H2 as (T & R & B & Hpend & Hadded); repeat split; try assumption.
  intros j q Hj; destruct (Hpend j q Hj) as [Hd|Hin]; [now left|].
  destruct (Hincl j Hin) as [->|Hin']; [left; now apply Hdone|now right].
Qed.

Lemma awaitAll_turning EL t0 b P s ns :
  turning EL t0 b P s ->
  (forall j, In j P -> In j ns) ->
  exists s',
    awaitAll ns s = (Ok tt, s')
    /\ turning EL t0 b [] s'
    /\ schedule s' = tl (schedule s).
Proof.
  intros H Hincl; unfold awaitAll.
  pose proof (taking_turns_turns EL t0 b P (hd [] (schedule s)) _ _ H) as H1.
  destruct (turns _ (started s) (world s)) as [ps1 w1]; simpl in H1.
  assert (H1' : taking_turns EL t0 b (ns ++ []) ps1 w1)
    by (apply (taking_turns_incl EL t0 b P); [exact H1|];
        intros j Hj; rewrite app_nil_r; auto).
  pose proof (taking_turns_finishAll EL t0 b ns ns [] ps1 w1 H1') as H2.
  destruct (finishAll ns ns ps1 w1) as [ps2 w2]; cbn [fst snd] in *.
  rewrite (resolves_rejection ns ps2) by apply H2.
  eexists; split; [reflexivity|]. split; [exact H2|reflexivity].
Qed.

Lemma startEach_turning {A} (f : A -> Task unit) b t0 :
  (forall x, tame (Pending (f x))) -> (forall x v, resolves (fst (f x v))) ->
  forall (l : list A) EL P s,
    turning EL t0 b P s ->
    exists ns s',
      startEach l f s = (Ok ns, s')
      /\ turning (EL ++ map (fun x => expected (f x) b) l) t0 b (P ++ ns) s'
      /\ schedule s' = schedule s.
Proof.
  intros Ht Hr; induction l as [|x l IH]; intros EL P s H.
  - exists [], s; split; [reflexivity|]. now rewrite !app_nil_r.
  - destruct (start_turning EL t0 b P s (f x) H (Ht x) (Hr x)) as (s1 & H1 & T1 & S1).
    destruct (IH _ _ s1 T1) as (ns & s2 & H2 & T2 & S2).
    exists (List.length (started s) :: ns), s2.
    simpl; unfold mbind; rewrite H1, H2; split; [reflexivity|].
    rewrite <- !app_assoc in T2; simpl in T2.
    split; [exact T2|congruence].
Qed.

(** ** A call that is awaited while nothing else is pending *)

Lemma turn_idle (ps : list (Promise unit)) (q : Promise unit) (v : World) (i : nat) :
  Forall (fun p => isDone p = true) ps ->
  exists q' v',
    turn i (ps ++ [q]) v = (ps ++ [q'], v') /\ settle q' v' = settle q v.
Proof.
  intros Hdone; unfold turn.
  destruct (Nat.lt_trichotomy i (List.length ps)) as [Hlt|[->|Hgt]].
  - rewrite nth_error_app1 by exact Hlt.
    destruct (nth_error ps i) as [p|] eqn:Hi; [|exists q, v; now split].
    rewrite Forall_forall in Hdone; specialize (Hdone p (nth_error_In _ _ Hi)).
    destruct p; [exists q, v; now split|discriminate].
  - rewrite nth_error_app2, Nat.sub_diag by lia; simpl.
    destruct q as [r|k]; [exists (Done r), v; now split|].
    destruct (k v) as [q' v'] eqn:Hk; exists q', v'.
    rewrite setNth_app_last; split; [reflexivity|].
    simpl; now rewrite Hk.
  - assert (Hnone : nth_error (ps ++ [q]) i = None)
      by (apply nth_error_None; rewrite length_app; simpl; lia).
    rewrite Hnone; exists q, v; now split.
Qed.

Lemma turns_idle (ps : list (Promise unit)) (chunk : list nat) :
  Forall (fun p => isDone p = true) ps ->
  forall q v,
  exists q' v',
    turns chunk (ps ++ [q]) v = (ps ++ [q'], v') /\ settle q' v' = settle q v.
Proof.
  intros Hdone; induction chunk as [|i chunk IH]; intros q v.
  - exists q, v; now split.
  - destruct (turn_idle ps q v i Hdone) as (q1 & v1 & H1 & S1).
    destruct (IH q1 v1) as (q2 & v2 & H2 & S2).
    exists q2, v2; simpl; rewrite H1, H2; split; [reflexivity|congruence].
Qed.

(** With nothing else pending, a call that is awaited does what it does
    alone, whatever the schedule says. *)
Lemma awaitNew_idle (t : Task unit) (s : Loop) :
  Forall (fun p => isDone p = true) (started s) ->
  awaitNew t s
  = (fst (alone t (world s)),
     {| started := started s ++ [Done (fst (alone t (world s)))];
        world := snd (alone t (world s));
        schedule := tl (schedule s) |}).
Proof.
  intros Hdone; unfold awaitNew, mbind, start, alone.
  destruct (t (world s)) as [p w1]; unfold awaitPromise; cbn [started world schedule].
  destruct (turns_idle (started s) (hd [] (schedule s)) Hdone p w1)
    as (q & v & Hturns & Hsettle).
  rewrite Hturns; unfold finish.
  rewrite nth_error_app2, Nat.sub_diag by lia; cbn [nth_error].
  rewrite Hsettle; destruct (settle p w1) as [r w2]; cbn [fst snd].
  rewrite setNth_app_last; unfold rejection.
  rewrite nth_error_app2, Nat.sub_diag by lia; cbn [nth_error].
  destruct r as [[]|e]; reflexivity.
Qed.

(** ** The units are tame *)

Lemma calm_refl w : calm w w.
Proof. split; [reflexivity|exists []; now rewrite app_nil_r]. Qed.

Lemma calm_trans w1 w2 w3 : calm w1 w2 -> calm w2 w3 -> calm w1 w3.
Proof.
  intros [H1 (a1 & Ha1)] [H2 (a2 & Ha2)]; split; [congruence|].
  exists (a1 ++ a2); now rewrite Ha2, Ha1, app_assoc.
Qed.

Lemma calm_emit e : preserves calm (emit e).
Proof. intros w; split; [reflexivity|exists [e]; reflexivity]. Qed.

Lemma calm_watchFiles fs r : preserves calm (watchFiles fs r).
Proof. intros w; split; [reflexivity|exists []; simpl; now rewrite app_nil_r]. Qed.

Lemma calm_getIconsPath : preserves calm getIconsPath.
Proof. intros w; apply calm_refl. Qed.

#[export] Hint Resolve calm_refl calm_trans calm_emit calm_watchFiles calm_getIconsPath
  : frame.

Lemma calm_writeFile E d t : preserves calm (writeFile E d t).
Proof. unfold writeFile; frame. Qed.

Lemma calm_success id : preserves calm (success id).
Proof. apply calm_emit. Qed.

Lemma calm_error id e : preserves calm (error id e).
Proof. apply calm_emit. Qed.

#[export] Hint Resolve calm_writeFile calm_success calm_error : frame.

(** A task is taken apart down to its synchronous pieces. *)
Ltac tame_step :=
  match goal with
  | |- forall _, _ => intro
  | |- tame (Pending _) => split
  | |- keeps calm (Pending (tbind _ _)) => apply (keeps_tbind calm calm_refl calm_trans)
  | |- keeps calm (Pending (tcatch _ _)) => apply (keeps_tcatch calm)
  | |- keeps calm (Pending (tforEach _ _)) => apply (keeps_tforEach calm calm_refl calm_trans)
  | |- keeps calm (Pending (tret _)) => apply (keeps_tret calm calm_refl)
  | |- keeps calm (Pending (now _)) => apply (keeps_now calm)
  | |- keeps calm (Pending (await _)) => apply (keeps_await calm calm_refl)
  | |- hereditarily _ (Pending (tbind _ _)) => apply hlocal_tbind
  | |- hereditarily _ (Pending (tcatch _ _)) => apply hlocal_tcatch
  | |- hereditarily _ (Pending (tforEach _ _)) => apply hlocal_tforEach
  | |- hereditarily _ (Pending (tret _)) => apply hlocal_tret
  | |- hereditarily _ (Pending (now _)) => apply hlocal_now
  | |- hereditarily _ (Pending (await _)) => apply hlocal_await
  | |- keeps _ (Pending (if ?b then _ else _)) => destruct b
  | |- hereditarily _ (Pending (if ?b then _ else _)) => destruct b
  end.

Ltac tameness :=
  repeat tame_step; try solve [eauto with frame | eauto with locality | frame | locality].

Lemma tame_bundleStyles E srcPath destPath minify watch :
  tame (Pending (Tasks.bundleStyles E srcPath destPath minify watch)).
Proof. unfold Tasks.bundleStyles; tameness. Qed.

Lemma tame_bundleLocales E srcPath destPath minify watch options : forall ls inputs,
  tame (Pending (Tasks.bundleLocales E srcPath destPath minify watch options inputs ls)).
Proof.
  induction ls as [|l ls IH]; intros inputs; simpl; [tameness|].
  split; tameness; apply IH.
Qed.

Lemma tame_bundleScripts E srcPath destPath minify watch options :
  tame (Pending (Tasks.bundleScripts E srcPath destPath minify watch options)).
Proof.
  unfold Tasks.bundleScripts.
  destruct (endsWith (str ".d.ts") srcPath); [tameness|].
  pose proof (tame_bundleLocales E srcPath (jsDest destPath) minify watch options
                (localesOf options) None) as [H1 H2].
  split; tameness; try assumption; destruct a; tameness.
Qed.

Lemma tame_createPolyfill E : tame (Pending (Tasks.createPolyfill E)).
Proof. unfold Tasks.createPolyfill; tameness. Qed.

Lemma tame_unitTask E minify watch u : tame (Pending (unitTask E minify watch u)).
Proof.
  unfold unitTask.
  pose proof (tame_bundleScripts E) as Hs.
  pose proof (tame_bundleStyles E) as Hc.
  pose proof (tame_createPolyfill E) as [Hp1 Hp2].
  destruct u; split; tameness; try assumption; first [apply Hs|apply Hc].
Qed.

Lemma resolves_unitTask E minify watch u w : resolves (fst (unitTask E minify watch u w)).
Proof. unfold unitTask; now apply resolves_tcatch. Qed.

(** The events of the task awaited alone are the events of the unit. *)
Lemma alone_unitTask E minify watch u w :
  alone (unitTask E minify watch u) w = guarded E minify watch u w.
Proof.
  unfold unitTask, guarded; rewrite alone_tcatch; unfold catch.
  destruct u; simpl;
    [rewrite alone_bundleScripts|rewrite alone_createPolyfill|rewrite alone_bundleStyles];
    reflexivity.
Qed.

Lemma expected_unitTask E minify watch u b :
  expected (unitTask E minify watch u) b = unitEvents E minify watch b u.
Proof. unfold expected, unitEvents; now rewrite alone_unitTask. Qed.

(** ** The stages of [buildAssets] *)

Local Open Scope main_scope.

(** The loop over the top-level scripts passes over declaration files. *)
Lemma topLevelScripts_filter E minify watch l s :
  topLevelScripts E minify watch l s
  = startEach (filter (fun a => negb (endsWith (str ".d.ts") (src a))) l)
      (fun a => tcatch (Tasks.bundleScripts E (src a) (dest a) minify watch noOptions)
                       (error (src a))) s.
Proof.
  revert s; induction l as [|a l IH]; intros s; [reflexivity|].
  cbn [topLevelScripts filter].
  destruct (endsWith (str ".d.ts") (src a)); cbn [negb startEach]; [apply IH|].
  unfold mbind.
  destruct (start _ s) as [[p|e] s1]; [|reflexivity].
  now rewrite IH.
Qed.

(** The icon stage: the first call, awaited alone. *)
Lemma iconStage_alone E w :
  alone (tcatch (Tasks.bundleIcons E) (error (str "icons.svg"))) w = iconStage E w.
Proof.
  rewrite alone_tcatch; unfold iconStage, catch; now rewrite alone_bundleIcons.
Qed.

Lemma courseTask_alone E id locale ls watch w :
  alone (tcatch (Tasks.bundleMarkdown E id locale ls watch (CONTENT E))
                (error (courseLabel id locale))) w
  = catch (bundleMarkdown E id locale ls watch (CONTENT E)) (error (courseLabel id locale)) w.
Proof. rewrite alone_tcatch; unfold catch; now rewrite alone_bundleMarkdown. Qed.

Lemma sitemapTask_alone E w :
  alone (tcatch (Tasks.createSitemap E []) (error (str "sitemap.xml"))) w
  = catch (createSitemap E []) (error (str "sitemap.xml")) w.
Proof. rewrite alone_tcatch; unfold catch; now rewrite alone_createSitemap. Qed.

Lemma Forall_isDone_app (ps : list (Promise unit)) (r : Result unit) :
  Forall (fun p => isDone p = true) ps ->
  Forall (fun p => isDone p = true) (ps ++ [Done r]).
Proof. intros H; apply Forall_app; split; [exact H|repeat constructor]. Qed.

(** The course stage starts with nothing pending, and so each course
    build runs alone, one after the other. *)
Lemma courseStage_trace E watch ls : forall courses s,
  Forall (fun p => isDone p = true) (started s) ->
  exists s',
    courseStage E watch courses ls s = (Ok tt, s')
    /\ Forall (fun p => isDone p = true) (started s')
    /\ trace (world s') = trace (world s) ++ courseStageEvents E courses ls
    /\ iconsPath (world s') = iconsPath (world s).
Proof.
  assert (Hinner : forall id inner s,
            Forall (fun p => isDone p = true) (started s) ->
            exists s',
              mforEach inner (fun locale =>
                awaitNew (tcatch (Tasks.bundleMarkdown E id locale ls watch (CONTENT E))
                                 (error (courseLabel id locale)))) s = (Ok tt, s')
              /\ Forall (fun p => isDone p = true) (started s')
              /\ trace (world s')
                 = trace (world s) ++ List.concat (map (fun l => courseEvents E id l ls) inner)
              /\ iconsPath (world s') = iconsPath (world s)).
  { intros id inner; induction inner as [|l inner IH]; intros s Hs.
    - exists s; repeat split; [exact Hs|simpl; now rewrite app_nil_r].
    - destruct (guarded_course_trace E id l ls watch (world s)) as (w1 & H1 & Ht1 & Hi1).
      simpl; unfold mbind; rewrite (awaitNew_idle _ s Hs), courseTask_alone, H1.
      cbn [fst snd].
      match goal with
      | |- context [mforEach inner _ ?s1] => destruct (IH s1) as (s2 & H2 & Hd2 & Ht2 & Hi2)
      end; [now apply Forall_isDone_app|].
      exists s2; rewrite H2; repeat split; try assumption.
      + rewrite Ht2; simpl; rewrite Ht1; now rewrite <- app_assoc.
      + rewrite Hi2; exact Hi1. }
  unfold courseStage, courseStageEvents.
  induction courses as [|id courses IH]; intros s Hs.
  - exists s; repeat split; [exact Hs|simpl; now rewrite app_nil_r].
  - destruct (Hinner id ls s Hs) as (s1 & H1 & Hd1 & Ht1 & Hi1).
    destruct (IH s1 Hd1) as (s2 & H2 & Hd2 & Ht2 & Hi2).
    exists s2; simpl; unfold mbind; rewrite H1, H2; repeat split; try assumption.
    + rewrite Ht2, Ht1; simpl; now rewrite <- app_assoc.
    + congruence.
Qed.

Lemma guarded_sitemap_icons E w :
  iconsPath (snd (catch (createSitemap E []) (error (str "sitemap.xml")) w)) = iconsPath w.
Proof.
  unfold catch, createSitemap, writeFile, error, bind, lift, emit.
  destruct (fsWrite E _ _) as [[]|e]; reflexivity.
Qed.

(** The stages between the icon stage and the course stage: the units are
    started one after the other and take turns as the schedule says; when
    [Promise.all] has returned none is pending, no published value has
    changed, and what was added to the trace is a merge of the events that
    each unit adds when it runs alone. *)
Lemma concurrentStages_trace E minify watch (rest : Main unit) (s : Loop) :
  Forall (fun p => isDone p = true) (started s) ->
  Forall resolves (started s) ->
  exists s' conc,
    (scripts <- topLevelScripts E minify watch (getAssetFiles E (str "*.ts")) ;;
     awaitNew (tcatch (Tasks.createPolyfill E) (error (str "polyfill.js"))) ;;
     styles <- startEach (getAssetFiles E (str "*.scss")) (fun a =>
       tcatch (Tasks.bundleStyles E (src a) (dest a) minify watch) (error (src a))) ;;
     courseScripts <-
       startEach (findFiles E (str "!(shared|_*)/*.ts") (CONTENT E)
                    (OUTPUT E ++ str "/content"))
         (fun a => tcatch (Tasks.bundleScripts E (fst a) (snd a) minify watch stepFunctions)
                          (error (fst a))) ;;
     courseStyles <-
       startEach (findFiles E (str "!(shared|_*)/*.scss") (CONTENT E)
                    (OUTPUT E ++ str "/content"))
         (fun a => tcatch (Tasks.bundleStyles E (fst a) (snd a) minify watch)
                          (error (fst a))) ;;
     awaitAll (scripts ++ styles ++ courseScripts ++ courseStyles) ;;
     rest) s
    = rest s'
    /\ Forall (fun p => isDone p = true) (started s')
    /\ bare (world s') = bare (world s)
    /\ trace (world s') = trace (world s) ++ conc
    /\ Merge (map (unitEvents E minify watch (world s)) (concurrentUnits E)) conc.
Proof.
  intros Hdone Hres.
  set (b := world s).
  pose proof (idle_taking_turns (started s) (world s) Hdone Hres) as T0.
  fold b in T0.
  change (taking_turns (map (fun _ => []) (started s)) (trace b) b [] (started s) (world s))
    with (turning (map (fun _ => []) (started s)) (trace b) b [] s) in T0.
  (* the top-level scripts *)
  destruct (startEach_turning
              (fun a => tcatch (Tasks.bundleScripts E (src a) (dest a) minify watch noOptions)
                               (error (src a))) b (trace b)
              (fun a => tame_unitTask E minify watch (UScript (src a) (dest a) noOptions))
              (fun a => resolves_unitTask E minify watch (UScript (src a) (dest a) noOptions))
              (filter (fun a => negb (endsWith (str ".d.ts") (src a)))
                      (getAssetFiles E (str "*.ts"))) _ _ s T0)
    as (scripts & s1 & H1 & T1 & _).
  (* the polyfill *)
  destruct (start_turning _ _ _ _ s1 _ T1 (tame_unitTask E minify watch UPolyfill)
              (resolves_unitTask E minify watch UPolyfill)) as (s2 & H2 & T2 & _).
  change (unitTask E minify watch UPolyfill)
    with (tcatch (Tasks.createPolyfill E) (error (str "polyfill.js"))) in H2.
  destruct (awaitPromise_turning _ _ _ _ ([] ++ scripts) s2 (List.length (started s1)) T2)
    as (s3 & H3 & T3 & _).
  { intros j Hj; apply in_app_iff in Hj as [Hj|[<-|[]]]; [now right|now left]. }
  (* the stylesheets and the units of the courses *)
  destruct (startEach_turning
              (fun a => tcatch (Tasks.bundleStyles E (src a) (dest a) minify watch)
                               (error (src a))) b (trace b)
              (fun a => tame_unitTask E minify watch (UStyle (src a) (dest a)))
              (fun a => resolves_unitTask E minify watch (UStyle (src a) (dest a)))
              (getAssetFiles E (str "*.scss")) _ _ s3 T3)
    as (styles & s4 & H4 & T4 & _).
  destruct (startEach_turning
              (fun a : jstring * jstring =>
                 tcatch (Tasks.bundleScripts E (fst a) (snd a) minify watch stepFunctions)
                        (error (fst a))) b (trace b)
              (fun a => tame_unitTask E minify watch (UScript (fst a) (snd a) stepFunctions))
              (fun a => resolves_unitTask E minify watch
                          (UScript (fst a) (snd a) stepFunctions))
              (findFiles E (str "!(shared|_*)/*.ts") (CONTENT E) (OUTPUT E ++ str "/content"))
              _ _ s4 T4)
    as (courseScripts & s5 & H5 & T5 & _).
  destruct (startEach_turning
              (fun a : jstring * jstring =>
                 tcatch (Tasks.bundleStyles E (fst a) (snd a) minify watch) (error (fst a)))
              b (trace b)
              (fun a => tame_unitTask E minify watch (UStyle (fst a) (snd a)))
              (fun a => resolves_unitTask E minify watch (UStyle (fst a) (snd a)))
              (findFiles E (str "!(shared|_*)/*.scss") (CONTENT E) (OUTPUT E ++ str "/content"))
              _ _ s5 T5)
    as (courseStyles & s6 & H6 & T6 & _).
  destruct (awaitAll_turning _ _ _ _ s6
              (scripts ++ styles ++ courseScripts ++ courseStyles) T6)
    as (s7 & H7 & T7 & _).
  { intros j Hj; rewrite !in_app_iff in *; simpl in Hj; tauto. }
  destruct (taking_turns_idle _ _ _ _ _ T7) as (Hidle & Hbare & conc & Htrace & Hmerge).
  exists s7, conc.
  split.
  { unfold mbind at 1; rewrite topLevelScripts_filter, H1.
    unfold mbind at 1, awaitNew, mbind at 1; rewrite H2, H3.
    unfold mbind at 1; rewrite H4.
    unfold mbind at 1; rewrite H5.
    unfold mbind at 1; rewrite H6.
    unfold mbind at 1; rewrite H7; reflexivity. }
  split; [exact Hidle|]. split; [exact Hbare|]. split; [exact Htrace|].
  (* the lists of the merge are the events of the units *)
  assert (Hnil : forall (ps : list (Promise unit)) (ls : list (list Event)) t,
            Merge (map (fun _ => []) ps ++ ls) t -> Merge ls t).
  { induction ps as [|p ps IH]; intros ls t HM; [exact HM|].
    apply IH; simpl in HM; eapply Merge_drop_nil; [exact HM|reflexivity]. }
  rewrite <- !app_assoc in Hmerge; apply Hnil in Hmerge.
  assert (Hev : forall u, expected (unitTask E minify watch u) b
                          = unitEvents E minify watch b u)
    by (intros u; apply expected_unitTask).
  unfold unitTask in Hev.
  assert (HEL : forall {A} (g : A -> Unit) (l : list A),
            map (fun a => expected (tcatch match g a with
                                           | UScript srcPath destPath options =>
                                               Tasks.bundleScripts E srcPath destPath
                                                 minify watch options
                                           | UPolyfill => Tasks.createPolyfill E
                                           | UStyle srcPath destPath =>
                                               Tasks.bundleStyles E srcPath destPath
                                                 minify watch
                                           end (error (unitId (g a)))) b) l
            = map (unitEvents E minify watch b) (map g l)).
  { intros A g l; rewrite map_map; apply map_ext; intros a; apply Hev. }
  unfold concurrentUnits; rewrite !map_app.
  rewrite <- !HEL; simpl map at 2; rewrite <- (Hev UPolyfill).
  exact Hmerge.
Qed.

(** The trace of a whole build, stage by stage, whatever the schedule. *)
Lemma buildAssets_trace E minify watch ls sched w :
  exists w1 conc w2 w3 w',
    iconStage E w = (Ok tt, w1)
    /\ run (buildAssets E minify watch ls) sched w = (Ok tt, w')
    /\ Merge (map (unitEvents E minify watch w1) (concurrentUnits E)) conc
    /\ trace w1 = trace w ++ trace (snd (iconStage E (bare w)))
    /\ bare w2 = bare w1
    /\ trace w2 = trace w1 ++ conc
    /\ trace w3 = trace w2 ++ courseStageEvents E (coursesOf E) ls
    /\ iconsPath w3 = iconsPath w2
    /\ trace w' = trace w3 ++ [sitemapEvent E (COURSE_URLS w3)]
    /\ iconsPath w' = iconsPath w3.
Proof.
  destruct (iconStage_trace E w) as (w1 & H1 & Ht1).
  set (s0 := {| started := []; world := w; schedule := sched |}).
  set (s1 := {| started := [Done (Ok tt)]; world := w1; schedule := tl sched |}).
  assert (Hicons : awaitNew (tcatch (Tasks.bundleIcons E) (error (str "icons.svg"))) s0
                   = (Ok tt, s1)).
  { rewrite (awaitNew_idle _ s0) by constructor.
    cbn [world s0]; rewrite iconStage_alone, H1; reflexivity. }
  destruct (concurrentStages_trace E minify watch
              (courseStage E watch (glob_sync E (str "!(shared|_*|*.*)") (CONTENT E)) ls ;;
               awaitNew (tcatch (Tasks.createSitemap E []) (error (str "sitemap.xml"))))
              s1)
    as (s2 & conc & H2 & Hd2 & Hb2 & Ht2 & Hm2).
  { repeat constructor. }
  { repeat constructor. }
  destruct (courseStage_trace E watch ls (coursesOf E) s2 Hd2) as (s3 & H3 & Hd3 & Ht3 & Hi3).
  destruct (guarded_sitemap_trace E (world s3)) as (w' & H4 & Ht4).
  pose proof (guarded_sitemap_icons E (world s3)) as Hi4; rewrite H4 in Hi4.
  exists w1, conc, (world s2), (world s3), w'.
  split; [exact H1|]. split.
  { unfold run, buildAssets; fold s0.
    unfold mbind at 1; rewrite Hicons.
    rewrite H2; unfold mbind at 1; fold (coursesOf E); rewrite H3.
    rewrite (awaitNew_idle _ s3 Hd3), sitemapTask_alone, H4; reflexivity. }
  split; [exact Hm2|]. split; [exact Ht1|]. split; [exact Hb2|]. split; [exact Ht2|].
  split; [exact Ht3|]. split; [exact Hi3|]. split; [exact Ht4|exact Hi4].
Qed.

(** ** What the whole loop keeps *)

Section LoopKeeping.

Variable R : World -> World -> Prop.
Hypothesis R_refl : forall w, R w w.
Hypothesis R_trans : forall w1 w2 w3, R w1 w2 -> R w2 w3 -> R w1 w3.

Lemma keeps_turn (i : nat) (ps : list (Promise unit)) (w : World) :
  Forall (keeps R) ps ->
  R w (snd (turn i ps w)) /\ Forall (keeps R) (fst (turn i ps w)).
Proof.
  intros H; unfold turn.
  destruct (nth_error ps i) as [[r|k]|] eqn:Hi; try (split; [apply R_refl|exact H]).
  assert (Hk : keeps R (Pending k))
    by (rewrite Forall_forall in H; apply H; eapply nth_error_In; eassumption).
  destruct Hk as [Hk Hrest]; specialize (Hk w); specialize (Hrest w).
  destruct (k w) as [p' w']; simpl in *; split; [exact Hk|].
  now apply Forall_setNth.
Qed.

Lemma keeps_turns (chunk : list nat) : forall (ps : list (Promise unit)) (w : World),
  Forall (keeps R) ps ->
  R w (snd (turns chunk ps w)) /\ Forall (keeps R) (fst (turns chunk ps w)).
Proof.
  induction chunk as [|i chunk IH]; intros ps w H; [split; [apply R_refl|exact H]|].
  simpl; destruct (keeps_turn i ps w H) as [H1 H2].
  destruct (turn i ps w) as [ps' w']; simpl in *.
  destruct (IH ps' w' H2) as [H3 H4]; split; [|exact H4].
  eapply R_trans; eassumption.
Qed.

Lemma keeps_finish (i : nat) (ps : list (Promise unit)) (w : World) :
  Forall (keeps R) ps ->
  R w (snd (finish i ps w)) /\ Forall (keeps R) (fst (finish i ps w)).
Proof.
  intros H; unfold finish.
  destruct (nth_error ps i) as [p|] eqn:Hi; [|split; [apply R_refl|exact H]].
  assert (Hp : keeps R p)
    by (rewrite Forall_forall in H; apply H; eapply nth_error_In; eassumption).
  pose proof (keeps_settle R R_refl R_trans p Hp w) as Hs.
  destruct (settle p w) as [r w']; simpl in *; split; [exact Hs|].
  apply Forall_setNth; [exact H|exact I].
Qed.

Lemma keeps_finishAll (ns todo : list nat) : forall (ps : list (Promise unit)) (w : World),
  Forall (keeps R) ps ->
  R w (snd (finishAll ns todo ps w)) /\ Forall (keeps R) (fst (finishAll ns todo ps w)).
Proof.
  induction todo as [|i todo IH]; intros ps w H; [split; [apply R_refl|exact H]|].
  simpl; destruct (rejection ns ps); [split; [apply R_refl|exact H]|].
  destruct (keeps_finish i ps w H) as [H1 H2].
  destruct (finish i ps w) as [ps' w']; simpl in *.
  destruct (IH ps' w' H2) as [H3 H4]; split; [|exact H4].
  eapply R_trans; eassumption.
Qed.

Lemma loopKeeps_mret {A} (a : A) : loopKeeps R (mret a).
Proof. intros s H; split; [apply R_refl|exact H]. Qed.

Lemma loopKeeps_mbind {A B} (m : Main A) (k : A -> Main B) :
  loopKeeps R m -> (forall a, loopKeeps R (k a)) -> loopKeeps R (mbind m k).
Proof.
  intros Hm Hk s H; unfold mbind.
  destruct (Hm s H) as [H1 H2].
  destruct (m s) as [[a|e] s1]; simpl in *; [|split; assumption].
  destruct (Hk a s1 H2) as [H3 H4]; split; [|exact H4].
  eapply R_trans; eassumption.
Qed.

Lemma loopKeeps_mforEach {A} (l : list A) (body : A -> Main unit) :
  (forall x, loopKeeps R (body x)) -> loopKeeps R (mforEach l body).
Proof.
  intros H; induction l as [|x l IH]; simpl.
  - apply loopKeeps_mret.
  - apply loopKeeps_mbind; [apply H|intros _; exact IH].
Qed.

Lemma loopKeeps_start (t : Task unit) : keeps R (Pending t) -> loopKeeps R (start t).
Proof.
  intros [Ht Hrest] s H; unfold start.
  specialize (Ht (world s)); specialize (Hrest (world s)).
  destruct (t (world s)) as [p w']; simpl in *; split; [exact Ht|].
  apply Forall_app; split; [exact H|constructor; [exact Hrest|constructor]].
Qed.

Lemma loopKeeps_awaitPromise (i : nat) : loopKeeps R (awaitPromise i).
Proof.
  intros s H; unfold awaitPromise.
  destruct (keeps_turns (hd [] (schedule s)) _ (world s) H) as [H1 H2].
  destruct (turns _ (started s) (world s)) as [ps1 w1]; cbn [fst snd] in *.
  destruct (keeps_finish i ps1 w1 H2) as [H3 H4].
  destruct (finish i ps1 w1) as [ps2 w2]; cbn [fst snd started world] in *.
  split; [eapply R_trans; eassumption|exact H4].
Qed.

Lemma loopKeeps_awaitAll (ns : list nat) : loopKeeps R (awaitAll ns).
Proof.
  intros s H; unfold awaitAll.
  destruct (keeps_turns (hd [] (schedule s)) _ (world s) H) as [H1 H2].
  destruct (turns _ (started s) (world s)) as [ps1 w1]; cbn [fst snd] in *.
  destruct (keeps_finishAll ns ns ps1 w1 H2) as [H3 H4].
  destruct (finishAll ns ns ps1 w1) as [ps2 w2]; cbn [fst snd started world] in *.
  split; [eapply R_trans; eassumption|exact H4].
Qed.

Lemma loopKeeps_awaitNew (t : Task unit) : keeps R (Pending t) -> loopKeeps R (awaitNew t).
Proof.
  intros H; apply loopKeeps_mbind; [now apply loopKeeps_start|].
  intros p; apply loopKeeps_awaitPromise.
Qed.

Lemma loopKeeps_startEach {A} (l : list A) (f : A -> Task unit) :
  (forall x, keeps R (Pending (f x))) -> loopKeeps R (startEach l f).
Proof.
  intros H; induction l as [|x l IH]; simpl; [apply loopKeeps_mret|].
  apply loopKeeps_mbind; [apply loopKeeps_start, H|intros p].
  apply loopKeeps_mbind; [exact IH|intros ps; apply loopKeeps_mret].
Qed.

End LoopKeeping.

(** ** A build without watching *)

(** A task is taken apart down to its synchronous pieces. *)
Ltac keeping_step R Rrefl Rtrans :=
  match goal with
  | |- forall _, _ => intro
  | |- keeps R (Pending (tbind _ _)) => apply (keeps_tbind R Rrefl Rtrans)
  | |- keeps R (Pending (tcatch _ _)) => apply (keeps_tcatch R)
  | |- keeps R (Pending (tforEach _ _)) => apply (keeps_tforEach R Rrefl Rtrans)
  | |- keeps R (Pending (tret _)) => apply (keeps_tret R Rrefl)
  | |- keeps R (Pending (now _)) => apply (keeps_now R)
  | |- keeps R (Pending (await _)) => apply (keeps_await R Rrefl)
  | |- keeps R (Pending (if ?b then _ else _)) => destruct b
  | |- keeps R (Pending (match ?x with Some _ => _ | None => _ end)) => destruct x
  end.

Ltac keeping R Rrefl Rtrans :=
  repeat keeping_step R Rrefl Rtrans; try solve [eauto with frame | frame].

Lemma unwatched_bundleStyles E srcPath destPath minify :
  keeps sameWatching (Pending (Tasks.bundleStyles E srcPath destPath minify false)).
Proof.
  unfold Tasks.bundleStyles, success, writeFile.
  keeping sameWatching sameWatching_refl sameWatching_trans.
Qed.

Lemma unwatched_bundleLocales E srcPath destPath minify options : forall ls inputs,
  keeps sameWatching
    (Pending (Tasks.bundleLocales E srcPath destPath minify false options inputs ls)).
Proof.
  induction ls as [|l ls IH]; intros inputs; simpl; unfold writeFile;
    keeping sameWatching sameWatching_refl sameWatching_trans.
Qed.

Lemma unwatched_bundleScripts E srcPath destPath minify options :
  keeps sameWatching (Pending (Tasks.bundleScripts E srcPath destPath minify false options)).
Proof.
  unfold Tasks.bundleScripts, success.
  pose proof (unwatched_bundleLocales E srcPath (jsDest destPath) minify options).
  keeping sameWatching sameWatching_refl sameWatching_trans.
Qed.

Lemma unwatched_bundleMarkdown E id locale ls base :
  keeps sameWatching (Pending (Tasks.bundleMarkdown E id locale ls false base)).
Proof.
  unfold Tasks.bundleMarkdown, Tasks.parseCourseCall, success, writeFile.
  keeping sameWatching sameWatching_refl sameWatching_trans.
Qed.

Lemma unwatched_bundleIcons E : keeps sameWatching (Pending (Tasks.bundleIcons E)).
Proof.
  unfold Tasks.bundleIcons, iconSymbol, success, writeFile.
  keeping sameWatching sameWatching_refl sameWatching_trans.
Qed.

Lemma unwatched_createPolyfill E : keeps sameWatching (Pending (Tasks.createPolyfill E)).
Proof.
  unfold Tasks.createPolyfill, writeFile.
  keeping sameWatching sameWatching_refl sameWatching_trans.
Qed.

Lemma unwatched_createSitemap E URLs :
  keeps sameWatching (Pending (Tasks.createSitemap E URLs)).
Proof.
  unfold Tasks.createSitemap; split.
  - intros w; reflexivity.
  - intros w; apply (keeps_now sameWatching); unfold writeFile; frame.
Qed.

Lemma unwatched_error id e : preserves sameWatching (error id e).
Proof. intros w; reflexivity. Qed.

Lemma build_unwatched E minify ls :
  loopKeeps sameWatching (buildAssets E minify false ls).
Proof.
  pose proof sameWatching_refl as Hr; pose proof sameWatching_trans as Ht.
  pose proof (fun t id => keeps_tcatch sameWatching t (error id)) as Hcatch.
  assert (Hscripts : forall l, loopKeeps sameWatching (topLevelScripts E minify false l)).
  { intros l s Hs; rewrite topLevelScripts_filter.
    apply loopKeeps_startEach; [exact Hr|exact Ht| |exact Hs].
    intros a; apply Hcatch; [apply unwatched_bundleScripts|intros e; apply unwatched_error]. }
  unfold buildAssets, courseStage.
  repeat first
    [ exact Hr | exact Ht | apply Hscripts
    | apply loopKeeps_awaitNew
    | apply loopKeeps_mbind
    | apply loopKeeps_mforEach
    | apply loopKeeps_startEach
    | apply loopKeeps_awaitAll
    | match goal with |- forall _, _ => intro end
    | apply Hcatch; [|intros ?; apply unwatched_error]
    | apply unwatched_bundleIcons | apply unwatched_createPolyfill
    | apply unwatched_bundleStyles | apply unwatched_bundleScripts
    | apply unwatched_bundleMarkdown | apply unwatched_createSitemap ].
Qed.

Lemma run_unwatched E minify ls sched w :
  watching (snd (run (buildAssets E minify false ls) sched w)) = watching w.
Proof.
  unfold run.
  destruct (build_unwatched E minify ls {| started := []; world := w; schedule := sched |})
    as [H _]; [constructor|].
  destruct (buildAssets E minify false ls _) as [r s]; simpl in *.
  exact H.
Qed.

Local Close Scope main_scope.

(** ** Declaration files *)

(** C10: for a source path ending in [.d.ts], [bundleScripts] returns at
    once and leaves the state as it was (no file written for any locale,
    nothing logged, nothing registered): its promise is resolved when the
    call returns, with no [await] reached; and the loop of [buildAssets]
    over the top-level scripts starts exactly the units that are not
    declaration files. *)
Theorem declaration_files_never_bundled (E : Env) (minify watch : bool) :
  (forall srcPath destPath options w,
      endsWith (str ".d.ts") srcPath = true ->
      bundleScripts E srcPath destPath minify watch options w = (Ok tt, w))
  /\ (forall srcPath destPath options w,
        endsWith (str ".d.ts") srcPath = true ->
        Tasks.bundleScripts E srcPath destPath minify watch options w = (Done (Ok tt), w))
  /\ (forall l s,
        topLevelScripts E minify watch l s
        = startEach (filter (fun a => negb (endsWith (str ".d.ts") (src a))) l)
            (fun a => tcatch (Tasks.bundleScripts E (src a) (dest a) minify watch noOptions)
                             (error (src a))) s).
Proof.
  split; [|split].
  - intros srcPath destPath options w H; unfold bundleScripts; now rewrite H.
  - intros srcPath destPath options w H; unfold Tasks.bundleScripts; now rewrite H.
  - intros l s; apply topLevelScripts_filter.
Qed.

Lemma declaration_files_never_bundled_witness :
  endsWith (str ".d.ts") (str "/project/frontend/types.d.ts") = true
  /\ bundleScripts Sample.E (str "/project/frontend/types.d.ts") (str "/out/types.d.ts")
       false true noOptions initialWorld = (Ok tt, initialWorld).
Proof.
  split; [reflexivity|].
  apply (proj1 (declaration_files_never_bundled Sample.E false true)); reflexivity.
Defined.

(** ** The published icon path during a build *)

(** After the icon stage no stage publishes an icon path: a build ends
    with the path that its icon stage has published. *)
Lemma build_iconsPath E minify watch ls sched w :
  iconsPath (snd (run (buildAssets E minify watch ls) sched w))
  = iconsPath (snd (iconStage E w)).
Proof.
  destruct (buildAssets_trace E minify watch ls sched w)
    as (w1 & conc & w2 & w3 & w' & H1 & Hrun & _ & _ & Hb & _ & _ & H3 & _ & H').
  rewrite Hrun, H1; cbn [snd]; rewrite H', H3.
  change (iconsPath w2) with (iconsPath (bare w2)); now rewrite Hb.
Qed.

(** Every event of a unit of the concurrent stages is in the trace of the
    build, whatever the schedule. *)
Lemma build_unit_event E minify watch ls sched w u ev :
  In u (concurrentUnits E) ->
  In ev (unitEvents E minify watch (snd (iconStage E w)) u) ->
  In ev (trace (snd (run (buildAssets E minify watch ls) sched w))).
Proof.
  intros Hu Hev.
  destruct (buildAssets_trace E minify watch ls sched w)
    as (w1 & conc & w2 & w3 & w' & H1 & Hrun & Hm & _ & _ & Ht2 & Ht3 & _ & Ht' & _).
  rewrite H1 in Hev; cbn [snd] in Hev.
  rewrite Hrun; cbn [snd]; rewrite Ht', Ht3, Ht2.
  apply in_or_app; left. apply in_or_app; left. apply in_or_app; right.
  apply (Merge_In _ _ Hm (unitEvents E minify watch w1 u)); [|exact Hev].
  apply in_map; exact Hu.
Qed.

(** ** Cache busting of the icon path *)

(** C1 fails on this input: the icon stage of the sample project publishes
    [/icons.01234567.svg], the bundle of [app.ts] names the sprite twice,
    and the text written to [/out/app.js] has the first reference rewritten
    and the second still unversioned, in whichever order the pending
    functions take their turns. *)
Theorem second_icon_reference_stays_unversioned :
  forall sched : list (list nat),
  let w := snd (run (buildAssets Sample.E false false [str "en"]) sched initialWorld) in
  let written := str "load('/icons.01234567.svg#star');load('/icons.svg#moon');" in
  iconsPath w = str "/icons.01234567.svg"
  /\ Sample.appBundle = str "load('/icons.svg#star');load('/icons.svg#moon');"
  /\ In (EWrite (str "/out/app.js") written) (trace w)
  /\ includes (str "/icons.svg") written = true.
Proof.
  intros sched w written.
  split; [|split; [|split]].
  - unfold w; rewrite build_iconsPath; vm_compute; reflexivity.
  - reflexivity.
  - unfold w.
    apply (build_unit_event Sample.E false false [str "en"] sched initialWorld
             (UScript (str "/project/frontend/app.ts") (str "/out/app.ts") noOptions)).
    + vm_compute; auto.
    + vm_compute; auto.
  - vm_compute; reflexivity.
Qed.

(** ** No document transform outside the course stage *)

Lemma quiet_refl w : quiet w w.
Proof. exists []; split; [now rewrite app_nil_r|reflexivity]. Qed.

Lemma quiet_trans w1 w2 w3 : quiet w1 w2 -> quiet w2 w3 -> quiet w1 w3.
Proof.
  intros (a & Ha & Hqa) (b & Hb & Hqb); exists (a ++ b); split.
  - now rewrite Hb, Ha, app_assoc.
  - now rewrite forallb_app, Hqa, Hqb.
Qed.

Lemma quiet_emit e : notParse e = true -> preserves quiet (emit e).
Proof. intros H w; exists [e]; split; [reflexivity|simpl; now rewrite H]. Qed.

Lemma quiet_silent {A} (m : Async A) :
  (forall w, trace (snd (m w)) = trace w) -> preserves quiet m.
Proof. intros H w; red; rewrite H; apply quiet_refl. Qed.

Lemma quiet_getIconsPath : preserves quiet getIconsPath.
Proof. now apply quiet_silent. Qed.

Lemma quiet_setIconsPath p : preserves quiet (setIconsPath p).
Proof. now apply quiet_silent. Qed.

Lemma quiet_watchFiles fs r : preserves quiet (watchFiles fs r).
Proof. now apply quiet_silent. Qed.

#[export] Hint Resolve quiet_refl quiet_trans quiet_getIconsPath quiet_setIconsPath
  quiet_watchFiles : frame.

#[export] Hint Extern 1 (preserves quiet (emit _)) =>
  (apply quiet_emit; reflexivity) : frame.

Lemma quiet_bundleLocales E srcPath destPath minify watch options inputs ls :
  preserves quiet (bundleLocales E srcPath destPath minify watch options inputs ls).
Proof.
  revert inputs; induction ls as [|l ls IH]; intros inputs; simpl.
  - frame.
  - unfold writeFile; frame.
Qed.

Lemma quiet_guarded E minify watch u : preserves quiet (guarded E minify watch u).
Proof.
  unfold guarded, error; destruct u; simpl.
  - unfold bundleScripts, success.
    pose proof (quiet_bundleLocales E srcPath (jsDest destPath) minify watch options).
    frame.
  - unfold createPolyfill, writeFile; frame.
  - unfold bundleStyles, success, writeFile; frame.
Qed.

Lemma quiet_iconStage E : preserves quiet (iconStage E).
Proof. unfold iconStage, bundleIcons, iconSymbol, error, success, writeFile; frame. Qed.

Lemma forallb_concat {A} (f : A -> bool) (ll : list (list A)) :
  (forall l, In l ll -> forallb f l = true) -> forallb f (List.concat ll) = true.
Proof.
  induction ll as [|l ll IH]; intros H; simpl; [reflexivity|].
  rewrite forallb_app, (H l) by now left.
  apply IH; intros l' Hl'; apply H; now right.
Qed.

Lemma unitEvents_quiet E minify watch w u :
  forallb notParse (unitEvents E minify watch w u) = true.
Proof.
  destruct (quiet_guarded E minify watch u (bare w)) as (added & Ha & Hq).
  unfold unitEvents; now rewrite Ha.
Qed.

Lemma iconStage_quiet E w :
  forallb notParse (trace (snd (iconStage E (bare w)))) = true.
Proof.
  destruct (quiet_iconStage E (bare w)) as (added & Ha & Hq).
  now rewrite Ha.
Qed.

(** Each course build starts with its call of the document transform and
    has no other. *)
Lemma courseEvents_shape E id locale ls :
  exists rest,
    courseEvents E id locale ls = EParse (Path.join (CONTENT E) id) locale :: rest
    /\ forallb notParse rest = true.
Proof.
  unfold courseEvents.
  destruct (fst (parseCourse E _ locale ls)) as [[data|]|e];
    [destruct (course data) as [json|]; [destruct (fsWrite E _ json) as [[]|e]|]| |];
    eexists; split; reflexivity.
Qed.

Lemma filter_isParse_quiet (t : list Event) :
  forallb notParse t = true -> filter isParse t = [].
Proof.
  intros H; apply filter_none; intros e He.
  rewrite forallb_forall in H; specialize (H e He).
  unfold notParse in H; now destruct (isParse e).
Qed.

Lemma filter_concat {A} (f : A -> bool) (ll : list (list A)) :
  filter f (List.concat ll) = List.concat (map (filter f) ll).
Proof.
  induction ll as [|l ll IH]; simpl; [reflexivity|].
  now rewrite filter_app, IH.
Qed.

Lemma course_parseCalls E id ls (inner : list jstring) :
  List.concat (map (fun l => filter isParse (courseEvents E id l ls)) inner)
  = map (fun l => EParse (Path.join (CONTENT E) id) l) inner.
Proof.
  induction inner as [|l inner IH]; [reflexivity|].
  cbn [map List.concat].
  destruct (courseEvents_shape E id l ls) as (rest & Heq & Hq).
  rewrite Heq, IH; cbn [filter isParse].
  now rewrite filter_isParse_quiet by assumption.
Qed.

Lemma courseStage_parseCalls E courses ls :
  filter isParse (courseStageEvents E courses ls) = parseCalls E courses ls.
Proof.
  unfold courseStageEvents, parseCalls.
  rewrite filter_concat, map_map; f_equal; apply map_ext; intros id.
  rewrite filter_concat, map_map; apply course_parseCalls.
Qed.

(** C6: whatever the schedule, the calls of the document transform made
    by [buildAssets] are those of the course stage, course by course and
    inside a course locale by locale.  What comes before the course stage
    (the events of the icon stage, then those of the concurrent units,
    merged in the order in which the units took their turns) holds no such
    call; the events of one (course, locale) build, from its call of the
    document transform to its last event, come in one block before the
    next build's call, so no two builds overlap; and the sitemap event
    comes after the last block. *)
Theorem courses_build_one_at_a_time (E : Env) (minify watch : bool)
    (ls : list jstring) (sched : list (list nat)) (w : World) :
  exists before urls,
    trace (snd (run (buildAssets E minify watch ls) sched w))
    = trace w ++ before ++ courseStageEvents E (coursesOf E) ls ++ [sitemapEvent E urls]
    /\ (exists conc,
          before = trace (snd (iconStage E (bare w))) ++ conc
          /\ Merge (map (unitEvents E minify watch (snd (iconStage E w)))
                        (concurrentUnits E)) conc)
    /\ forallb notParse before = true
    /\ notParse (sitemapEvent E urls) = true
    /\ courseStageEvents E (coursesOf E) ls
       = List.concat (map (fun id => List.concat (map (fun l => courseEvents E id l ls) ls))
                          (coursesOf E))
    /\ (forall id l,
          exists rest,
            courseEvents E id l ls = EParse (Path.join (CONTENT E) id) l :: rest
            /\ forallb notParse rest = true)
    /\ filter isParse (before ++ courseStageEvents E (coursesOf E) ls ++ [sitemapEvent E urls])
       = List.concat (map (fun id => map (fun l => EParse (Path.join (CONTENT E) id) l) ls)
                          (coursesOf E)).
Proof.
  destruct (buildAssets_trace E minify watch ls sched w)
    as (w1 & conc & w2 & w3 & w' & H1 & Hrun & Hm & Ht1 & _ & Ht2 & Ht3 & _ & Ht' & _).
  exists (trace (snd (iconStage E (bare w))) ++ conc), (COURSE_URLS w3).
  assert (Hbefore : forallb notParse (trace (snd (iconStage E (bare w))) ++ conc) = true).
  { rewrite forallb_app, iconStage_quiet; simpl.
    apply (Merge_forallb _ _ _ Hm); intros l Hl.
    apply in_map_iff in Hl as (u & <- & _); apply unitEvents_quiet. }
  assert (Hsitemap : notParse (sitemapEvent E (COURSE_URLS w3)) = true).
  { unfold sitemapEvent; now destruct (fsWrite E _ _). }
  split; [|split; [|split; [|split; [|split; [|split]]]]].
  - rewrite Hrun; cbn [snd]; rewrite Ht', Ht3, Ht2, Ht1.
    now rewrite <- !app_assoc.
  - exists conc; split; [reflexivity|]. now rewrite H1.
  - exact Hbefore.
  - exact Hsitemap.
  - reflexivity.
  - intros id l; apply courseEvents_shape.
  - rewrite filter_app, (filter_isParse_quiet _ Hbefore), filter_app.
    rewrite courseStage_parseCalls; simpl.
    unfold notParse in Hsitemap.
    destruct (isParse (sitemapEvent E (COURSE_URLS w3))); [discriminate|].
    now rewrite app_nil_r.
Qed.

(** ** Failures of single units *)

(** C5: [buildAssets] returns without throwing whatever fails and in
    whichever order the pending functions take their turns.  Its trace is
    the events of the icon stage, then the events of the units of the
    concurrent stages, merged: every unit has exactly the events that it
    has when it is awaited alone, in their order, wherever the events of
    the other units fall in between; then the events of the course stage,
    then the sitemap event.  So a failure of one unit changes nothing for
    the others, does not end its group, and the sitemap stage always runs.
    A task that throws has its events followed by the error, logged under
    its own identity: [icons.svg], the source path of a script or
    stylesheet, [polyfill.js], the label of the course and locale,
    [sitemap.xml]. *)
Theorem unit_failures_are_isolated (E : Env) (minify watch : bool)
    (ls : list jstring) (sched : list (list nat)) (w : World) :
  exists w1 conc urls,
    iconStage E w = (Ok tt, w1)
    /\ fst (run (buildAssets E minify watch ls) sched w) = Ok tt
    /\ trace (snd (run (buildAssets E minify watch ls) sched w))
       = trace w
         ++ trace (snd (iconStage E (bare w)))
         ++ conc
         ++ courseStageEvents E (coursesOf E) ls
         ++ [sitemapEvent E urls]
    /\ Merge (map (unitEvents E minify watch w1) (concurrentUnits E)) conc
    /\ trace (snd (iconStage E (bare w)))
       = match bundleIcons E (bare w) with
         | (Ok _, v) => trace v
         | (Throw e, v) => trace v ++ [EError (str "icons.svg") e]
         end
    /\ (forall u,
          unitEvents E minify watch w1 u
          = trace (snd (alone (unitTask E minify watch u) (bare w1))))
    /\ (forall u,
          unitEvents E minify watch w1 u
          = match runUnit E minify watch u (bare w1) with
            | (Ok _, v) => trace v
            | (Throw e, v) => trace v ++ [EError (unitId u) e]
            end)
    /\ (forall id l,
          match fst (parseCourse E (Path.join (CONTENT E) id) l ls) with
          | Throw e =>
              courseEvents E id l ls
              = [EParse (Path.join (CONTENT E) id) l; EError (courseLabel id l) e]
          | Ok _ => forallb (errorNamed (courseLabel id l)) (courseEvents E id l ls) = true
          end)
    /\ sitemapEvent E urls
       = match fsWrite E (Path.join (OUTPUT E) (str "sitemap.xml"))
                       (sitemapDocument E urls []) with
         | Ok _ => EWrite (Path.join (OUTPUT E) (str "sitemap.xml"))
                          (sitemapDocument E urls [])
         | Throw e => EError (str "sitemap.xml") e
         end.
Proof.
  destruct (buildAssets_trace E minify watch ls sched w)
    as (w1 & conc & w2 & w3 & w' & H1 & Hrun & Hm & Ht1 & _ & Ht2 & Ht3 & _ & Ht' & _).
  exists w1, conc, (COURSE_URLS w3).
  split; [exact H1|]. split; [now rewrite Hrun|].
  split; [|split; [|split; [|split; [|split; [|split]]]]].
  - rewrite Hrun; cbn [snd]; rewrite Ht', Ht3, Ht2, Ht1.
    now rewrite <- !app_assoc.
  - exact Hm.
  - unfold iconStage, catch, error, emit.
    now destruct (bundleIcons E (bare w)) as [[[]|e] v].
  - intros u; unfold unitEvents; now rewrite alone_unitTask.
  - intros u; unfold unitEvents, guarded, catch, error, emit.
    now destruct (runUnit E minify watch u (bare w1)) as [[[]|e] v].
  - intros id l; unfold courseEvents.
    destruct (fst (parseCourse E _ l ls)) as [[data|]|e]; [| reflexivity | reflexivity].
    destruct (course data) as [json|]; [|reflexivity].
    destruct (fsWrite E _ json) as [[]|e]; [reflexivity|].
    simpl; now rewrite eqb_refl.
  - reflexivity.
Qed.

(** In the failing project the build returns, the script is bundled, the
    stylesheet and the course are logged as failed, and the sitemap is
    written last.  When the script takes its turns while the polyfill is
    awaited, its file is written before the polyfill; when it takes none
    before [Promise.all], after it. *)
Lemma unit_failures_are_isolated_witness :
  fst (run (buildAssets Failing.E false false [str "en"]) [[]; [1; 1; 1]] initialWorld)
  = Ok tt
  /\ map eventLabel
         (trace (snd (run (buildAssets Failing.E false false [str "en"])
                          [[]; [1; 1; 1]] initialWorld)))
     = [(str "write", str "/out/icons.svg");
        (str "success", str "icons.svg");
        (str "write", str "/out/app.js");
        (str "success", str "/project/frontend/app.ts");
        (str "write", str "/out/polyfill.js");
        (str "error", str "/project/frontend/main.scss");
        (str "parse", str "/project/content/algebra");
        (str "error", str "course algebra [en]");
        (str "write", str "/out/sitemap.xml")]
  /\ map eventLabel
         (trace (snd (run (buildAssets Failing.E false false [str "en"]) [] initialWorld)))
     = [(str "write", str "/out/icons.svg");
        (str "success", str "icons.svg");
        (str "write", str "/out/polyfill.js");
        (str "write", str "/out/app.js");
        (str "success", str "/project/frontend/app.ts");
        (str "error", str "/project/frontend/main.scss");
        (str "parse", str "/project/content/algebra");
        (str "error", str "course algebra [en]");
        (str "write", str "/out/sitemap.xml")].
Proof.
  destruct (unit_failures_are_isolated Failing.E false false [str "en"]
              [[]; [1; 1; 1]] initialWorld)
    as (w1 & conc & urls & _ & Hok & _).
  split; [exact Hok|].
  split; vm_compute; reflexivity.
Defined.

(** ** The published icon path *)

Lemma unchanged_refl w : unchanged w w.
Proof. reflexivity. Qed.

Lemma unchanged_trans w1 w2 w3 : unchanged w1 w2 -> unchanged w2 w3 -> unchanged w1 w3.
Proof. unfold unchanged; congruence. Qed.

#[export] Hint Resolve unchanged_refl unchanged_trans : frame.




(** * Further properties *)

(** ** Global replacement *)

(** After a match the scan resumes behind it. *)
Lemma replaceAll_skip (m : jstring -> option (nat * jstring)) (a b : jstring) :
  Regex.replaceAll m (List.length a) (a ++ b) = Regex.replaceAll m 0 b.
Proof. induction a as [|c a IH]; simpl; [now destruct b|exact IH]. Qed.

Lemma replaceAll_match (m : jstring -> option (nat * jstring))
    (c : ascii) (a b rep : jstring) :
  m (c :: a ++ b) = Some (S (List.length a), rep) ->
  Regex.replaceAll m 0 (c :: a ++ b) = rep ++ Regex.replaceAll m 0 b.
Proof. intros H; simpl; rewrite H; now rewrite replaceAll_skip. Qed.

(** A stretch in which no match starts is copied. *)
Lemma replaceAll_copy (m : jstring -> option (nat * jstring)) (a b : jstring) :
  (forall a1 c a2, a = a1 ++ c :: a2 -> m (c :: a2 ++ b) = None) ->
  Regex.replaceAll m 0 (a ++ b) = a ++ Regex.replaceAll m 0 b.
Proof.
  induction a as [|c a IH]; intros H; [reflexivity|].
  simpl; rewrite (H [] c a eq_refl); f_equal.
  apply IH; intros a1 c' a2 ->; apply (H (c :: a1) c' a2); reflexivity.
Qed.

Lemma replaceAll_none (m : jstring -> option (nat * jstring)) (s : jstring) :
  (forall a1 c a2, s = a1 ++ c :: a2 -> m (c :: a2) = None) ->
  Regex.replaceAll m 0 s = s.
Proof.
  intros H; rewrite <- (app_nil_r s) at 1.
  rewrite replaceAll_copy; [simpl; apply app_nil_r|].
  intros a1 c a2 Heq; rewrite app_nil_r; now apply (H a1).
Qed.

(** A matcher that asks for a first character finds nothing in a text
    without it. *)
Lemma replaceAll_copy_without (m : jstring -> option (nat * jstring))
    (c0 : ascii) (a b : jstring) :
  (forall c s, c <> c0 -> m (c :: s) = None) ->
  ~ In c0 a ->
  Regex.replaceAll m 0 (a ++ b) = a ++ Regex.replaceAll m 0 b.
Proof.
  intros Hm Ha; apply replaceAll_copy; intros a1 c a2 ->.
  apply Hm; intros ->; apply Ha; rewrite in_app_iff; right; now left.
Qed.

Lemma stripPrefix_head (c0 c : ascii) (p s : jstring) :
  c <> c0 -> stripPrefix (c0 :: p) (c :: s) = None.
Proof.
  intros H; simpl; destruct (Ascii.eqb c0 c) eqn:Heq; [|reflexivity].
  apply Ascii.eqb_eq in Heq; congruence.
Qed.

Lemma takeWhile_dropWhile (f : ascii -> bool) (s : jstring) :
  takeWhile f s ++ dropWhile f s = s.
Proof.
  induction s as [|c s IH]; simpl; [reflexivity|].
  destruct (f c); simpl; [now rewrite IH|reflexivity].
Qed.

(** ** Localisation strings *)

Lemma localisationKey_head cb (c : ascii) (s : jstring) :
  c <> "<"%char -> Regex.localisationKey cb (c :: s) = None.
Proof.
  intros H; unfold Regex.localisationKey.
  change (str "<<") with ("<"%char :: str "<").
  now rewrite stripPrefix_head.
Qed.

Lemma localisationKey_match cb (key b : jstring) :
  key <> [] -> forallb Regex.isKeyChar key = true ->
  Regex.localisationKey cb (str "<<" ++ key ++ str ">>" ++ b)
  = Some (2 + List.length key + 2, cb key).
Proof.
  intros Hne Hkey; unfold Regex.localisationKey.
  rewrite stripPrefix_app.
  rewrite takeWhile_app_stop, dropWhile_app_stop by (try assumption; reflexivity).
  rewrite stripPrefix_app.
  destruct key; [contradiction|reflexivity].
Qed.

(** X1: in the last step of the script transform a key between [<<] and
    [>>], made of letters, digits, underscores, white space and colons, is
    replaced by its translation for the locale, and by the key itself,
    without the markers, when there is no callback, no entry, or an empty
    entry; the text before it, if it has no [<], is copied, and the scan
    goes on behind the closing marker. *)
Theorem localisation_key_replaced (options : Options) (locale a key b : jstring) :
  ~ In "<"%char a -> key <> [] -> forallb Regex.isKeyChar key = true ->
  localise options locale (a ++ str "<<" ++ key ++ str ">>" ++ b)
  = a ++ translated options locale key ++ localise options locale b
  /\ (forall icons raw,
        scriptText options locale icons raw
        = localise options locale
            (replace (str "/icons.svg") icons
               (Regex.replaceAll Regex.requireVue 0
                  (Regex.replaceAll Regex.bangComment 0 (trim raw)))))
  /\ translated options locale key
     = match translate options with
       | None => key
       | Some f => match f locale key with
                   | None => key
                   | Some [] => key
                   | Some (c :: t) => c :: t
                   end
       end.
Proof.
  intros Ha Hne Hkey; split; [|split].
  - unfold localise.
    rewrite (replaceAll_copy_without _ "<"%char)
      by (try assumption; intros c s Hc; now apply localisationKey_head).
    f_equal.
    pose proof (localisationKey_match (translated options locale) key b Hne Hkey) as Hm.
    replace (str "<<" ++ key ++ str ">>" ++ b)
      with ("<"%char :: (str "<" ++ key ++ str ">>") ++ b) in Hm |- *
      by (simpl; now rewrite <- app_assoc).
    apply replaceAll_match.
    rewrite Hm; f_equal; f_equal.
    rewrite !length_app; simpl; lia.
  - reflexivity.
  - unfold translated; destruct (translate options) as [f|]; [|reflexivity].
    now destruct (f locale key) as [[|c t]|].
Qed.

Ltac char_absent :=
  let H := fresh in
  simpl; intros H; repeat (destruct H as [H|H]; [discriminate|]); exact H.

Lemma localisation_key_replaced_witness :
  localise noOptions (str "fr") (str "title=" ++ str "<<" ++ str "Next step" ++ str ">>" ++ str ";")
  = str "title=" ++ str "Next step" ++ str ";".
Proof.
  destruct (localisation_key_replaced noOptions (str "fr") (str "title=")
              (str "Next step") (str ";")) as (H & _ & _).
  - char_absent.
  - discriminate.
  - reflexivity.
  - rewrite H; reflexivity.
Defined.

(** ** The polyfill *)

Lemma sourceMapLine_head (c : ascii) (s : jstring) :
  c <> Regex.newline -> Regex.sourceMapLine (c :: s) = None.
Proof.
  intros H; unfold Regex.sourceMapLine; now rewrite stripPrefix_head.
Qed.

Lemma oneLine_no_newline (s : jstring) : oneLine s = true -> ~ In Regex.newline s.
Proof.
  unfold oneLine; intros H Hin.
  rewrite forallb_forall in H; specialize (H _ Hin); discriminate.
Qed.

(** Where the only occurrence of a character is. *)
Lemma unique_char_split (c : ascii) (x y a1 a2 : jstring) :
  ~ In c x -> ~ In c y -> x ++ c :: y = a1 ++ c :: a2 -> a1 = x /\ a2 = y.
Proof.
  revert a1; induction x as [|d x IH]; intros a1 Hx Hy Heq.
  - destruct a1 as [|e a1]; simpl in Heq.
    + injection Heq as ->; auto.
    + injection Heq as <- ->; exfalso; apply Hy; rewrite in_app_iff; right; now left.
  - destruct a1 as [|e a1]; simpl in Heq.
    + injection Heq as <- _; exfalso; apply Hx; now left.
    + injection Heq as <- Heq.
      destruct (IH a1) as [-> ->]; auto.
      intros H; apply Hx; now right.
Qed.

(** The comment is matched when a line feed follows it. *)
Lemma sourceMapLine_match (url rest : jstring) :
  oneLine url = true ->
  Regex.sourceMapLine (sourceMapComment url ++ Regex.newline :: rest)
  = Some (1 + 21 + List.length url + 1, [Regex.newline]).
Proof.
  intros Hurl; unfold Regex.sourceMapLine, sourceMapComment.
  change ((Regex.newline :: str "//# sourceMappingURL=" ++ url) ++ Regex.newline :: rest)
    with ((Regex.newline :: str "//# sourceMappingURL=") ++ (url ++ Regex.newline :: rest)).
  rewrite stripPrefix_app.
  rewrite takeWhile_app_stop, dropWhile_app_stop by (try exact Hurl; reflexivity).
  reflexivity.
Qed.

(** At the end of the text the comment is not matched. *)
Lemma sourceMapLine_at_end (url : jstring) :
  oneLine url = true -> Regex.sourceMapLine (sourceMapComment url) = None.
Proof.
  intros Hurl; unfold Regex.sourceMapLine, sourceMapComment.
  rewrite <- (app_nil_r url).
  change (Regex.newline :: str "//# sourceMappingURL=" ++ url ++ [])
    with ((Regex.newline :: str "//# sourceMappingURL=") ++ (url ++ [])).
  rewrite stripPrefix_app.
  rewrite dropWhile_app_stop by (try exact Hurl; reflexivity).
  reflexivity.
Qed.

Lemma sourceMaps_last_kept (code url : jstring) :
  oneLine code = true -> oneLine url = true ->
  Regex.replaceAll Regex.sourceMapLine 0 (code ++ sourceMapComment url)
  = code ++ sourceMapComment url.
Proof.
  intros Hcode Hurl; apply replaceAll_none; intros a1 c a2 Heq.
  destruct (ascii_dec c Regex.newline) as [->|Hc]; [|now apply sourceMapLine_head].
  unfold sourceMapComment in Heq.
  apply unique_char_split in Heq as [_ ->].
  - now apply sourceMapLine_at_end.
  - now apply oneLine_no_newline.
  - intros Hin; simpl in Hin.
    repeat (destruct Hin as [Hin|Hin]; [discriminate|]).
    now apply (oneLine_no_newline url).
Qed.

(** X2: when both files that make up the polyfill are one line of code
    followed by a source-map comment with nothing behind it, the comment of
    the first file is removed and the comment of the second file stays in
    [polyfill.js]: the pattern wants a line feed after the comment, and only
    the first has one, from the join. *)
Theorem polyfill_keeps_last_source_map (E : Env) (code1 url1 code2 url2 : jstring)
    (w : World) :
  readFile E (polyfillSource1 E) = Ok (code1 ++ sourceMapComment url1) ->
  readFile E (polyfillSource2 E) = Ok (code2 ++ sourceMapComment url2) ->
  oneLine code1 = true -> oneLine url1 = true ->
  oneLine code2 = true -> oneLine url2 = true ->
  fsWrite E (Path.join (OUTPUT E) (str "polyfill.js"))
          (code1 ++ Regex.newline :: code2 ++ sourceMapComment url2) = Ok tt ->
  createPolyfill E w
  = (Ok tt, logged w (EWrite (Path.join (OUTPUT E) (str "polyfill.js"))
                             (code1 ++ Regex.newline :: code2 ++ sourceMapComment url2))).
Proof.
  intros Hf1 Hf2 Hc1 Hu1 Hc2 Hu2 Hwrite.
  unfold createPolyfill, bind, lift.
  fold (polyfillSource1 E); fold (polyfillSource2 E); rewrite Hf1, Hf2.
  assert (Htext : Regex.replaceAll Regex.sourceMapLine 0
                    (JS.join [Regex.newline]
                       [code1 ++ sourceMapComment url1; code2 ++ sourceMapComment url2])
                  = code1 ++ Regex.newline :: code2 ++ sourceMapComment url2).
  { cbn [JS.join]; rewrite <- !app_assoc.
    rewrite (replaceAll_copy_without _ Regex.newline)
      by (try (now apply oneLine_no_newline); intros c s Hc; now apply sourceMapLine_head).
    f_equal.
    assert (Hshape : forall rest,
              sourceMapComment url1 ++ Regex.newline :: rest
              = Regex.newline :: (str "//# sourceMappingURL=" ++ url1 ++ [Regex.newline])
                ++ rest)
      by (intros rest; unfold sourceMapComment; simpl; now rewrite <- !app_assoc).
    pose proof (sourceMapLine_match url1 (code2 ++ sourceMapComment url2) Hu1) as Hm.
    change (sourceMapComment url1 ++ [Regex.newline] ++ code2 ++ sourceMapComment url2)
      with (sourceMapComment url1 ++ Regex.newline :: code2 ++ sourceMapComment url2).
    rewrite Hshape in Hm |- *.
    rewrite (replaceAll_match Regex.sourceMapLine Regex.newline _ _ [Regex.newline]).
    - now rewrite sourceMaps_last_kept.
    - rewrite Hm; f_equal; f_equal.
      simpl; rewrite length_app; simpl; lia. }
  cbv beta iota zeta; unfold writeFile, bind, lift, emit.
  unfold jstring in *; rewrite Htext, Hwrite; reflexivity.
Qed.

Lemma polyfill_keeps_last_source_map_witness :
  createPolyfill Minified.E initialWorld
  = (Ok tt,
     logged initialWorld
       (EWrite (str "/out/polyfill.js")
          (str "animate()" ++ Regex.newline
           :: str "define()" ++ sourceMapComment (str "custom-elements.min.js.map")))).
Proof.
  apply (polyfill_keeps_last_source_map Minified.E (str "animate()")
           (str "web-animations.min.js.map") (str "define()")
           (str "custom-elements.min.js.map") initialWorld); reflexivity.
Defined.

(** ** Stylesheets *)

(** What [bundleStyles] does, by the answers of the tools. *)
Lemma bundleStyles_run (E : Env) (srcPath destPath : jstring) (minify watch : bool)
    (w : World) :
  bundleStyles E srcPath destPath minify watch w
  = match sass_renderSync E srcPath (getNodePaths E (Path.dirname srcPath)) with
    | Throw e => (Throw e, w)
    | Ok output =>
        match postcss_process E false minify (css output) with
        | Throw e => (Throw e, w)
        | Ok c1 =>
            match fsWrite E (cssDest destPath) (styleFile E c1) with
            | Throw e => (Throw e, w)
            | Ok _ =>
                let w1 := logged w (EWrite (cssDest destPath) (styleFile E c1)) in
                match postcss_process E true minify (css output) with
                | Throw e => (Throw e, w1)
                | Ok c2 =>
                    match fsWrite E (rtlDest (cssDest destPath)) (styleFile E c2) with
                    | Throw e => (Throw e, w1)
                    | Ok _ =>
                        (Ok tt,
                         withLogs w
                           (watching w
                            ++ (if watch
                                then [styleRegistration srcPath destPath minify output]
                                else []))
                           (trace w
                            ++ [EWrite (cssDest destPath) (styleFile E c1);
                                EWrite (rtlDest (cssDest destPath)) (styleFile E c2);
                                ESuccess srcPath]))
                    end
                end
            end
        end
    end.
Proof.
  unfold bundleStyles, bind, lift.
  destruct (sass_renderSync E srcPath _) as [output|e]; [|reflexivity].
  cbn [forEach]; unfold bind, lift, writeFile; unfold bind, lift, emit.
  destruct (postcss_process E false minify (css output)) as [c1|e]; [|reflexivity].
  fold (styleFile E c1).
  destruct (fsWrite E (cssDest destPath) (styleFile E c1)) as [[]|e]; [|reflexivity].
  destruct (postcss_process E true minify (css output)) as [c2|e]; [|reflexivity].
  fold (styleFile E c2); fold (rtlDest (cssDest destPath)).
  destruct (fsWrite E (rtlDest (cssDest destPath)) (styleFile E c2)) as [[]|e];
    [|reflexivity].
  unfold ret, success, emit, watchFiles, withLogs, styleRegistration.
  destruct watch; simpl; rewrite <- ?app_assoc; simpl; try rewrite app_nil_r; reflexivity.
Qed.

Lemma endsWith_app (p a : jstring) : endsWith p (a ++ p) = true.
Proof.
  unfold endsWith, startsWith; now rewrite rev_app_distr, stripPrefix_app.
Qed.

Lemma replace_at_end (p r stem : jstring) :
  splitFirst p (stem ++ p) = Some (stem, []) -> ~ In "$"%char r ->
  replace p r (stem ++ p) = stem ++ r.
Proof.
  intros Hs Hr; unfold replace; rewrite Hs, getSubstitution_plain by assumption.
  now rewrite app_nil_r.
Qed.

Lemma splitFirst_end (p s stem : jstring) :
  splitFirst p s = Some (stem, []) -> s = stem ++ p.
Proof. intros H; apply splitFirst_Some in H; now rewrite app_nil_r in H. Qed.

(** X3: a stylesheet build that succeeds has written two files, first the
    stylesheet and then its mirrored variant, each the banner line followed
    by the CSS that postcss gave for that pass, and has then reported
    success; in watch mode it has added one registration, of the files sass
    included, and otherwise none.  When the first [.scss] of the
    destination is its end, with [stem] before it, and the first [.css] of
    [stem.css] is its end (so [stem] holds no [.css]), the two files are
    [stem.css] and [stem.rtl.css]. *)
Theorem stylesheet_outputs (E : Env) (srcPath destPath : jstring) (minify watch : bool)
    (w w' : World) :
  bundleStyles E srcPath destPath minify watch w = (Ok tt, w') ->
  exists output c1 c2,
    sass_renderSync E srcPath (getNodePaths E (Path.dirname srcPath)) = Ok output
    /\ postcss_process E false minify (css output) = Ok c1
    /\ postcss_process E true minify (css output) = Ok c2
    /\ trace w'
       = trace w
         ++ [EWrite (cssDest destPath) (bannerComment E ++ [Regex.newline] ++ c1);
             EWrite (rtlDest (cssDest destPath)) (bannerComment E ++ [Regex.newline] ++ c2);
             ESuccess srcPath]
    /\ watching w'
       = watching w
         ++ (if watch
             then [{| files := includedFiles output;
                      rebuildFn := RebuildStyles srcPath (cssDest destPath) minify |}]
             else [])
    /\ (forall stem,
          splitFirst (str ".scss") destPath = Some (stem, []) ->
          splitFirst (str ".css") (stem ++ str ".css") = Some (stem, []) ->
          cssDest destPath = stem ++ str ".css"
          /\ rtlDest (cssDest destPath) = stem ++ str ".rtl.css").
Proof.
  intros H; rewrite bundleStyles_run in H.
  destruct (sass_renderSync E srcPath _) as [output|e] eqn:Hsass; [|discriminate].
  destruct (postcss_process E false minify (css output)) as [c1|e] eqn:H1;
    [|discriminate].
  destruct (fsWrite E (cssDest destPath) _) as [[]|e]; [|discriminate].
  cbv zeta in H.
  destruct (postcss_process E true minify (css output)) as [c2|e] eqn:H2;
    [|discriminate].
  destruct (fsWrite E (rtlDest (cssDest destPath)) _) as [[]|e]; [|discriminate].
  injection H as <-.
  exists output, c1, c2.
  split; [reflexivity|]. split; [assumption|]. split; [assumption|].
  split; [|split; [reflexivity|]; intros stem H H'; split].
  - unfold styleFile; cbn [trace withLogs]; now rewrite <- !app_assoc.
  - pose proof H as Hd; apply splitFirst_end in Hd; subst destPath.
    unfold cssDest; rewrite endsWith_app.
    apply replace_at_end; [assumption|char_absent].
  - assert (Hcss : cssDest destPath = stem ++ str ".css").
    { pose proof H as Hd; apply splitFirst_end in Hd; subst destPath.
      unfold cssDest; rewrite endsWith_app.
      apply replace_at_end; [assumption|char_absent]. }
    rewrite Hcss; unfold rtlDest; apply replace_at_end; [assumption|char_absent].
Qed.

Lemma stylesheet_outputs_witness :
  exists output c1 c2,
    sass_renderSync Sample.E Edited.main (getNodePaths Sample.E (Path.dirname Edited.main))
    = Ok output
    /\ postcss_process Sample.E false true (css output) = Ok c1
    /\ postcss_process Sample.E true true (css output) = Ok c2
    /\ writtenFiles
         (trace (snd (bundleStyles Sample.E Edited.main (str "/out/main.scss") true true
                        initialWorld)))
       = [str "/out/main" ++ str ".css"; str "/out/main" ++ str ".rtl.css"].
Proof.
  destruct (stylesheet_outputs Sample.E Edited.main (str "/out/main.scss") true true
              initialWorld
              (snd (bundleStyles Sample.E Edited.main (str "/out/main.scss") true true
                      initialWorld)))
    as (output & c1 & c2 & Hsass & H1 & H2 & Ht & _ & Hnames).
  - reflexivity.
  - exists output, c1, c2.
    split; [assumption|]. split; [assumption|]. split; [assumption|].
    destruct (Hnames (str "/out/main")) as [Hcss Hrtl]; [reflexivity|reflexivity|].
    rewrite Ht, Hrtl, Hcss; reflexivity.
Defined.

Lemma replace_absent (p r s : jstring) : includes p s = false -> replace p r s = s.
Proof.
  unfold includes, replace; now destruct (splitFirst p s) as [[a b]|].
Qed.

(** X4: when the destination of a stylesheet holds no [.css] once a final
    [.scss] is rewritten, the mirrored variant is written to the same file
    as the stylesheet, after it: a build that succeeds has written that
    one file twice. *)
Theorem mirrored_stylesheet_replaces_primary (E : Env) (srcPath destPath : jstring)
    (minify watch : bool) (w w' : World) :
  includes (str ".css") (cssDest destPath) = false ->
  bundleStyles E srcPath destPath minify watch w = (Ok tt, w') ->
  exists c1 c2,
    trace w'
    = trace w
      ++ [EWrite (cssDest destPath) (styleFile E c1);
          EWrite (cssDest destPath) (styleFile E c2);
          ESuccess srcPath]
    /\ (forall output,
          sass_renderSync E srcPath (getNodePaths E (Path.dirname srcPath)) = Ok output ->
          postcss_process E false minify (css output) = Ok c1
          /\ postcss_process E true minify (css output) = Ok c2)
    /\ writtenFiles (trace w') = writtenFiles (trace w) ++ [cssDest destPath; cssDest destPath].
Proof.
  intros Hcss H; rewrite bundleStyles_run in H.
  unfold rtlDest in H; rewrite (replace_absent _ _ _ Hcss) in H.
  destruct (sass_renderSync E srcPath _) as [output|e] eqn:Hsass; [|discriminate].
  destruct (postcss_process E false minify (css output)) as [c1|e] eqn:H1;
    [|discriminate].
  destruct (fsWrite E (cssDest destPath) (styleFile E c1)) as [[]|e]; [|discriminate].
  cbv zeta in H.
  destruct (postcss_process E true minify (css output)) as [c2|e] eqn:H2;
    [|discriminate].
  destruct (fsWrite E (cssDest destPath) (styleFile E c2)) as [[]|e]; [|discriminate].
  injection H as <-.
  exists c1, c2; split; [reflexivity|]. split.
  - intros output' [= <-]; now split.
  - cbn [trace withLogs]; now rewrite writtenFiles_app.
Qed.

Lemma mirrored_stylesheet_replaces_primary_witness :
  writtenFiles
    (trace (snd (bundleStyles Sample.E Edited.main (str "/out/main") false false
                   initialWorld)))
  = [str "/out/main"; str "/out/main"].
Proof.
  destruct (mirrored_stylesheet_replaces_primary Sample.E Edited.main (str "/out/main")
              false false initialWorld
              (snd (bundleStyles Sample.E Edited.main (str "/out/main") false false
                      initialWorld)))
    as (c1 & c2 & _ & _ & Hfiles).
  - reflexivity.
  - reflexivity.
  - exact Hfiles.
Defined.

(** X5: a stylesheet build stops at its first failure.  When sass fails
    nothing is written.  When the pass for the mirrored variant fails, the
    stylesheet itself has already been written and stays; in both cases
    no success is reported and nothing is registered, also in watch
    mode. *)
Theorem stylesheet_failure_modes (E : Env) (srcPath destPath : jstring)
    (minify watch : bool) (w : World) (e : jstring) :
  (sass_renderSync E srcPath (getNodePaths E (Path.dirname srcPath)) = Throw e ->
   bundleStyles E srcPath destPath minify watch w = (Throw e, w))
  /\ (forall output c1,
        sass_renderSync E srcPath (getNodePaths E (Path.dirname srcPath)) = Ok output ->
        postcss_process E false minify (css output) = Ok c1 ->
        fsWrite E (cssDest destPath) (bannerComment E ++ [Regex.newline] ++ c1) = Ok tt ->
        postcss_process E true minify (css output) = Throw e ->
        bundleStyles E srcPath destPath minify watch w
        = (Throw e,
           logged w (EWrite (cssDest destPath) (bannerComment E ++ [Regex.newline] ++ c1)))).
Proof.
  split.
  - intros Hsass; rewrite bundleStyles_run; unfold jstring in *; now rewrite Hsass.
  - intros output c1 Hsass H1 Hw H2; rewrite bundleStyles_run.
    unfold jstring in *; rewrite Hsass, H1.
    assert (Hfile : styleFile E c1 = bannerComment E ++ [Regex.newline] ++ c1)
      by (unfold styleFile; now rewrite <- app_assoc).
    rewrite Hfile, Hw; cbv zeta; now rewrite H2.
Qed.

Lemma stylesheet_failure_modes_witness :
  bundleStyles Failing.E Edited.main (str "/out/main.scss") false true initialWorld
  = (Throw (str "Undefined variable"), initialWorld)
  /\ bundleStyles RtlFails.E Edited.main (str "/out/main.scss") false true initialWorld
     = (Throw (str "rtlcss: unexpected token"),
        logged initialWorld
          (EWrite (cssDest (str "/out/main.scss"))
             (bannerComment RtlFails.E ++ [Regex.newline] ++ str "a{}"))).
Proof.
  split.
  - apply (proj1 (stylesheet_failure_modes Failing.E Edited.main (str "/out/main.scss")
                    false true initialWorld (str "Undefined variable"))).
    reflexivity.
  - apply (proj2 (stylesheet_failure_modes RtlFails.E Edited.main (str "/out/main.scss")
                    false true initialWorld (str "rtlcss: unexpected token"))
             {| css := str "a{}"; includedFiles := [Edited.main] |} (str "a{}"));
      reflexivity.
Defined.

(** X6: the rebuild that a stylesheet build registers in watch mode, run
    while the tools answer as they did, writes the same two files with the
    same text and reports success again, whatever was traced in between.
    The registered destination is the one after the rewriting of [.scss];
    the hypothesis says that it does not end in [.scss] again. *)
Theorem stylesheet_rebuild_repeats_build (E : Env) (srcPath destPath : jstring)
    (minify : bool) (w w' : World) :
  endsWith (str ".scss") (cssDest destPath) = false ->
  bundleStyles E srcPath destPath minify true w = (Ok tt, w') ->
  exists r events,
    watching w' = watching w ++ [r]
    /\ trace w' = trace w ++ events
    /\ writtenFiles events = [cssDest destPath; rtlDest (cssDest destPath)]
    /\ forall v,
         runRebuild E (rebuildFn r) v
         = (Ok tt, withLogs v (watching v) (trace v ++ events)).
Proof.
  intros Hend H; rewrite bundleStyles_run in H.
  destruct (sass_renderSync E srcPath _) as [output|e] eqn:Hsass; [|discriminate].
  destruct (postcss_process E false minify (css output)) as [c1|e] eqn:H1;
    [|discriminate].
  destruct (fsWrite E (cssDest destPath) (styleFile E c1)) as [[]|e] eqn:Hw1;
    [|discriminate].
  cbv zeta in H.
  destruct (postcss_process E true minify (css output)) as [c2|e] eqn:H2;
    [|discriminate].
  destruct (fsWrite E (rtlDest (cssDest destPath)) (styleFile E c2)) as [[]|e] eqn:Hw2;
    [|discriminate].
  injection H as <-.
  exists (styleRegistration srcPath destPath minify output),
         [EWrite (cssDest destPath) (styleFile E c1);
          EWrite (rtlDest (cssDest destPath)) (styleFile E c2);
          ESuccess srcPath].
  split; [reflexivity|]. split; [reflexivity|]. split; [reflexivity|].
  intros v; cbn [runRebuild rebuildFn styleRegistration].
  rewrite bundleStyles_run.
  assert (Hsame : cssDest (cssDest destPath) = cssDest destPath)
    by (unfold cssDest at 1; now rewrite Hend).
  rewrite Hsame; unfold jstring in *.
  rewrite Hsass, H1, Hw1; cbv zeta; rewrite H2, Hw2.
  now rewrite app_nil_r.
Qed.

Lemma stylesheet_rebuild_repeats_build_witness :
  exists r events,
    watching (snd (bundleStyles Sample.E Edited.main (str "/out/main.scss") false true
                     initialWorld)) = [r]
    /\ writtenFiles events = [str "/out/main.css"; str "/out/main.rtl.css"]
    /\ runRebuild Sample.E (rebuildFn r) initialWorld
       = (Ok tt, withLogs initialWorld [] events).
Proof.
  destruct (stylesheet_rebuild_repeats_build Sample.E Edited.main (str "/out/main.scss")
              false initialWorld
              (snd (bundleStyles Sample.E Edited.main (str "/out/main.scss") false true
                      initialWorld)))
    as (r & events & Hr & _ & Hfiles & Hrun).
  - reflexivity.
  - reflexivity.
  - exists r, events; split; [exact Hr|]. split; [exact Hfiles|]. apply Hrun.
Defined.

(** ** Scripts: the loop over the locales *)













(** ** The driver without watching *)

(** X10: a build without watching registers nothing: after [buildAssets]
    with [watch] false, whatever the units did, whichever of them failed
    and in whichever order they took their turns, the registered rebuilds
    are those of before. *)
Theorem build_without_watching_registers_nothing (E : Env) (minify : bool)
    (ls : list jstring) (sched : list (list nat)) (w : World) :
  watching (snd (run (buildAssets E minify false ls) sched w)) = watching w.
Proof. apply run_unwatched. Qed.

(** ** Icons *)

(** X11: the icon path is published before the sprite is written.  Once
    the sprite is assembled, the path that a build ends with is, whatever
    the schedule, the one with the hash of that sprite, also when the
    sprite could not be written: then the icon stage has logged the failure
    of the write, has written nothing, and the scripts built afterwards
    refer to the versioned path all the same. *)
Theorem icon_path_published_before_write (E : Env) (minify watch : bool)
    (ls : list jstring) (icons : list jstring) (sched : list (list nat)) (w : World) :
  mapM (iconSymbol E) (getAssetFiles E (str "assets/icons/*.svg")) w = (Ok icons, w) ->
  iconsPath (snd (run (buildAssets E minify watch ls) sched w))
  = hashedIconsPath E (spriteOf icons)
  /\ (forall e,
        fsWrite E (Path.join (OUTPUT E) (str "icons.svg")) (spriteOf icons) = Throw e ->
        bundleIcons E w = (Throw e, withIcons w (hashedIconsPath E (spriteOf icons)))
        /\ iconStage E w
           = (Ok tt, logged (withIcons w (hashedIconsPath E (spriteOf icons)))
                       (EError (str "icons.svg") e))).
Proof.
  intros Hicons.
  assert (Hfail : forall e,
            fsWrite E (Path.join (OUTPUT E) (str "icons.svg")) (spriteOf icons) = Throw e ->
            bundleIcons E w = (Throw e, withIcons w (hashedIconsPath E (spriteOf icons)))).
  { intros e Hw; unfold bundleIcons, bind at 1; rewrite Hicons.
    unfold bind, setIconsPath, writeFile; unfold bind, lift.
    cbv beta iota zeta; unfold jstring in *; now rewrite Hw. }
  split.
  - assert (Hstage : iconsPath (snd (iconStage E w)) = hashedIconsPath E (spriteOf icons)).
    { unfold iconStage, catch, bundleIcons, bind at 1; rewrite Hicons.
      unfold bind, setIconsPath, writeFile, success, error; unfold bind, lift, emit.
      cbv beta iota zeta.
      now destruct (fsWrite E _ _) as [[]|e]. }
    now rewrite build_iconsPath.
  - intros e Hw; split; [now apply Hfail|].
    unfold iconStage, catch; now rewrite (Hfail e Hw).
Qed.

Lemma icon_path_published_before_write_witness :
  iconsPath (snd (run (buildAssets ReadOnly.E false false [str "en"]) [[]; [1]]
                      initialWorld))
  = str "/icons.01234567.svg"
  /\ writtenFiles (trace (snd (iconStage ReadOnly.E initialWorld))) = [].
Proof.
  destruct (icon_path_published_before_write ReadOnly.E false false [str "en"]
              [str "<symbol id=" ++ Regex.dquote :: str "star" ++ Regex.dquote
               :: str " ><path/></symbol>"] [[]; [1]] initialWorld) as [Hpath Hfail].
  - reflexivity.
  - split; [rewrite Hpath; reflexivity|].
    destruct (Hfail (str "EROFS")) as [_ Hstage]; [reflexivity|].
    rewrite Hstage; reflexivity.
Defined.

Lemma splitFirst_here (p r : jstring) : splitFirst p (p ++ r) = Some ([], r).
Proof.
  pose proof (stripPrefix_app p r) as H.
  destruct (p ++ r) as [|c s]; simpl in *; now rewrite H.
Qed.

(** The search passes over a stretch without the first character of the
    pattern. *)
Lemma splitFirst_skip (c0 : ascii) (p pre s : jstring) :
  ~ In c0 pre ->
  splitFirst (c0 :: p) (pre ++ s)
  = match splitFirst (c0 :: p) s with
    | Some (a, b) => Some (pre ++ a, b)
    | None => None
    end.
Proof.
  induction pre as [|c pre IH]; intros H.
  - simpl app; now destruct (splitFirst (c0 :: p) s) as [[a b]|].
  - change ((c :: pre) ++ s) with (c :: pre ++ s).
    cbn [splitFirst]; rewrite stripPrefix_head
      by (intros ->; apply H; now left).
    rewrite IH by (intros Hin; apply H; now right).
    now destruct (splitFirst (c0 :: p) s) as [[a b]|].
Qed.

(** X12: an icon file whose text is [<svg], the SVG namespace attribute, a
    space, the rest of the opening tag and the body, closed by the first
    [</svg>] of the text, becomes the symbol with the base name of the file
    as its id: the namespace attribute is taken out, [<svg] becomes
    [<symbol id=...] and the closing tag becomes [</symbol>].  The base
    name must hold neither a dollar sign, which the replacement would
    interpret, nor an angle bracket. *)
Theorem icon_becomes_symbol (E : Env) (a : AssetFile) (rest : jstring) (w : World) :
  readFile E (src a)
  = Ok (str "<svg" ++ svgNamespace ++ " "%char :: rest ++ str "</svg>") ->
  splitFirst (str "</svg>") (rest ++ str "</svg>") = Some (rest, []) ->
  ~ In "$"%char (Path.basenameExt (src a) (str ".svg")) ->
  ~ In "<"%char (Path.basenameExt (src a) (str ".svg")) ->
  iconSymbol E a w
  = (Ok (str "<symbol id=" ++ Regex.dquote :: Path.basenameExt (src a) (str ".svg")
         ++ Regex.dquote :: " "%char :: rest ++ str "</symbol>"), w).
Proof.
  intros Hread Hclose Hdollar Hangle.
  unfold iconSymbol, bind, lift, ret; unfold jstring in *; rewrite Hread.
  set (id := Path.basenameExt (src a) (str ".svg")) in *.
  f_equal; f_equal.
  (* the namespace attribute *)
  assert (H1 : replace svgNamespace []
                 (str "<svg" ++ svgNamespace ++ " "%char :: rest ++ str "</svg>")
               = str "<svg " ++ rest ++ str "</svg>").
  { unfold replace.
    change svgNamespace with (" "%char :: tl svgNamespace) at 1 2.
    rewrite splitFirst_skip by char_absent.
    change (" "%char :: tl svgNamespace) with svgNamespace.
    rewrite splitFirst_here; reflexivity. }
  unfold jstring in *; rewrite H1.
  (* the opening tag *)
  assert (H2 : replace (str "<svg ")
                 (str "<symbol id=" ++ Regex.dquote :: id ++ Regex.dquote :: str " ")
                 (str "<svg " ++ rest ++ str "</svg>")
               = str "<symbol id=" ++ Regex.dquote :: id ++ Regex.dquote :: " "%char
                 :: rest ++ str "</svg>").
  { unfold replace; rewrite splitFirst_here.
    rewrite getSubstitution_plain.
    - simpl; rewrite <- app_assoc; reflexivity.
    - simpl; intros H; repeat (destruct H as [H|H]; [discriminate|]).
      apply in_app_iff in H as [H|H]; [contradiction|].
      repeat (destruct H as [H|H]; [discriminate|]); exact H. }
  unfold jstring in *; rewrite H2.
  (* the closing tag *)
  assert (H3 : splitFirst (str "</svg>")
                 (str "<symbol id=" ++ Regex.dquote :: id ++ Regex.dquote :: " "%char
                  :: rest ++ str "</svg>")
               = Some (str "<symbol id=" ++ Regex.dquote :: id ++ Regex.dquote :: " "%char
                       :: rest, [])).
  { assert (Hshape : forall t,
              str "<symbol id=" ++ Regex.dquote :: id ++ Regex.dquote :: " "%char :: t
              = "<"%char :: (str "symbol id=" ++ Regex.dquote :: id
                             ++ [Regex.dquote; " "%char]) ++ t)
      by (intros t; simpl; now rewrite <- app_assoc).
    rewrite !Hshape.
    change (str "</svg>") with ("<"%char :: str "/svg>") at 1.
    cbn [splitFirst].
    assert (Hnot : forall t,
              stripPrefix ("<"%char :: str "/svg>")
                ("<"%char :: (str "symbol id=" ++ Regex.dquote :: id
                              ++ [Regex.dquote; " "%char]) ++ t) = None)
      by reflexivity.
    rewrite Hnot, splitFirst_skip.
    - change ("<"%char :: str "/svg>") with (str "</svg>"); now rewrite Hclose.
    - simpl; intros H; repeat (destruct H as [H|H]; [discriminate|]).
      apply in_app_iff in H as [H|H]; [contradiction|].
      repeat (destruct H as [H|H]; [discriminate|]); exact H. }
  unfold replace; unfold jstring in *; rewrite H3.
  rewrite getSubstitution_plain by char_absent.
  rewrite app_nil_r; simpl; now rewrite <- !app_assoc.
Qed.

Lemma icon_becomes_symbol_witness :
  iconSymbol Namespaced.E
    {| src := str "/project/frontend/assets/icons/star.svg"; dest := str "/out/star.svg" |}
    initialWorld
  = (Ok (str "<symbol id=" ++ Regex.dquote :: str "star" ++ Regex.dquote
         :: str " viewBox=" ++ Regex.dquote :: str "0 0 24 24" ++ Regex.dquote
         :: str "><path d=" ++ Regex.dquote :: str "M0 0" ++ Regex.dquote
         :: str "/></symbol>"), initialWorld).
Proof.
  apply (icon_becomes_symbol Namespaced.E
           {| src := str "/project/frontend/assets/icons/star.svg";
              dest := str "/out/star.svg" |}
           (str "viewBox=" ++ Regex.dquote :: str "0 0 24 24" ++ Regex.dquote
            :: str "><path d=" ++ Regex.dquote :: str "M0 0" ++ Regex.dquote :: str "/>")
           initialWorld).
  - reflexivity.
  - reflexivity.
  - vm_compute; intros H; repeat (destruct H as [H|H]; [discriminate|]); exact H.
  - vm_compute; intros H; repeat (destruct H as [H|H]; [discriminate|]); exact H.
Defined.

(** ** Safe-area variables *)

Lemma splitFirst_None_suffix (p : jstring) : forall a1 a2,
  splitFirst p (a1 ++ a2) = None -> stripPrefix p a2 = None.
Proof.
  induction a1 as [|c a1 IH]; intros a2 H.
  - simpl in H; destruct a2 as [|d a2]; simpl in H;
      destruct (stripPrefix p _); [discriminate|reflexivity|discriminate|reflexivity].
  - apply IH.
    change ((c :: a1) ++ a2) with (c :: a1 ++ a2) in H; cbn [splitFirst] in H.
    destruct (stripPrefix p (c :: a1 ++ a2)); [discriminate|].
    now destruct (splitFirst p (a1 ++ a2)) as [[x y]|].
Qed.

Lemma safeAreaExpr_prefix (s : jstring) :
  stripPrefix (str "env(") s = None -> safeAreaExpr s = None.
Proof. intros H; unfold safeAreaExpr; now rewrite H. Qed.

Lemma safeAreaExpr_without (value : jstring) :
  includes (str "env(") value = false -> Regex.replaceAll safeAreaExpr 0 value = value.
Proof.
  intros H; apply replaceAll_none; intros a1 c a2 ->.
  apply safeAreaExpr_prefix, (splitFirst_None_suffix _ a1).
  unfold includes in H; now destruct (splitFirst _ _).
Qed.

(** X13: a declaration whose value does not contain [env(] gets no
    fallback declaration. *)
Theorem safe_area_leaves_other_values (value : jstring) :
  includes (str "env(") value = false -> safeAreaDeclaration value = None.
Proof.
  intros H; unfold safeAreaDeclaration.
  rewrite safeAreaExpr_without by assumption.
  cbv zeta; now rewrite eqb_refl.
Qed.

Lemma safe_area_leaves_other_values_witness :
  safeAreaDeclaration (str "calc(100% - 2em)") = None.
Proof. apply safe_area_leaves_other_values; reflexivity. Defined.

Lemma dropWhile_app_all (f : ascii -> bool) (l1 l2 : jstring) :
  forallb f l1 = true -> dropWhile f (l1 ++ l2) = dropWhile f l2.
Proof.
  induction l1 as [|c l1 IH]; simpl; [reflexivity|].
  intros H; apply andb_true_iff in H as [-> H]; auto.
Qed.

Lemma stripAny_name (name r : jstring) :
  In name SAFE_AREA_VARS -> stripAny SAFE_AREA_VARS (name ++ r) = Some r.
Proof.
  intros [<-|[<-|[<-|[<-|[]]]]]; cbn; now destruct r.
Qed.

Lemma name_not_space (name r : jstring) :
  In name SAFE_AREA_VARS -> dropWhile isSpace (name ++ r) = name ++ r.
Proof. intros [<-|[<-|[<-|[<-|[]]]]]; reflexivity. Qed.

Lemma plainValue_stop (v b : jstring) :
  plainValue v = true ->
  dropWhile isSpace (v ++ ")"%char :: b) = v ++ ")"%char :: b
  /\ takeWhile notParen (v ++ ")"%char :: b) = v
  /\ dropWhile notParen (v ++ ")"%char :: b) = ")"%char :: b
  /\ match v ++ ")"%char :: b with
     | c :: t => if Ascii.eqb c "," then t else v ++ ")"%char :: b
     | [] => v ++ ")"%char :: b
     end = v ++ ")"%char :: b.
Proof.
  unfold plainValue; intros H; apply andb_true_iff in H as [Hv Hhead].
  split; [|split; [|split]].
  - destruct v as [|c v]; [reflexivity|].
    apply andb_true_iff in Hhead as [Hs _]; simpl.
    now destruct (isSpace c).
  - now apply takeWhile_app_stop.
  - now apply dropWhile_app_stop.
  - destruct v as [|c v]; [reflexivity|].
    apply andb_true_iff in Hhead as [_ Hc]; simpl.
    now destruct (Ascii.eqb c ",").
Qed.

(** The expression matches a call from its [env(] to its closing
    parenthesis. *)
Lemma safeAreaExpr_call (sp1 name sp2 sp3 v b : jstring) (comma : bool) :
  In name SAFE_AREA_VARS ->
  forallb isSpace sp1 = true -> forallb isSpace sp2 = true ->
  forallb isSpace sp3 = true -> plainValue v = true ->
  safeAreaExpr (envCall sp1 name sp2 comma sp3 v ++ b)
  = Some (List.length (envCall sp1 name sp2 comma sp3 v),
          match v with [] => str "0" | _ => v end).
Proof.
  intros Hname H1 H2 H3 Hv.
  destruct (plainValue_stop v b Hv) as (Hspace & Htake & Hdrop & Hcomma).
  assert (Hshape : envCall sp1 name sp2 comma sp3 v ++ b
                   = str "env(" ++ sp1 ++ name ++ sp2 ++ (if comma then str "," else [])
                     ++ sp3 ++ v ++ ")"%char :: b).
  { unfold envCall; now rewrite <- !app_assoc. }
  unfold safeAreaExpr; rewrite Hshape at 1; rewrite stripPrefix_app.
  rewrite dropWhile_app_all, name_not_space, stripAny_name by assumption.
  rewrite dropWhile_app_all by assumption.
  cbv zeta.
  assert (Hr4 : dropWhile isSpace
                  match dropWhile isSpace ((if comma then str "," else [])
                                           ++ sp3 ++ v ++ ")"%char :: b) with
                  | c :: t =>
                      if Ascii.eqb c ","
                      then t
                      else dropWhile isSpace ((if comma then str "," else [])
                                              ++ sp3 ++ v ++ ")"%char :: b)
                  | [] => dropWhile isSpace ((if comma then str "," else [])
                                             ++ sp3 ++ v ++ ")"%char :: b)
                  end
                = v ++ ")"%char :: b).
  { destruct comma.
    - cbn [app str list_ascii_of_string dropWhile].
      change (isSpace ",") with false; cbv iota.
      change (Ascii.eqb "," ",") with true; cbv iota.
      now rewrite dropWhile_app_all, Hspace.
    - cbn [app]; rewrite dropWhile_app_all, Hspace by assumption.
      transitivity (dropWhile isSpace (v ++ ")"%char :: b)); [|exact Hspace].
      f_equal; exact Hcomma. }
  unfold jstring in *; rewrite Hr4, Htake, Hdrop.
  do 2 f_equal.
  rewrite length_app; lia.
Qed.

Lemma dropWhile_length (f : ascii -> bool) (s : jstring) :
  List.length (dropWhile f s) <= List.length s.
Proof.
  induction s as [|c s IH]; simpl; [lia|].
  destruct (f c); simpl; lia.
Qed.

Lemma stripAny_length (names : list jstring) (s r : jstring) :
  stripAny names s = Some r -> List.length r <= List.length s.
Proof.
  induction names as [|n names IH]; simpl; [discriminate|].
  destruct (stripPrefix n s) as [r'|] eqn:Hn; [|exact IH].
  intros [= <-]; apply stripPrefix_Some in Hn; subst s.
  rewrite length_app; lia.
Qed.

(** A replacement is never longer than what it replaces. *)
Lemma replaceAll_length (m : jstring -> option (nat * jstring)) :
  (forall s n rep, m s = Some (n, rep) -> List.length rep <= n /\ n <= List.length s) ->
  forall s k, List.length (Regex.replaceAll m k s) <= List.length s - k.
Proof.
  intros Hm; induction s as [|c s IH]; intros k; simpl; [lia|].
  destruct k as [|k]; [|apply IH].
  destruct (m (c :: s)) as [[[|n] rep]|] eqn:Hmatch.
  - specialize (IH 0); simpl; lia.
  - apply Hm in Hmatch; simpl in Hmatch.
    specialize (IH n); rewrite length_app; lia.
  - specialize (IH 0); simpl; lia.
Qed.

Lemma safeAreaExpr_bounds (s : jstring) (n : nat) (rep : jstring) :
  safeAreaExpr s = Some (n, rep) -> List.length rep <= n /\ n <= List.length s.
Proof.
  unfold safeAreaExpr.
  destruct (stripPrefix (str "env(") s) as [r0|] eqn:H0; [|discriminate].
  apply stripPrefix_Some in H0.
  destruct (stripAny SAFE_AREA_VARS (dropWhile isSpace r0)) as [r1|] eqn:H1; [|discriminate].
  apply stripAny_length in H1.
  pose proof (dropWhile_length isSpace r0) as L0.
  cbv zeta.
  set (r2 := dropWhile isSpace r1).
  pose proof (dropWhile_length isSpace r1) as L2; fold r2 in L2.
  set (r3 := match r2 with
             | c :: t => if Ascii.eqb c "," then t else r2
             | [] => r2
             end).
  assert (L3 : List.length r3 <= List.length r2)
    by (subst r3; destruct r2 as [|c t]; [lia|]; destruct (Ascii.eqb c ","); simpl; lia).
  set (r4 := dropWhile isSpace r3).
  pose proof (dropWhile_length isSpace r3) as L4; fold r4 in L4.
  pose proof (takeWhile_dropWhile notParen r4) as Hsplit.
  apply (f_equal (@List.length ascii)) in Hsplit; rewrite length_app in Hsplit.
  destruct (dropWhile notParen r4) as [|c rest]; [discriminate|].
  intros [= <- <-]; subst s; rewrite length_app.
  change (List.length (str "env(")) with 4.
  destruct (takeWhile notParen r4); cbn [List.length str list_ascii_of_string] in *; lia.
Qed.

Lemma safeAreaExpr_head (c : ascii) (s : jstring) :
  c <> "e"%char -> safeAreaExpr (c :: s) = None.
Proof.
  intros H; apply safeAreaExpr_prefix.
  change (str "env(") with ("e"%char :: str "nv("); now apply stripPrefix_head.
Qed.

(** X14: a call [env(name, v)] of one of the four safe-area variables,
    with any white space around the name and after the comma and with or
    without the comma, is replaced in the fallback declaration by its
    second argument [v], or by [0] when there is none; the text before it
    is kept and the text after it is treated in the same way.  The
    declaration with the fallback is added, since it differs from the
    value. *)
Theorem safe_area_fallback (a b sp1 name sp2 sp3 v : jstring) (comma : bool) :
  ~ In "e"%char a ->
  In name SAFE_AREA_VARS ->
  forallb isSpace sp1 = true -> forallb isSpace sp2 = true ->
  forallb isSpace sp3 = true ->
  plainValue v = true ->
  safeAreaDeclaration (a ++ envCall sp1 name sp2 comma sp3 v ++ b)
  = Some (a ++ match v with [] => str "0" | _ => v end
            ++ Regex.replaceAll safeAreaExpr 0 b)
  /\ (includes (str "env(") b = false -> Regex.replaceAll safeAreaExpr 0 b = b).
Proof.
  intros Ha Hname H1 H2 H3 Hv; split; [|apply safeAreaExpr_without].
  pose proof (safeAreaExpr_call sp1 name sp2 sp3 v b comma Hname H1 H2 H3 Hv) as Hcall.
  assert (Hall : Regex.replaceAll safeAreaExpr 0 (a ++ envCall sp1 name sp2 comma sp3 v ++ b)
                 = a ++ match v with [] => str "0" | _ => v end
                     ++ Regex.replaceAll safeAreaExpr 0 b).
  { rewrite (replaceAll_copy_without safeAreaExpr "e"%char)
      by (assumption || apply safeAreaExpr_head).
    f_equal.
    change (envCall sp1 name sp2 comma sp3 v ++ b)
      with ("e"%char :: tl (envCall sp1 name sp2 comma sp3 v) ++ b) in *.
    apply replaceAll_match; exact Hcall. }
  unfold safeAreaDeclaration; rewrite Hall; cbv zeta.
  assert (Hneq : JS.eqb (a ++ match v with [] => str "0" | _ => v end
                           ++ Regex.replaceAll safeAreaExpr 0 b)
                        (a ++ envCall sp1 name sp2 comma sp3 v ++ b) = false).
  { apply eqb_neq; intros Heq.
    apply (f_equal (@List.length ascii)) in Heq.
    pose proof (replaceAll_length safeAreaExpr safeAreaExpr_bounds b 0) as Hb.
    rewrite !length_app in Heq; unfold envCall in Heq; rewrite !length_app in Heq.
    cbn [List.length str list_ascii_of_string] in Heq.
    destruct v; cbn [List.length] in Heq; lia. }
  unfold jstring in *; now rewrite Hneq.
Qed.

Lemma safe_area_fallback_witness :
  safeAreaDeclaration (str "calc(1px + env( safe-area-inset-left , 20px) + 2px)")
  = Some (str "calc(1px + 20px + 2px)").
Proof.
  destruct (safe_area_fallback (str "calc(1px + ") (str " + 2px)") (str " ")
              (str "safe-area-inset-left") (str " ") (str " ") (str "20px") true)
    as [Hdecl Hrest].
  - char_absent.
  - simpl; auto.
  - reflexivity.
  - reflexivity.
  - reflexivity.
  - reflexivity.
  - rewrite Hrest in Hdecl by reflexivity; exact Hdecl.
Defined.

(** ** Courses *)

(** X15: a course build that returns has written the data file of the
    course and locale exactly when the document transform gave a course,
    and has reported success only then.  In watch mode it has registered
    the source file whenever the transform gave data, also data without a
    course, for which nothing was written; when the transform gave nothing
    it has registered nothing. *)
Theorem course_build_outcomes (E : Env) (id locale : jstring) (allLocales : list jstring)
    (watch : bool) (base : jstring) (w w' : World) :
  bundleMarkdown E id locale allLocales watch base w = (Ok tt, w') ->
  exists answer,
    fst (parseCourse E (Path.join base id) locale allLocales) = Ok answer
    /\ trace w'
       = trace w
         ++ EParse (Path.join base id) locale
            :: match answer with
               | Some {| course := Some json |} =>
                   [EWrite (Path.join4 (OUTPUT E) (str "content") id
                              (str "data_" ++ locale ++ str ".json")) json;
                    EWriteCache;
                    ESuccess (courseLabel id locale)]
               | _ => []
               end
    /\ watching w'
       = watching w
         ++ match answer with
            | Some data =>
                if watch
                then [{| files := [srcFile data];
                         rebuildFn := RebuildMarkdown id locale allLocales base |}]
                else []
            | None => []
            end.
Proof.
  unfold bundleMarkdown, parseCourseCall.
  unfold bind at 1 2 3, emit, addCourseUrls, lift.
  destruct (fst (parseCourse E (Path.join base id) locale allLocales))
    as [[[[json|] file]|]|e]; [| | |discriminate].
  - cbn [course srcFile].
    unfold bind, writeFile, success, watchFiles, ret; unfold bind, lift, emit.
    destruct (fsWrite E _ json) as [[]|e]; [|discriminate].
    destruct watch; intros [= <-]; eexists; (split; [reflexivity|]);
      cbn [trace watching course srcFile];
      rewrite <- ?app_assoc, ?app_nil_r; split; reflexivity.
  - cbn [course srcFile]; unfold bind, watchFiles, ret.
    destruct watch; intros [= <-]; eexists; (split; [reflexivity|]);
      cbn [trace watching course srcFile]; rewrite ?app_nil_r; split; reflexivity.
  - unfold ret; intros [= <-]; eexists; split; [reflexivity|].
    cbn [trace watching]; rewrite ?app_nil_r; split; reflexivity.
Qed.

Lemma course_build_outcomes_witness :
  writtenFiles
    (trace (snd (bundleMarkdown Draft.E (str "algebra") (str "en") [str "en"] true
                   (str "/project/content") initialWorld))) = []
  /\ map files
       (watching (snd (bundleMarkdown Draft.E (str "algebra") (str "en") [str "en"] true
                         (str "/project/content") initialWorld)))
     = [[str "/project/content/algebra/content.md"]].
Proof.
  destruct (course_build_outcomes Draft.E (str "algebra") (str "en") [str "en"] true
              (str "/project/content") initialWorld
              (snd (bundleMarkdown Draft.E (str "algebra") (str "en") [str "en"] true
                      (str "/project/content") initialWorld)))
    as (answer & Hanswer & Htrace & Hwatch).
  - reflexivity.
  - injection Hanswer as <-; rewrite Htrace, Hwatch; split; reflexivity.
Defined.

(** ** Scripts: the text that is written *)

(** A matcher that asks for the prefix [p] finds nothing in a text
    without [p]. *)
Lemma replaceAll_without (m : jstring -> option (nat * jstring)) (p s : jstring) :
  (forall t, stripPrefix p t = None -> m t = None) ->
  includes p s = false -> Regex.replaceAll m 0 s = s.
Proof.
  intros Hm H; apply replaceAll_none; intros a1 c a2 ->.
  apply Hm, (splitFirst_None_suffix _ a1).
  unfold includes in H; now destruct (splitFirst _ _).
Qed.

Lemma bangComment_prefix (t : jstring) :
  stripPrefix (str "/*!") t = None -> Regex.bangComment t = None.
Proof. intros H; unfold Regex.bangComment; now rewrite H. Qed.

Lemma requireVue_prefix (t : jstring) :
  stripPrefix (str "require(") t = None -> Regex.requireVue t = None.
Proof. intros H; unfold Regex.requireVue; now rewrite H. Qed.

Lemma localisationKey_prefix cb (t : jstring) :
  stripPrefix (str "<<") t = None -> Regex.localisationKey cb t = None.
Proof. intros H; unfold Regex.localisationKey; now rewrite H. Qed.

(** The end of a comment is the nearest [*/]. *)
Lemma comment_end (c b : jstring) :
  includes (str "*/") c = false ->
  splitFirst (str "*/") (c ++ str "*/" ++ b) = Some (c, b).
Proof.
  induction c as [|x c IH]; intros H; [exact (splitFirst_here (str "*/") b)|].
  unfold includes in H; cbn [splitFirst] in H.
  destruct (stripPrefix (str "*/") (x :: c)) eqn:Hx; [discriminate|].
  assert (Hc : includes (str "*/") c = false).
  { unfold includes; destruct (splitFirst (str "*/") c) as [[u v]|]; [discriminate|].
    reflexivity. }
  change ((x :: c) ++ str "*/" ++ b) with (x :: c ++ str "*/" ++ b).
  cbn [splitFirst].
  assert (Hnot : stripPrefix (str "*/") (x :: c ++ str "*/" ++ b) = None).
  { revert Hx; cbn [stripPrefix str list_ascii_of_string].
    destruct (Ascii.eqb "*" x); [|reflexivity].
    destruct c as [|y c]; [reflexivity|].
    cbn [app]; now destruct (Ascii.eqb "/" y). }
  rewrite Hnot, IH by assumption; reflexivity.
Qed.

Lemma bangComment_head (c : ascii) (s : jstring) :
  c <> "/"%char -> Regex.bangComment (c :: s) = None.
Proof.
  intros H; apply bangComment_prefix.
  change (str "/*!") with ("/"%char :: str "*!"); now apply stripPrefix_head.
Qed.

Lemma requireVue_head (c : ascii) (s : jstring) :
  c <> "r"%char -> Regex.requireVue (c :: s) = None.
Proof.
  intros H; apply requireVue_prefix.
  change (str "require(") with ("r"%char :: str "equire("); now apply stripPrefix_head.
Qed.

(** X16: the first two steps of the script transform.  A comment opened
    by [/*!] is removed up to the nearest [*/] after the opening, and the
    scan goes on behind it, so a comment is never nested; a call
    [require('vue')], with single or double quotes on either side, becomes
    [window.Vue].  In both cases the text before, when it cannot start a
    match, is copied. *)
Theorem script_text_cleanup (a c b : jstring) (q1 q2 : ascii) :
  (~ In "/"%char a ->
   includes (str "*/") c = false ->
   Regex.replaceAll Regex.bangComment 0 (a ++ str "/*!" ++ c ++ str "*/" ++ b)
   = a ++ Regex.replaceAll Regex.bangComment 0 b)
  /\ (~ In "r"%char a ->
      Regex.isQuote q1 = true -> Regex.isQuote q2 = true ->
      Regex.replaceAll Regex.requireVue 0
        (a ++ str "require(" ++ q1 :: str "vue" ++ q2 :: str ")" ++ b)
      = a ++ str "window.Vue" ++ Regex.replaceAll Regex.requireVue 0 b).
Proof.
  split.
  - intros Ha Hc.
    rewrite (replaceAll_copy_without _ "/"%char)
      by (try assumption; intros x s Hx; now apply bangComment_head).
    f_equal.
    assert (Hm : Regex.bangComment (str "/*!" ++ c ++ str "*/" ++ b)
                 = Some (3 + List.length c + 2, [])).
    { unfold Regex.bangComment; rewrite stripPrefix_app, comment_end; auto. }
    replace (str "/*!" ++ c ++ str "*/" ++ b)
      with ("/"%char :: (str "*!" ++ c ++ str "*/") ++ b) in Hm |- *
      by (simpl; now rewrite <- app_assoc).
    change (Regex.replaceAll Regex.bangComment 0 b)
      with ([] ++ Regex.replaceAll Regex.bangComment 0 b).
    apply replaceAll_match.
    rewrite Hm; f_equal; f_equal.
    rewrite !length_app; simpl; lia.
  - intros Ha H1 H2.
    rewrite (replaceAll_copy_without _ "r"%char)
      by (try assumption; intros x s Hx; now apply requireVue_head).
    f_equal.
    change (str "require(" ++ q1 :: str "vue" ++ q2 :: str ")" ++ b)
      with ("r"%char :: (str "equire(" ++ q1 :: str "vue" ++ q2 :: str ")") ++ b).
    apply replaceAll_match.
    unfold Regex.requireVue.
    cbn [app str list_ascii_of_string stripPrefix].
    rewrite !Ascii.eqb_refl.
    change (Ascii.eqb "r" "r") with true; cbv iota.
    rewrite H1, H2; destruct b; reflexivity.
Qed.

Lemma script_text_cleanup_witness :
  Regex.replaceAll Regex.bangComment 0
    (str "a();" ++ str "/*!" ++ str " MIT * licence " ++ str "*/" ++ str "b();")
  = str "a();" ++ str "b();"
  /\ Regex.replaceAll Regex.requireVue 0
       (str "x=" ++ str "require(" ++ "'"%char :: str "vue" ++ Regex.dquote :: str ")"
        ++ str ".y")
     = str "x=" ++ str "window.Vue" ++ str ".y".
Proof.
  split.
  - apply (proj1 (script_text_cleanup (str "a();") (str " MIT * licence ") (str "b();")
                    "'"%char "'"%char)).
    + char_absent.
    + reflexivity.
  - apply (proj2 (script_text_cleanup (str "x=") [] (str ".y") "'"%char Regex.dquote)).
    + char_absent.
    + reflexivity.
    + reflexivity.
Defined.

(** X17: the script transform changes nothing else.  A bundle text that
    has no white space at its ends and holds none of [/*!], [require(],
    [/icons.svg] and [<<] is written as esbuild gave it, for every locale
    and every published icon path. *)
Theorem script_text_unchanged (options : Options) (locale icons raw : jstring) :
  trim raw = raw ->
  includes (str "/*!") raw = false ->
  includes (str "require(") raw = false ->
  includes (str "/icons.svg") raw = false ->
  includes (str "<<") raw = false ->
  scriptText options locale icons raw = raw.
Proof.
  intros Htrim Hbang Hvue Hicons Hkey; unfold scriptText; cbv zeta.
  unfold jstring in *; rewrite Htrim.
  rewrite (replaceAll_without Regex.bangComment (str "/*!"))
    by (assumption || apply bangComment_prefix).
  rewrite (replaceAll_without Regex.requireVue (str "require("))
    by (assumption || apply requireVue_prefix).
  rewrite replace_absent by assumption.
  apply (replaceAll_without _ (str "<<")); [apply localisationKey_prefix|assumption].
Qed.

Lemma script_text_unchanged_witness :
  scriptText noOptions (str "de") (str "/icons.01234567.svg")
    (str "var a=b<c?1:2/*keep*/;")
  = str "var a=b<c?1:2/*keep*/;".
Proof. apply script_text_unchanged; reflexivity. Defined.

(** X18: a project without icon files still gets its sprite: the icon
    stage writes the empty sprite, the header closed by [</svg>], and
    publishes the path with the hash of that text. *)
Theorem sprite_without_icons (E : Env) (w : World) :
  getAssetFiles E (str "assets/icons/*.svg") = [] ->
  fsWrite E (Path.join (OUTPUT E) (str "icons.svg")) (spriteHeader ++ str "</svg>") = Ok tt ->
  bundleIcons E w
  = (Ok tt,
     withLogs (withIcons w (hashedIconsPath E (spriteHeader ++ str "</svg>"))) (watching w)
       (trace w ++ [EWrite (Path.join (OUTPUT E) (str "icons.svg"))
                      (spriteHeader ++ str "</svg>");
                    ESuccess (str "icons.svg")])).
Proof.
  intros Hnone Hwrite; unfold bundleIcons; rewrite Hnone.
  unfold bind at 1; cbn [mapM]; unfold ret.
  assert (Hsprite : spriteOf [] = spriteHeader ++ str "</svg>") by reflexivity.
  cbv zeta; unfold jstring in *; rewrite Hsprite.
  unfold bind, setIconsPath, writeFile, success; unfold bind, lift, emit.
  rewrite Hwrite; unfold withLogs, withIcons; cbn [iconsPath COURSE_URLS watching trace].
  now rewrite <- app_assoc.
Qed.

Lemma sprite_without_icons_witness :
  writtenFiles (trace (snd (bundleIcons Overlay.E initialWorld))) = [str "/out/icons.svg"]
  /\ iconsPath (snd (bundleIcons Overlay.E initialWorld)) = str "/icons.01234567.svg".
Proof.
  rewrite (sprite_without_icons Overlay.E initialWorld); [|reflexivity|reflexivity].
  split; reflexivity.
Defined.

(** ** Scripts: one file for each locale *)


